(** * First-order sentences and their normal-form passes (sentence.py)

    A shallow embedding of the term layer ([Variable], [Function]), of the
    sentence classes ([Predicate], [Not], [And], [Or], [Implies], [IFF],
    [ForAll], [Exists]) and of the methods defined on them, followed by the
    properties established about them. *)

From Stdlib Require Import List String Bool Arith Lia.
Import ListNotations.
Local Open Scope string_scope.
Local Open Scope list_scope.

Set Implicit Arguments.

(** ** Outcomes of a method call *)

(** The exceptions the methods can raise.  [ValueError] is what
    [Quantifier.substitute] raises on a quantified variable; [AttributeError]
    is a method looked up on an object whose class lacks it; [TypeError] is a
    call that misses a required positional argument. *)
Inductive exception : Type :=
| ValueError
| AttributeError
| TypeError.

(** A call returns a value, raises, or ([Unfinished]) was cut off because the
    recursion budget given to the model was used up. *)
Inductive outcome (A : Type) : Type :=
| Ok (a : A)
| Raise (e : exception)
| Unfinished.

Arguments Ok {A} a.
Arguments Raise {A} e.
Arguments Unfinished {A}.

Definition bind {A B : Type} (m : outcome A) (k : A -> outcome B) : outcome B :=
  match m with
  | Ok a => k a
  | Raise e => Raise e
  | Unfinished => Unfinished
  end.

Notation "x <- m ;; k" := (bind m (fun x => k))
  (at level 61, m at next level, right associativity).

(** Evaluation of a generator expression, element by element, left to right;
    the first exception ends it. *)
Definition mapM {A B : Type} (f : A -> outcome B) : list A -> outcome (list B) :=
  fix go (l : list A) : outcome (list B) :=
    match l with
    | [] => Ok []
    | x :: r => y <- f x ;; ys <- go r ;; Ok (y :: ys)
    end.

(** ** Variables and terms *)

(** A [Variable] object: [var_id] stands for the identity of the object,
    [var_name] is the name "merely for humans".  The class defines no
    [__eq__], so two variables are equal exactly when they are the same
    object. *)
Record variable : Type := Variable_ { var_id : nat; var_name : string }.

Definition var_is (x y : variable) : bool := Nat.eqb (var_id x) (var_id y).

Local Unset Elimination Schemes.

(** An argument of a [Function] or of a [Predicate]. *)
Inductive term : Type :=
| Var (v : variable)
| Function (name : string) (content : list term).

Set Elimination Schemes.

(** Equality of two tuples: same length, equal element by element. *)
Definition tuple_eqb {A : Type} (eqb : A -> A -> bool) : list A -> list A -> bool :=
  fix go (l l' : list A) : bool :=
    match l, l' with
    | [], [] => true
    | x :: r, y :: r' => eqb x y && go r r'
    | _, _ => false
    end.

(** [RecursiveObject.__eq__] on terms: same class, equal content, equal
    name; identity on variables. *)
Fixpoint term_eqb (a b : term) {struct a} : bool :=
  match a, b with
  | Var x, Var y => var_is x y
  | Function n c, Function n' c' => tuple_eqb term_eqb c c' && String.eqb n n'
  | _, _ => false
  end.

(** Sets of variables, as built by the set comprehensions of
    [free_variables]: lists read up to order and repetition. *)
Definition var_in (x : variable) (s : list variable) : bool :=
  existsb (var_is x) s.

Definition var_add (x : variable) (s : list variable) : list variable :=
  if var_in x s then s else x :: s.

Definition var_discard (x : variable) (s : list variable) : list variable :=
  filter (fun y => negb (var_is x y)) s.

(** [Function.free_variables], on one argument and on a content tuple. *)
Fixpoint term_free_variables (t : term) : list variable :=
  match t with
  | Var x => [x]
  | Function _ c => flat_map term_free_variables c
  end.

(** ** Substitutions *)

(** Modelled from the spec: the module [substitution] ([sub.Substitution]) is
    imported by sentence.py but is not among the sources.  The spec describes
    it as a mapping from Variable to Term with a membership test, a lookup
    that is the identity on a miss, single-binding assignment, and a merge
    operator that fails on conflicting bindings.  Keys are compared by
    identity, as variables are everywhere else. *)
Definition substitution : Type := list (variable * term).

Definition Substitution : substitution := [].

(** [x in s] *)
Fixpoint sub_mem (x : variable) (s : substitution) : bool :=
  match s with
  | [] => false
  | (y, _) :: r => var_is x y || sub_mem x r
  end.

(** [s[x]], the identity on a miss *)
Fixpoint sub_get (s : substitution) (x : variable) : term :=
  match s with
  | [] => Var x
  | (y, t) :: r => if var_is x y then t else sub_get r x
  end.

(** [s[x] = t] *)
Fixpoint sub_set (s : substitution) (x : variable) (t : term) : substitution :=
  match s with
  | [] => [(x, t)]
  | (y, u) :: r => if var_is x y then (y, t) :: r else (y, u) :: sub_set r x t
  end.

(** [s & s']: the bindings of both, or a failure when a variable bound by
    both receives two unequal terms. *)
Fixpoint sub_merge (s s' : substitution) : option substitution :=
  match s' with
  | [] => Some s
  | (y, t) :: r =>
      if sub_mem y s
      then if term_eqb (sub_get s y) t then sub_merge s r else None
      else sub_merge (sub_set s y t) r
  end.

(** ** Term methods *)

(** [Function.substituted]: the rewritten term and whether anything was
    substituted.  The [Var] case is the loop body on a variable of the
    content. *)
Fixpoint substituted (t : term) (dic : substitution) : term * bool :=
  match t with
  | Var x => if sub_mem x dic then (sub_get dic x, true) else (Var x, false)
  | Function n c =>
      let r := map (fun cont => substituted cont dic) c in
      (Function n (map fst r), existsb snd r)
  end.

(** The body of the loop of [Function.unify] on one pair of the zipped
    contents: [None] is the early [return None]. *)
Definition Function_unify_pair (s : substitution) (selfc otherc : term)
  : option substitution :=
  if negb (term_eqb selfc otherc) then
    match selfc, otherc with
    | Var x, _ => Some (sub_set s x otherc)
    | _, Var y => Some (sub_set s y selfc)
    | _, _ => None
    end
  else Some s.

(** The loop itself, shared with [Predicate.unify]. *)
Fixpoint unify_loop (step : substitution -> term -> term -> option substitution)
  (s : substitution) (pairs : list (term * term)) : option substitution :=
  match pairs with
  | [] => Some s
  | (selfc, otherc) :: rest =>
      match step s selfc otherc with
      | Some s' => unify_loop step s' rest
      | None => None
      end
  end.

(** [Function.unify]; [None] is the method's [None]. *)
Definition Function_unify (self other : term) : option substitution :=
  match self, other with
  | Function n c, Function n' c' =>
      if String.eqb n n' && Nat.eqb (List.length c) (List.length c')
      then unify_loop Function_unify_pair Substitution (combine c c')
      else None
  | _, _ => None
  end.

(** ** Sentences *)

(** The two subclasses of [AssociativeCommutativeBinaryOperator] and the two
    subclasses of [Quantifier]. *)
Inductive ac_operator : Type := OpAnd | OpOr.
Inductive quantifier : Type := QForAll | QExists.

Definition op_eqb (o o' : ac_operator) : bool :=
  match o, o' with
  | OpAnd, OpAnd | OpOr, OpOr => true
  | _, _ => false
  end.

Definition quantifier_eqb (q q' : quantifier) : bool :=
  match q, q' with
  | QForAll, QForAll | QExists, QExists => true
  | _, _ => false
  end.

Local Unset Elimination Schemes.

(** The instances of the sentence classes.  [ACBO op content] is an [And] or
    an [Or]; its content is a frozenset, kept as the list of its elements in
    one iteration order.  [Quant q name body] is a [ForAll] or an [Exists].
    The content of an [IFF] is the frozenset of its two operands or, when
    [pair] is set, the tuple [(formula1, formula2)]. *)
Inductive sentence : Type :=
| Predicate (name : string) (content : list term)
| Not (s : sentence)
| ACBO (op : ac_operator) (content : list sentence)
| Implies (formula1 formula2 : sentence)
| IFF (pair : bool) (formula1 formula2 : sentence)
| Quant (q : quantifier) (name : variable) (s : sentence).

Set Elimination Schemes.

Abbreviation And := (ACBO OpAnd).
Abbreviation Or := (ACBO OpOr).
Abbreviation ForAll := (Quant QForAll).
Abbreviation Exists := (Quant QExists).

(** [RecursiveObject.__eq__] on sentences: same class, equal content, equal
    name.  Two frozensets are equal when each element of one equals an
    element of the other; a tuple never equals a frozenset. *)
Fixpoint sentence_eqb (a b : sentence) {struct a} : bool :=
  match a, b with
  | Predicate n c, Predicate n' c' => tuple_eqb term_eqb c c' && String.eqb n n'
  | Not s, Not s' => sentence_eqb s s'
  | ACBO o l, ACBO o' l' =>
      op_eqb o o'
      && forallb (fun x => existsb (fun y => sentence_eqb x y) l') l
      && forallb (fun y => existsb (fun x => sentence_eqb x y) l) l'
  | Implies f1 f2, Implies g1 g2 => sentence_eqb f1 g1 && sentence_eqb f2 g2
  | IFF p f1 f2, IFF p' g1 g2 =>
      Bool.eqb p p'
      && (if p
          then sentence_eqb f1 g1 && sentence_eqb f2 g2
          else (sentence_eqb f1 g1 || sentence_eqb f1 g2)
               && (sentence_eqb f2 g1 || sentence_eqb f2 g2)
               && (sentence_eqb f1 g1 || sentence_eqb f2 g1)
               && (sentence_eqb f1 g2 || sentence_eqb f2 g2))
  | Quant q x s, Quant q' y s' =>
      quantifier_eqb q q' && sentence_eqb s s' && var_is x y
  | _, _ => false
  end.

(** [x in s] for a set of sentences. *)
Definition set_in (x : sentence) (s : list sentence) : bool :=
  existsb (sentence_eqb x) s.

(** [frozenset(l)]: an element equal to an earlier one is not added. *)
Fixpoint frozenset (l : list sentence) : list sentence :=
  match l with
  | [] => []
  | x :: r => x :: filter (fun y => negb (sentence_eqb x y)) (frozenset r)
  end.

(** [AssociativeCommutativeBinaryOperator.__init__], through [And(...)] and
    [Or(...)]. *)
Definition mkACBO (op : ac_operator) (formulas : list sentence) : sentence :=
  ACBO op (frozenset formulas).

(** [IFF.__init__]: the frozenset of the two formulas, replaced by the tuple
    when it has a single element. *)
Definition mkIFF (formula1 formula2 : sentence) : sentence :=
  IFF (Nat.eqb (List.length (frozenset [formula1; formula2])) 1) formula1 formula2.

Arguments mkACBO : simpl never.
Arguments mkIFF : simpl never.

(** [self.content] and [len(self.content)]: a tuple of sentences, a
    frozenset of sentences or, on a [Predicate], the tuple of its
    arguments. *)
Inductive collection : Type :=
| Tuple (l : list sentence)
| FrozenSet (l : list sentence)
| ArgumentTuple (l : list term).

Definition content (s : sentence) : collection :=
  match s with
  | Predicate _ c => ArgumentTuple c
  | Not c => Tuple [c]
  | ACBO _ l => FrozenSet l
  | Implies f1 f2 => Tuple [f1; f2]
  | IFF true f1 f2 => Tuple [f1; f2]
  | IFF false f1 f2 => FrozenSet [f1; f2]
  | Quant _ _ c => Tuple [c]
  end.

Definition len (c : collection) : nat :=
  match c with
  | Tuple l | FrozenSet l => List.length l
  | ArgumentTuple l => List.length l
  end.

(** The values the constructors can build: an [And] or [Or] holds at least
    one operand and no two equal ones, and an [IFF] holds the tuple exactly
    when its two formulas are equal. *)
Fixpoint no_duplicate (l : list sentence) : bool :=
  match l with
  | [] => true
  | x :: r => negb (set_in x r) && no_duplicate r
  end.

Fixpoint well_formed (s : sentence) : bool :=
  match s with
  | Predicate _ _ => true
  | Not c => well_formed c
  | ACBO _ l =>
      negb (Nat.eqb (List.length l) 0) && no_duplicate l && forallb well_formed l
  | Implies f1 f2 => well_formed f1 && well_formed f2
  | IFF p f1 f2 =>
      Bool.eqb p (sentence_eqb f1 f2) && well_formed f1 && well_formed f2
  | Quant _ _ c => well_formed c
  end.

(** Nesting depth of the sentence classes (arguments of predicates do not
    count). *)
Fixpoint depth (s : sentence) : nat :=
  match s with
  | Predicate _ _ => 0
  | Not c => S (depth c)
  | ACBO _ l => S (fold_right (fun c m => Nat.max (depth c) m) 0 l)
  | Implies f1 f2 => S (Nat.max (depth f1) (depth f2))
  | IFF _ f1 f2 => S (Nat.max (depth f1) (depth f2))
  | Quant _ _ c => S (depth c)
  end.

(** ** Sentence methods *)

(** [free_variables]: [Function.free_variables] on the content of a
    [Predicate], the union over the content elsewhere
    ([Sentence.free_variables]), less the quantified variable on a
    [Quantifier]. *)
Fixpoint free_variables (s : sentence) : list variable :=
  match s with
  | Predicate _ c => flat_map term_free_variables c
  | Not c => free_variables c
  | ACBO _ l => flat_map free_variables l
  | Implies f1 f2 => free_variables f1 ++ free_variables f2
  | IFF _ f1 f2 => free_variables f1 ++ free_variables f2
  | Quant _ x c => var_discard x (free_variables c)
  end.

(** The argument-wise rewriting of [Predicate.substitute]. *)
Definition substitute_arg (subst : substitution) (cont : term) : term :=
  match cont with
  | Function _ _ => fst (substituted cont subst)
  | Var x => sub_get subst x
  end.

(** [substitute]: [Predicate.substitute], [Quantifier.substitute] with its
    guard, and the rebuilding [Sentence.substitute] of the other classes. *)
Fixpoint substitute (s : sentence) (subst : substitution) : outcome sentence :=
  match s with
  | Predicate n c => Ok (Predicate n (map (substitute_arg subst) c))
  | Not c => c' <- substitute c subst ;; Ok (Not c')
  | ACBO op l =>
      l' <- mapM (fun c => substitute c subst) l ;; Ok (mkACBO op l')
  | Implies f1 f2 =>
      g1 <- substitute f1 subst ;; g2 <- substitute f2 subst ;;
      Ok (Implies g1 g2)
  | IFF _ f1 f2 =>
      g1 <- substitute f1 subst ;; g2 <- substitute f2 subst ;;
      Ok (mkIFF g1 g2)
  | Quant q x c =>
      if sub_mem x subst then Raise ValueError
      else c' <- substitute c subst ;; Ok (Quant q x c')
  end.

(** [Implies.simplified], given the simplified operands. *)
Definition Implies_simplified (s1 s2 : sentence) : sentence :=
  mkACBO OpOr [Not s1; s2].

Arguments Implies_simplified : simpl never.

(** [simplified] *)
Fixpoint simplified (s : sentence) : sentence :=
  match s with
  | Predicate n c => Predicate n c
  | Not c => Not (simplified c)
  | ACBO op l => mkACBO op (map simplified l)
  | Implies f1 f2 => Implies_simplified (simplified f1) (simplified f2)
  | IFF _ f1 f2 =>
      mkACBO OpAnd [Implies_simplified (simplified f1) (simplified f2);
                    Implies_simplified (simplified f2) (simplified f1)]
  | Quant q x c => Quant q x (simplified c)
  end.

(** The [negative] class handed to the shared [negated_inwards] of
    [AssociativeCommutativeBinaryOperator] and of [Quantifier]. *)
Definition negative_op (op : ac_operator) : ac_operator :=
  match op with OpAnd => OpOr | OpOr => OpAnd end.

Definition negative_quantifier (q : quantifier) : quantifier :=
  match q with QForAll => QExists | QExists => QForAll end.

(** [negated_inwards]; [Implies] and [IFF] do not have the method. *)
Fixpoint negated_inwards (s : sentence) (negate : bool) : outcome sentence :=
  match s with
  | Predicate n c =>
      if negate then Ok (Not (Predicate n c)) else Ok (Predicate n c)
  | Not c => negated_inwards c (negb negate)
  | ACBO op l =>
      l' <- mapM (fun cont => negated_inwards cont negate) l ;;
      Ok (mkACBO (if negate then negative_op op else op) l')
  | Quant q x c =>
      c' <- negated_inwards c negate ;;
      Ok (Quant (if negate then negative_quantifier q else q) x c')
  | Implies _ _ | IFF _ _ _ => Raise AttributeError
  end.

(** [skolemised].  The name of a Skolem function is [str(id(self))], the
    address of the [Exists] object at hand; [object_id k] is the one of the
    [k]-th such object met, and the count is threaded through the call. *)
Section Skolemisation.

Variable object_id : nat -> string.

Definition skolem_list (f : sentence -> nat -> outcome (sentence * nat))
  : list sentence -> nat -> outcome (list sentence * nat) :=
  fix go (l : list sentence) (k : nat) : outcome (list sentence * nat) :=
    match l with
    | [] => Ok ([], k)
    | x :: r =>
        y <- f x k ;; ys <- go r (snd y) ;; Ok (fst y :: fst ys, snd ys)
    end.

(** The recursive call of [Exists.skolemised] is on the substituted body,
    not on a part of the sentence, so the model counts a budget down;
    [skolemised] starts with one that is never used up. *)
Fixpoint skolemised_fuel (fuel : nat) (s : sentence) (variables : list variable)
  (k : nat) : outcome (sentence * nat) :=
  match fuel with
  | 0 => Unfinished
  | S fuel' =>
      match s with
      | Predicate n c => Ok (Predicate n c, k)
      | Quant QForAll x c => skolemised_fuel fuel' c (var_add x variables) k
      | Quant QExists x c =>
          let s := [(x, Function (object_id k) (map Var variables))] in
          c' <- substitute c s ;; skolemised_fuel fuel' c' variables (S k)
      | Not c =>
          r <- skolemised_fuel fuel' c variables k ;; Ok (Not (fst r), snd r)
      | ACBO op l =>
          r <- skolem_list (fun c => skolemised_fuel fuel' c variables) l k ;;
          Ok (mkACBO op (fst r), snd r)
      | Implies f1 f2 =>
          r1 <- skolemised_fuel fuel' f1 variables k ;;
          r2 <- skolemised_fuel fuel' f2 variables (snd r1) ;;
          Ok (Implies (fst r1) (fst r2), snd r2)
      | IFF _ f1 f2 =>
          r1 <- skolemised_fuel fuel' f1 variables k ;;
          r2 <- skolemised_fuel fuel' f2 variables (snd r1) ;;
          Ok (mkIFF (fst r1) (fst r2), snd r2)
      end
  end.

Definition skolemised (s : sentence) (variables : list variable) (k : nat)
  : outcome (sentence * nat) :=
  skolemised_fuel (S (depth s)) s variables k.

End Skolemisation.

(** The flattening loop of [AssociativeCommutativeBinaryOperator.cleaned]. *)
Definition flatten (op : ac_operator) (new : list sentence) : list sentence :=
  flat_map (fun cont =>
              match cont with
              | ACBO op' l => if op_eqb op' op then l else [cont]
              | _ => [cont]
              end) new.

Arguments flatten : simpl never.

(** [cleaned].  An [And] or [Or] left with a single operand cleans that
    operand again, a call which is not on a part of the sentence: the model
    counts a budget down, and [cleaned] starts with one that is never used
    up. *)
Fixpoint cleaned_fuel (fuel : nat) (s : sentence) : outcome sentence :=
  match fuel with
  | 0 => Unfinished
  | S fuel' =>
      match s with
      | Predicate n c => Ok (Predicate n c)
      | Not c => c' <- cleaned_fuel fuel' c ;; Ok (Not c')
      | Implies f1 f2 =>
          g1 <- cleaned_fuel fuel' f1 ;; g2 <- cleaned_fuel fuel' f2 ;;
          Ok (Implies g1 g2)
      | IFF _ f1 f2 =>
          g1 <- cleaned_fuel fuel' f1 ;; g2 <- cleaned_fuel fuel' f2 ;;
          Ok (mkIFF g1 g2)
      | Quant q x c =>
          if var_in x (free_variables c)
          then c' <- cleaned_fuel fuel' c ;; Ok (Quant q x c')
          else cleaned_fuel fuel' c
      | ACBO op l =>
          l' <- mapM (cleaned_fuel fuel') l ;;
          match frozenset l' with
          | [only] => cleaned_fuel fuel' only
          | new => Ok (mkACBO op (flatten op new))
          end
      end
  end.

Definition cleaned (s : sentence) : outcome sentence :=
  cleaned_fuel (S (depth s)) s.

(** [distributed]: the recursive [Sentence.distributed], inherited as it is
    by [Predicate], where it asks each argument for its [distributed], and the
    stub of [AssociativeCommutativeBinaryOperator], which requires an
    [otherType] that the recursive call does not pass. *)
Fixpoint distributed (s : sentence) : outcome sentence :=
  match s with
  | Predicate n c =>
      c' <- mapM (fun _ : term => @Raise term AttributeError) c ;;
      Ok (Predicate n c')
  | ACBO _ _ => Raise TypeError
  | Not c => c' <- distributed c ;; Ok (Not c')
  | Implies f1 f2 =>
      g1 <- distributed f1 ;; g2 <- distributed f2 ;; Ok (Implies g1 g2)
  | IFF _ f1 f2 =>
      g1 <- distributed f1 ;; g2 <- distributed f2 ;; Ok (mkIFF g1 g2)
  | Quant q x c => c' <- distributed c ;; Ok (Quant q x c')
  end.

(** [cnf] *)
Definition cnf (object_id : nat -> string) (s : sentence) : outcome sentence :=
  n <- negated_inwards (simplified s) false ;;
  k <- skolemised object_id n [] 0 ;;
  c <- cleaned (fst k) ;;
  distributed c.

(** [Predicate.unify]: the loop body, where two unequal [Function] arguments
    are unified in turn and the result merged in, then the method. *)
Definition Predicate_unify_pair (s : substitution) (selfc otherc : term)
  : option substitution :=
  if negb (term_eqb selfc otherc) then
    match selfc, otherc with
    | Var x, _ => Some (sub_set s x otherc)
    | _, Var y => Some (sub_set s y selfc)
    | Function _ _, Function _ _ =>
        match Function_unify selfc otherc with
        | Some s' => sub_merge s s'
        | None => None
        end
    end
  else Some s.

Definition Predicate_unify (self other : sentence) : option substitution :=
  match self, other with
  | Predicate n c, Predicate n' c' =>
      if String.eqb n n' && Nat.eqb (List.length c) (List.length c')
      then unify_loop Predicate_unify_pair Substitution (combine c c')
      else None
  | _, _ => None
  end.

(** ** Induction over terms and sentences *)

Section term_induction_principle.
Variable P : term -> Prop.
Hypothesis P_Var : forall v, P (Var v).
Hypothesis P_Function : forall n c, Forall P c -> P (Function n c).

Fixpoint term_induction (t : term) : P t :=
  match t with
  | Var v => P_Var v
  | Function n c =>
      P_Function n
        ((fix go (l : list term) : Forall P l :=
            match l with
            | [] => Forall_nil P
            | x :: r => Forall_cons x (term_induction x) (go r)
            end) c)
  end.
End term_induction_principle.

Section sentence_induction_principle.
Variable P : sentence -> Prop.
Hypothesis P_Predicate : forall n c, P (Predicate n c).
Hypothesis P_Not : forall s, P s -> P (Not s).
Hypothesis P_ACBO : forall op l, Forall P l -> P (ACBO op l).
Hypothesis P_Implies : forall f1 f2, P f1 -> P f2 -> P (Implies f1 f2).
Hypothesis P_IFF : forall p f1 f2, P f1 -> P f2 -> P (IFF p f1 f2).
Hypothesis P_Quant : forall q x s, P s -> P (Quant q x s).

Fixpoint sentence_induction (s : sentence) : P s :=
  match s with
  | Predicate n c => P_Predicate n c
  | Not c => P_Not (sentence_induction c)
  | ACBO op l =>
      P_ACBO op
        ((fix go (l : list sentence) : Forall P l :=
            match l with
            | [] => Forall_nil P
            | x :: r => Forall_cons x (sentence_induction x) (go r)
            end) l)
  | Implies f1 f2 => P_Implies (sentence_induction f1) (sentence_induction f2)
  | IFF p f1 f2 => P_IFF p (sentence_induction f1) (sentence_induction f2)
  | Quant q x c => P_Quant q x (sentence_induction c)
  end.
End sentence_induction_principle.

(** ** Shapes of sentences *)

(** No [Implies] and no [IFF] occurs in the sentence. *)
Fixpoint only_basic (s : sentence) : bool :=
  match s with
  | Predicate _ _ => true
  | Not c => only_basic c
  | ACBO _ l => forallb only_basic l
  | Implies _ _ | IFF _ _ _ => false
  | Quant _ _ c => only_basic c
  end.

(** Every [Not] of the sentence directly wraps a [Predicate]. *)
Fixpoint Not_wraps_Predicate (s : sentence) : bool :=
  match s with
  | Predicate _ _ => true
  | Not (Predicate _ _) => true
  | Not _ => false
  | ACBO _ l => forallb Not_wraps_Predicate l
  | Implies f1 f2 => Not_wraps_Predicate f1 && Not_wraps_Predicate f2
  | IFF _ f1 f2 => Not_wraps_Predicate f1 && Not_wraps_Predicate f2
  | Quant _ _ c => Not_wraps_Predicate c
  end.

(** Some quantifier of the sentence has its variable among the keys of the
    substitution. *)
Fixpoint quantifies (s : sentence) (subst : substitution) : bool :=
  match s with
  | Predicate _ _ => false
  | Not c => quantifies c subst
  | ACBO _ l => existsb (fun c => quantifies c subst) l
  | Implies f1 f2 => quantifies f1 subst || quantifies f2 subst
  | IFF _ f1 f2 => quantifies f1 subst || quantifies f2 subst
  | Quant _ x c => sub_mem x subst || quantifies c subst
  end.

(** [t] occurs in [s]: it is [s] itself or it occurs in an element of the
    content of [s]. *)
Inductive occurs_in (t : sentence) : sentence -> Prop :=
| occurs_here : occurs_in t t
| occurs_Not c : occurs_in t c -> occurs_in t (Not c)
| occurs_ACBO op l c : In c l -> occurs_in t c -> occurs_in t (ACBO op l)
| occurs_Implies1 f1 f2 : occurs_in t f1 -> occurs_in t (Implies f1 f2)
| occurs_Implies2 f1 f2 : occurs_in t f2 -> occurs_in t (Implies f1 f2)
| occurs_IFF1 p f1 f2 : occurs_in t f1 -> occurs_in t (IFF p f1 f2)
| occurs_IFF2 p f1 f2 : occurs_in t f2 -> occurs_in t (IFF p f1 f2)
| occurs_Quant q x c : occurs_in t c -> occurs_in t (Quant q x c).

(** No [ForAll] and no [Exists] occurs in the sentence. *)
Fixpoint quantifier_free (s : sentence) : bool :=
  match s with
  | Predicate _ _ => true
  | Not c => quantifier_free c
  | ACBO _ l => forallb quantifier_free l
  | Implies f1 f2 => quantifier_free f1 && quantifier_free f2
  | IFF _ f1 f2 => quantifier_free f1 && quantifier_free f2
  | Quant _ _ _ => false
  end.

(** Negation normal form: no [Implies], no [IFF], and every [Not] on a
    [Predicate]. *)
Definition negation_normal (s : sentence) : bool :=
  only_basic s && Not_wraps_Predicate s.

(** The variables of the quantifiers of the sentence. *)
Fixpoint bound_variables (s : sentence) : list variable :=
  match s with
  | Predicate _ _ => []
  | Not c => bound_variables c
  | ACBO _ l => flat_map bound_variables l
  | Implies f1 f2 => bound_variables f1 ++ bound_variables f2
  | IFF _ f1 f2 => bound_variables f1 ++ bound_variables f2
  | Quant _ x c => x :: bound_variables c
  end.

(** No quantifier in the body of an [Exists] has the variable of that
    [Exists]. *)
Fixpoint no_rebinding (s : sentence) : bool :=
  match s with
  | Predicate _ _ => true
  | Not c => no_rebinding c
  | ACBO _ l => forallb no_rebinding l
  | Implies f1 f2 => no_rebinding f1 && no_rebinding f2
  | IFF _ f1 f2 => no_rebinding f1 && no_rebinding f2
  | Quant QForAll _ c => no_rebinding c
  | Quant QExists x c => negb (var_in x (bound_variables c)) && no_rebinding c
  end.

Local Unset Elimination Schemes.

(** [rebuilt s r]: [r] has the classes and the quantified variables of [s],
    with other arguments in its predicates and possibly fewer operands in its
    frozensets.  It is what a rebuilding method makes of [s]. *)
Inductive rebuilt : sentence -> sentence -> Prop :=
| rebuilt_Predicate n c c' : rebuilt (Predicate n c) (Predicate n c')
| rebuilt_Not s r : rebuilt s r -> rebuilt (Not s) (Not r)
| rebuilt_ACBO op l l' :
    (forall r, In r l' -> exists s, In s l /\ rebuilt s r) ->
    rebuilt (ACBO op l) (ACBO op l')
| rebuilt_Implies f1 f2 g1 g2 :
    rebuilt f1 g1 -> rebuilt f2 g2 -> rebuilt (Implies f1 f2) (Implies g1 g2)
| rebuilt_IFF p p' f1 f2 g1 g2 :
    rebuilt f1 g1 -> rebuilt f2 g2 -> rebuilt (IFF p f1 f2) (IFF p' g1 g2)
| rebuilt_Quant q x s r : rebuilt s r -> rebuilt (Quant q x s) (Quant q x r).

Set Elimination Schemes.

(** The sentence is an [And], or is an [Or], as [op] says. *)
Definition is_ACBO (op : ac_operator) (s : sentence) : bool :=
  match s with
  | ACBO op' _ => op_eqb op' op
  | _ => false
  end.

(** What [cleaned] leaves behind: the variable of every quantifier is free
    in its body, and every [And] and [Or] holds at least two operands, none of
    its own class. *)
Fixpoint is_clean (s : sentence) : bool :=
  match s with
  | Predicate _ _ => true
  | Not c => is_clean c
  | ACBO op l =>
      Nat.leb 2 (List.length l)
      && forallb (fun c => negb (is_ACBO op c)) l
      && forallb is_clean l
  | Implies f1 f2 => is_clean f1 && is_clean f2
  | IFF _ f1 f2 => is_clean f1 && is_clean f2
  | Quant _ x c => var_in x (free_variables c) && is_clean c
  end.

(** ** Sample objects *)

Definition var_x : variable := Variable_ 0 "x".
Definition var_y : variable := Variable_ 1 "y".

Definition negated_inwards_sample : sentence :=
  Not (And [Predicate "P" [Var var_x]; Not (Predicate "Q" [])]).


Definition fn_a : term := Function "a" [].
Definition fn_b : term := Function "b" [].

Definition P_x : sentence := Predicate "P" [Var var_x].
Definition nullary (n : string) : sentence := Predicate n [].

(** [P(x, y)] against [P(y, x)], and the same arguments under a function
    symbol. *)
Definition P_x_y : sentence := Predicate "P" [Var var_x; Var var_y].
Definition P_y_x : sentence := Predicate "P" [Var var_y; Var var_x].
Definition f_x_y : term := Function "f" [Var var_x; Var var_y].
Definition f_y_x : term := Function "f" [Var var_y; Var var_x].

(** [P(x, x)] against [P(a, b)]. *)
Definition P_x_x : sentence := Predicate "P" [Var var_x; Var var_x].
Definition P_a_b : sentence := Predicate "P" [fn_a; fn_b].

(** [Or(P, And(Q, R))] *)
Definition Or_over_And : sentence :=
  mkACBO OpOr [nullary "P"; mkACBO OpAnd [nullary "Q"; nullary "R"]].

(** An address for each [Exists] object met by [skolemised]. *)
Fixpoint sample_object_id (k : nat) : string :=
  match k with
  | 0 => "140"
  | S k' => append "1" (sample_object_id k')
  end.

(** [Exists(x, Exists(x, P(x)))] and [ForAll(x, Exists(y, P(x)))] *)
Definition Exists_x_Exists_x : sentence := Exists var_x (Exists var_x P_x).
Definition ForAll_x_Exists_y : sentence := ForAll var_x (Exists var_y P_x_y).

(** [And(ForAll(x, And(P, Q)), Or(R), ForAll(y, P(y)))], with [x] not free
    in the body of its quantifier. *)
Definition cleaned_sample : sentence :=
  mkACBO OpAnd
    [ForAll var_x (mkACBO OpAnd [nullary "P"; nullary "Q"]);
     mkACBO OpOr [nullary "R"];
     ForAll var_y (Predicate "P" [Var var_y])].

(** [Implies(P, Q)] and [And(P, Q)] *)
Definition P_implies_Q : sentence := Implies (nullary "P") (nullary "Q").
Definition P_and_Q : sentence := mkACBO OpAnd [nullary "P"; nullary "Q"].

(** Two [Variable] objects with the same name. *)
Definition var_x' : variable := Variable_ 7 "x".


(** ** Further methods *)

(** [copy()] called without content: the class of the object is called on
    its name, when it has one, and on its content. *)
Definition copy (self : sentence) : sentence :=
  match self with
  | Predicate n c => Predicate n c
  | Not c => Not c
  | ACBO op l => mkACBO op l
  | Implies f1 f2 => Implies f1 f2
  | IFF _ f1 f2 => mkIFF f1 f2
  | Quant q x c => Quant q x c
  end.

(** What [something in self] can be asked about: an argument (a [Variable]
    or a [Function]) or a sentence. *)
Inductive object : Type :=
| Argument (t : term)
| Sentence (s : sentence).

(** [self == something], for an argument and for a sentence: objects of two
    different classes are never equal. *)
Definition term_is (t : term) (something : object) : bool :=
  match something with
  | Argument u => term_eqb t u
  | Sentence _ => false
  end.

Definition sentence_is (s : sentence) (something : object) : bool :=
  match something with
  | Argument _ => false
  | Sentence t => sentence_eqb s t
  end.

(** [RecursiveObject.__contains__] on a [Function]; on a [Variable] of a
    content it is the comparison [something == cont] of the loop. *)
Fixpoint Function_contains (cont : term) (something : object) : bool :=
  match cont with
  | Var _ => term_is cont something
  | Function _ c =>
      term_is cont something
      || existsb (fun x => Function_contains x something) c
  end.

(** [RecursiveObject.__contains__] on a sentence.  The content of a
    quantifier is its body alone: its variable is not part of it. *)
Fixpoint contains (self : sentence) (something : object) : bool :=
  sentence_is self something
  || match self with
     | Predicate _ c => existsb (fun cont => Function_contains cont something) c
     | Not c => contains c something
     | ACBO _ l => existsb (fun cont => contains cont something) l
     | Implies f1 f2 => contains f1 something || contains f2 something
     | IFF _ f1 f2 => contains f1 something || contains f2 something
     | Quant _ _ c => contains c something
     end.

(** [unify] called on a sentence: [Predicate.unify], [Not.unify], which
    hands the call to its content when the other sentence is a [Not] too and
    returns [None] otherwise; the other classes have no such method. *)
Fixpoint unify (self other : sentence) : outcome (option substitution) :=
  match self with
  | Predicate _ _ => Ok (Predicate_unify self other)
  | Not c =>
      match other with
      | Not c' => unify c c'
      | _ => Ok None
      end
  | _ => Raise AttributeError
  end.

(** ** Further shapes *)

(** The variables among the arguments of the predicates of a sentence, at
    any depth, under a quantifier or not. *)
Fixpoint all_variables (s : sentence) : list variable :=
  match s with
  | Predicate _ c => flat_map term_free_variables c
  | Not c => all_variables c
  | ACBO _ l => flat_map all_variables l
  | Implies f1 f2 => all_variables f1 ++ all_variables f2
  | IFF _ f1 f2 => all_variables f1 ++ all_variables f2
  | Quant _ _ c => all_variables c
  end.

(** A term without variables. *)
Definition ground (t : term) : bool :=
  match term_free_variables t with
  | [] => true
  | _ :: _ => false
  end.

Definition is_Function (t : term) : bool :=
  match t with
  | Var _ => false
  | Function _ _ => true
  end.

(** Two unequal [Function] arguments: what ends [Function.unify]. *)
Definition clash (pair : term * term) : bool :=
  negb (term_eqb (fst pair) (snd pair))
  && is_Function (fst pair) && is_Function (snd pair).

(** The variables that are themselves elements of a content. *)
Definition direct_variables (c : list term) : list variable :=
  flat_map (fun t => match t with Var x => [x] | Function _ _ => [] end) c.

(** No variable object twice in the list. *)
Fixpoint distinct_variables (l : list variable) : bool :=
  match l with
  | [] => true
  | x :: r => negb (var_in x r) && distinct_variables r
  end.

(** A content made of variables, each once, and of terms without
    variables. *)
Definition linear_pattern (c : list term) : bool :=
  forallb (fun t => negb (is_Function t) || ground t) c
  && distinct_variables (direct_variables c).

(** No [And], no [Or], and no argument in any [Predicate]. *)
Fixpoint plain (s : sentence) : bool :=
  match s with
  | Predicate _ c => match c with [] => true | _ :: _ => false end
  | Not c => plain c
  | ACBO _ _ => false
  | Implies f1 f2 => plain f1 && plain f2
  | IFF _ f1 f2 => plain f1 && plain f2
  | Quant _ _ c => plain c
  end.

(** [k] times [Not] around a sentence. *)
Fixpoint Nots (k : nat) (s : sentence) : sentence :=
  match k with
  | 0 => s
  | S k' => Not (Nots k' s)
  end.

(** The keys of a substitution hold no variable of the list. *)
Definition no_key (subst : substitution) (l : list variable) : bool :=
  negb (existsb (fun x => sub_mem x subst) l).

(** ** Further sample objects *)

(** [ForAll(x, P(x, y))] *)
Definition ForAll_x_P_x_y : sentence := ForAll var_x P_x_y.

(** [Not(Not(P(x, y)))] and [And(Not(P(x, y)), Q)] *)
Definition Not_Not_P_x_y : sentence := Not (Not P_x_y).
Definition And_Not_P_x_y_Q : sentence :=
  mkACBO OpAnd [Not P_x_y; nullary "Q"].

(** [P(x, a)] against [P(b, a)], and [P(x, f(a), y)] against
    [P(a, f(a), b)]. *)
Definition P_x_a : sentence := Predicate "P" [Var var_x; fn_a].
Definition P_b_a : sentence := Predicate "P" [fn_b; fn_a].
Definition f_a : term := Function "f" [fn_a].
Definition P_x_fa_y : sentence := Predicate "P" [Var var_x; f_a; Var var_y].
Definition P_a_fa_b : sentence := Predicate "P" [fn_a; f_a; fn_b].
Definition f_x_a : term := Function "f" [Var var_x; fn_a].
Definition f_b_a : term := Function "f" [fn_b; fn_a].

(** [Not(Not(P))] *)
Definition Not_Not_P : sentence := Not (Not (nullary "P")).

(** ** What a sentence says *)

From Stdlib Require Import Classical_Prop.

(** The reading of the classes that their names and their [CONNECTIVE] and
    [SYMBOL] strings announce, in a domain [D] with a value for every
    function symbol and a relation for every predicate symbol.  An assignment
    gives a value to each [Variable] object, by its identity. *)
Section Interpretation.

Variable D : Type.
Variable function_value : string -> list D -> D.
Variable predicate_holds : string -> list D -> Prop.

Definition assign (rho : nat -> D) (x : variable) (d : D) : nat -> D :=
  fun i => if Nat.eqb i (var_id x) then d else rho i.

Fixpoint term_value (rho : nat -> D) (t : term) : D :=
  match t with
  | Var v => rho (var_id v)
  | Function n c => function_value n (map (term_value rho) c)
  end.

Fixpoint holds (rho : nat -> D) (s : sentence) : Prop :=
  match s with
  | Predicate n c => predicate_holds n (map (term_value rho) c)
  | Not c => ~ holds rho c
  | ACBO OpAnd l =>
      (fix all (l : list sentence) : Prop :=
         match l with
         | [] => True
         | c :: r => holds rho c /\ all r
         end) l
  | ACBO OpOr l =>
      (fix any (l : list sentence) : Prop :=
         match l with
         | [] => False
         | c :: r => holds rho c \/ any r
         end) l
  | Implies f1 f2 => holds rho f1 -> holds rho f2
  | IFF _ f1 f2 => holds rho f1 <-> holds rho f2
  | Quant QForAll x c => forall d, holds (assign rho x d) c
  | Quant QExists x c => exists d, holds (assign rho x d) c
  end.

End Interpretation.

Arguments assign {D} rho x d i.
Arguments term_value {D} function_value rho t.
Arguments holds {D} function_value predicate_holds rho s.

(** A small interpretation: two values, every function symbol read as
    [true], and [P] the one predicate that holds, of its first argument. *)
Definition sample_function_value (n : string) (args : list bool) : bool := true.

Definition sample_predicate_holds (n : string) (args : list bool) : Prop :=
  n = "P" /\ hd false args = true.

Definition sample_assignment (i : nat) : bool := Nat.eqb i 0.
(** * Properties *)

(** ** Equality is an equivalence *)

Lemma var_is_refl x : var_is x x = true.
Proof. apply Nat.eqb_refl. Qed.

Lemma var_is_sym x y : var_is x y = var_is y x.
Proof. apply Nat.eqb_sym. Qed.

Lemma var_is_trans x y z :
  var_is x y = true -> var_is y z = true -> var_is x z = true.
Proof.
  unfold var_is. rewrite !Nat.eqb_eq. congruence.
Qed.

Lemma var_is_true x y : var_is x y = true <-> var_id x = var_id y.
Proof. apply Nat.eqb_eq. Qed.

Lemma op_eqb_true o o' : op_eqb o o' = true <-> o = o'.
Proof. destruct o, o'; simpl; split; congruence. Qed.

Lemma quantifier_eqb_true q q' : quantifier_eqb q q' = true <-> q = q'.
Proof. destruct q, q'; simpl; split; congruence. Qed.

Section tuples.
Variable A : Type.
Variable eqb : A -> A -> bool.

Lemma tuple_eqb_refl l :
  Forall (fun x => eqb x x = true) l -> tuple_eqb eqb l l = true.
Proof.
  induction 1 as [|x r Hx _ IH]; simpl; [reflexivity|].
  now rewrite Hx, IH.
Qed.

Lemma tuple_eqb_sym l :
  Forall (fun x => forall y, eqb x y = eqb y x) l ->
  forall l', tuple_eqb eqb l l' = tuple_eqb eqb l' l.
Proof.
  induction 1 as [|x r Hx _ IH]; intros [|y r']; simpl; try reflexivity.
  now rewrite Hx, IH.
Qed.

Lemma tuple_eqb_trans l :
  Forall (fun x => forall y z,
              eqb x y = true -> eqb y z = true -> eqb x z = true) l ->
  forall l' l'', tuple_eqb eqb l l' = true -> tuple_eqb eqb l' l'' = true ->
                 tuple_eqb eqb l l'' = true.
Proof.
  induction 1 as [|x r Hx _ IH]; intros [|y r'] [|z r'']; simpl;
    try congruence.
  rewrite !andb_true_iff. intros [H1 H2] [H3 H4]. split.
  - eapply Hx; eassumption.
  - eapply IH; eassumption.
Qed.
End tuples.

Lemma term_eqb_refl t : term_eqb t t = true.
Proof.
  induction t as [v|n c IH] using term_induction; simpl.
  - apply var_is_refl.
  - now rewrite tuple_eqb_refl, String.eqb_refl.
Qed.

Lemma term_eqb_sym t : forall u, term_eqb t u = term_eqb u t.
Proof.
  induction t as [v|n c IH] using term_induction; intros [w|m d]; simpl; try reflexivity.
  - apply var_is_sym.
  - now rewrite (tuple_eqb_sym _ IH), String.eqb_sym.
Qed.

Lemma term_eqb_trans t : forall u w,
  term_eqb t u = true -> term_eqb u w = true -> term_eqb t w = true.
Proof.
  induction t as [v|n c IH] using term_induction; intros [v1|n1 c1] [v2|n2 c2]; simpl;
    try congruence.
  - apply var_is_trans.
  - rewrite !andb_true_iff, !String.eqb_eq. intros [H1 ->] [H2 ->]. split.
    + eapply tuple_eqb_trans; eassumption.
    + reflexivity.
Qed.

(** The frozenset comparison inside [sentence_eqb], read as mutual
    inclusion. *)
Lemma ACBO_eqb_true o l o' l' :
  sentence_eqb (ACBO o l) (ACBO o' l') = true <->
  o = o'
  /\ (forall x, In x l -> exists y, In y l' /\ sentence_eqb x y = true)
  /\ (forall y, In y l' -> exists x, In x l /\ sentence_eqb x y = true).
Proof.
  simpl. rewrite !andb_true_iff, op_eqb_true, !forallb_forall.
  setoid_rewrite existsb_exists. tauto.
Qed.

Lemma sentence_eqb_refl s : sentence_eqb s s = true.
Proof.
  induction s as [n c|s IH|op l IH|f1 f2 IH1 IH2|p f1 f2 IH1 IH2|q x s IH]
    using sentence_induction.
  - simpl. rewrite String.eqb_refl, tuple_eqb_refl; [reflexivity|].
    apply Forall_forall. intros t _. apply term_eqb_refl.
  - exact IH.
  - rewrite Forall_forall in IH. apply ACBO_eqb_true.
    split; [reflexivity|]. split; intros x Hx; exists x; auto.
  - simpl. now rewrite IH1, IH2.
  - simpl. rewrite IH1, IH2, eqb_reflx. destruct p; simpl;
      now rewrite ?orb_true_r.
  - simpl. rewrite IH, var_is_refl. now destruct q.
Qed.

Lemma sentence_eqb_sym a : forall b, sentence_eqb a b = sentence_eqb b a.
Proof.
  induction a as [n c|s IH|op l IH|f1 f2 IH1 IH2|p f1 f2 IH1 IH2|q x s IH]
    using sentence_induction;
    intros [n' c'|s'|op' l'|g1 g2|p' g1 g2|q' x' s']; try reflexivity.
  - simpl. rewrite String.eqb_sym. f_equal. apply tuple_eqb_sym.
    apply Forall_forall. intros t _. apply term_eqb_sym.
  - simpl. apply IH.
  - rewrite Forall_forall in IH. apply eq_iff_eq_true.
    rewrite !ACBO_eqb_true.
    split; intros (Ho & H1 & H2); (split; [now symmetry|]); split.
    + intros y Hy. destruct (H2 y Hy) as (x & Hx & E). exists x.
      split; [assumption|]. now rewrite <- IH.
    + intros x Hx. destruct (H1 x Hx) as (y & Hy & E). exists y.
      split; [assumption|]. now rewrite <- IH.
    + intros x Hx. destruct (H2 x Hx) as (y & Hy & E). exists y.
      split; [assumption|]. now rewrite IH.
    + intros y Hy. destruct (H1 y Hy) as (x & Hx & E). exists x.
      split; [assumption|]. now rewrite IH.
  - simpl. now rewrite IH1, IH2.
  - simpl. rewrite <- (IH1 g1), <- (IH1 g2), <- (IH2 g1), <- (IH2 g2).
    destruct p, p'; simpl; try reflexivity.
    destruct (sentence_eqb f1 g1), (sentence_eqb f1 g2),
      (sentence_eqb f2 g1), (sentence_eqb f2 g2); reflexivity.
  - simpl. rewrite IH, var_is_sym. now destruct q, q'.
Qed.

Ltac chain_eqb :=
  repeat match goal with
    | IH : forall y z, sentence_eqb ?f y = true -> _,
      H1 : sentence_eqb ?f ?g = true,
      H2 : sentence_eqb ?g ?h = true |- _ =>
        rewrite (IH g h H1 H2)
    end.

Lemma sentence_eqb_trans a : forall b c,
  sentence_eqb a b = true -> sentence_eqb b c = true ->
  sentence_eqb a c = true.
Proof.
  induction a as [n c|s IH|op l IH|f1 f2 IH1 IH2|p f1 f2 IH1 IH2|q x s IH]
    using sentence_induction;
    intros [n' c'|s'|op' l'|g1 g2|p' g1 g2|q' x' s']
           [n'' c''|s''|op'' l''|h1 h2|p'' h1 h2|q'' x'' s''];
    try (simpl; congruence).
  - simpl. rewrite !andb_true_iff, !String.eqb_eq. intros [H1 ->] [H2 ->].
    split; [|reflexivity]. revert H1 H2. apply tuple_eqb_trans.
    apply Forall_forall. intros t _. apply term_eqb_trans.
  - simpl. apply IH.
  - rewrite Forall_forall in IH. rewrite !ACBO_eqb_true.
    intros (-> & H1 & H2) (-> & H3 & H4). split; [reflexivity|]. split.
    + intros x Hx. destruct (H1 x Hx) as (y & Hy & E).
      destruct (H3 y Hy) as (z & Hz & E'). exists z. split; [assumption|].
      eapply IH; eassumption.
    + intros z Hz. destruct (H4 z Hz) as (y & Hy & E').
      destruct (H2 y Hy) as (x & Hx & E). exists x. split; [assumption|].
      eapply IH; eassumption.
  - simpl. rewrite !andb_true_iff. intros [H1 H2] [H3 H4]. split.
    + eapply IH1; eassumption.
    + eapply IH2; eassumption.
  - simpl. destruct p, p', p''; simpl; try congruence.
    + rewrite !andb_true_iff. intros [H1 H2] [H3 H4]. split.
      * eapply IH1; eassumption.
      * eapply IH2; eassumption.
    + destruct (sentence_eqb f1 g1) eqn:A11, (sentence_eqb f1 g2) eqn:A12,
        (sentence_eqb f2 g1) eqn:A21, (sentence_eqb f2 g2) eqn:A22;
        simpl; try congruence; intros _;
        destruct (sentence_eqb g1 h1) eqn:B11, (sentence_eqb g1 h2) eqn:B12,
          (sentence_eqb g2 h1) eqn:B21, (sentence_eqb g2 h2) eqn:B22;
        simpl; try congruence; intros _; chain_eqb;
        simpl; rewrite ?orb_true_r; reflexivity.
  - simpl. rewrite !andb_true_iff, !quantifier_eqb_true.
    intros [[-> H1] H2] [[-> H3] H4]. repeat split.
    + eapply IH; eassumption.
    + eapply var_is_trans; eassumption.
Qed.

(** ** Frozensets and generator expressions *)

Lemma frozenset_In x l : In x (frozenset l) -> In x l.
Proof.
  induction l as [|y r IH]; simpl; [tauto|].
  intros [H|H]; [now left|]. apply filter_In in H. right. tauto.
Qed.

Lemma frozenset_forallb (P : sentence -> bool) l :
  forallb P l = true -> forallb P (frozenset l) = true.
Proof.
  rewrite !forallb_forall. intros H x Hx. apply H. now apply frozenset_In.
Qed.

(** A generator expression all of whose elements evaluate does so itself,
    and what holds of each result holds of all. *)
Lemma mapM_Ok (A B : Type) (f : A -> outcome B) (Q : B -> Prop) l :
  Forall (fun x => exists y, f x = Ok y /\ Q y) l ->
  exists ys, mapM f l = Ok ys /\ Forall Q ys
             /\ List.length ys = List.length l.
Proof.
  induction 1 as [|x r (y & Hy & Qy) _ (ys & Hys & Qys & Hlen)]; simpl.
  - exists []. repeat split. constructor.
  - exists (y :: ys). rewrite Hy, Hys. simpl. repeat split.
    + now constructor.
    + now rewrite Hlen.
Qed.

(** What holds of the results when it evaluated. *)
Lemma mapM_Forall (A B : Type) (f : A -> outcome B) (Q : B -> Prop) l :
  Forall (fun x => forall y, f x = Ok y -> Q y) l ->
  forall ys, mapM f l = Ok ys -> Forall Q ys.
Proof.
  induction 1 as [|x r Hx _ IH]; simpl; intros ys.
  - intros [= <-]. constructor.
  - destruct (f x) as [y| |] eqn:E; simpl; try discriminate.
    destruct (mapM f r) as [zs| |]; simpl; try discriminate.
    intros [= <-]. constructor; auto.
Qed.

(** It raises [e] as soon as an element does, when that is the only way an
    element can fail. *)
Lemma mapM_Raise (A B : Type) (f : A -> outcome B) e l :
  Forall (fun x => (exists y, f x = Ok y) \/ f x = Raise e) l ->
  List.Exists (fun x => f x = Raise e) l ->
  mapM f l = Raise e.
Proof.
  induction 1 as [|x r Hx Hr IH]; intros Hex; inversion Hex; subst; simpl.
  - now rewrite H0.
  - destruct Hx as [(y & ->)| ->]; simpl; [|reflexivity].
    now rewrite IH.
Qed.

(** ** Simplification *)

Lemma mkACBO_only_basic op l :
  forallb only_basic l = true -> only_basic (mkACBO op l) = true.
Proof. apply frozenset_forallb. Qed.

Lemma Implies_simplified_only_basic s1 s2 :
  only_basic s1 = true -> only_basic s2 = true ->
  only_basic (Implies_simplified s1 s2) = true.
Proof.
  intros H1 H2. apply mkACBO_only_basic. simpl. now rewrite H1, H2.
Qed.

Lemma simplified_no_Implies_IFF s : only_basic (simplified s) = true.
Proof.
  induction s as [n c|s IH|op l IH|f1 f2 IH1 IH2|p f1 f2 IH1 IH2|q x s IH]
    using sentence_induction; cbn; try assumption; try reflexivity.
  - apply frozenset_forallb, forallb_forall. intros x Hx.
    apply in_map_iff in Hx. destruct Hx as (y & <- & Hy).
    rewrite Forall_forall in IH. now apply IH.
  - now apply Implies_simplified_only_basic.
  - apply mkACBO_only_basic. cbn.
    now rewrite !Implies_simplified_only_basic.
Qed.

(** C2: whatever the sentence, [simplified] returns a sentence in which
    neither an [Implies] nor an [IFF] occurs; only [And], [Or], [Not], the
    quantifiers and [Predicate] remain. *)
Theorem simplified_removes_Implies_IFF s : only_basic (simplified s) = true.
Proof. apply simplified_no_Implies_IFF. Qed.

(** ** Negation pushed inwards *)

(** On a sentence without [Implies] and [IFF], [negated_inwards] returns, and
    returns a sentence of the same kind whose every [Not] is on a
    [Predicate]. *)
Lemma negated_inwards_outcome s :
  only_basic s = true ->
  forall negate, exists r,
    negated_inwards s negate = Ok r /\ Not_wraps_Predicate r = true.
Proof.
  induction s as [n c|s IH|op l IH|f1 f2 IH1 IH2|p f1 f2 IH1 IH2|q x s IH]
    using sentence_induction; simpl; intros Hs negate; try discriminate.
  - destruct negate; eexists; split; reflexivity.
  - now apply IH.
  - rewrite forallb_forall in Hs.
    destruct (@mapM_Ok _ _ (fun cont => negated_inwards cont negate)
                (fun r => Not_wraps_Predicate r = true) l)
      as (ys & -> & Hys & _).
    { rewrite Forall_forall in *. intros c Hc. apply IH; auto. }
    simpl. eexists. split; [reflexivity|]. simpl.
    apply frozenset_forallb, forallb_forall. now apply Forall_forall.
  - destruct (IH Hs negate) as (r & -> & Hr). simpl.
    eexists. split; [reflexivity|]. exact Hr.
Qed.

(** C3: on a sentence that is already simplified (no [Implies], no [IFF]),
    [negated_inwards] returns, whatever its flag and so for the default
    [False] too, a sentence in which every [Not] directly wraps a
    [Predicate]. *)
Theorem negated_inwards_Not_wraps_Predicate s :
  only_basic s = true ->
  forall negate, exists r,
    negated_inwards s negate = Ok r /\ Not_wraps_Predicate r = true.
Proof. apply negated_inwards_outcome. Qed.

Lemma negated_inwards_Not_wraps_Predicate_witness :
  exists r, negated_inwards negated_inwards_sample false = Ok r
            /\ Not_wraps_Predicate r = true.
Proof.
  apply (@negated_inwards_Not_wraps_Predicate negated_inwards_sample).
  reflexivity.
Defined.

(** ** Substitution through quantifiers *)

(** [substitute] raises [ValueError] exactly on the sentences one of whose
    quantifiers has its variable among the keys, and returns otherwise. *)
Lemma substitute_outcome subst s :
  if quantifies s subst
  then substitute s subst = Raise ValueError
  else exists r, substitute s subst = Ok r.
Proof.
  induction s as [n c|s IH|op l IH|f1 f2 IH1 IH2|p f1 f2 IH1 IH2|q x s IH]
    using sentence_induction; cbn.
  - eexists. reflexivity.
  - destruct (quantifies s subst).
    + now rewrite IH.
    + destruct IH as (r & ->). cbn. eexists. reflexivity.
  - destruct (existsb (fun c => quantifies c subst) l) eqn:E.
    + rewrite (@mapM_Raise _ _ (fun c => substitute c subst) ValueError);
        [reflexivity| |].
      * rewrite Forall_forall in *. intros c Hc. specialize (IH c Hc).
        destruct (quantifies c subst); [now right|now left].
      * apply existsb_exists in E. destruct E as (c & Hc & Hq).
        apply Exists_exists. exists c. split; [assumption|].
        rewrite Forall_forall in IH. specialize (IH c Hc).
        now rewrite Hq in IH.
    + destruct (@mapM_Ok _ _ (fun c => substitute c subst) (fun _ => True) l)
        as (ys & -> & _).
      * rewrite Forall_forall in *. intros c Hc. specialize (IH c Hc).
        destruct (quantifies c subst) eqn:Hq.
        -- exfalso. assert (existsb (fun c => quantifies c subst) l = true)
             by (apply existsb_exists; eauto). congruence.
        -- destruct IH as (r & ->). eauto.
      * cbn. eexists. reflexivity.
  - destruct (quantifies f1 subst); cbn.
    + now rewrite IH1.
    + destruct IH1 as (r1 & ->). cbn. destruct (quantifies f2 subst).
      * now rewrite IH2.
      * destruct IH2 as (r2 & ->). cbn. eexists. reflexivity.
  - destruct (quantifies f1 subst); cbn.
    + now rewrite IH1.
    + destruct IH1 as (r1 & ->). cbn. destruct (quantifies f2 subst).
      * now rewrite IH2.
      * destruct IH2 as (r2 & ->). cbn. eexists. reflexivity.
  - destruct (sub_mem x subst); cbn; [reflexivity|].
    destruct (quantifies s subst).
    + now rewrite IH.
    + destruct IH as (r & ->). cbn. eexists. reflexivity.
Qed.

Lemma occurs_in_quantifies subst q x c s :
  sub_mem x subst = true -> occurs_in (Quant q x c) s ->
  quantifies s subst = true.
Proof.
  intros Hx. induction 1; cbn.
  - now rewrite Hx.
  - assumption.
  - apply existsb_exists. eauto.
  - now rewrite IHoccurs_in.
  - rewrite IHoccurs_in. apply orb_true_r.
  - now rewrite IHoccurs_in.
  - rewrite IHoccurs_in. apply orb_true_r.
  - rewrite IHoccurs_in. apply orb_true_r.
Qed.

(** C7: when the variable of a quantifier is a key of the substitution,
    [substitute] raises [ValueError] (the capture error) whatever the body,
    so before anything is substituted, and so does [substitute] on every
    sentence in which the quantifier occurs: the error reaches the caller.
    When the variable is not a key, the substitution goes into the body and
    the quantifier is rebuilt around the result. *)
Theorem Quantifier_substitute_guard q x c subst :
  (sub_mem x subst = true ->
   substitute (Quant q x c) subst = Raise ValueError
   /\ forall s, occurs_in (Quant q x c) s ->
                substitute s subst = Raise ValueError)
  /\ (sub_mem x subst = false ->
      substitute (Quant q x c) subst
      = (c' <- substitute c subst ;; Ok (Quant q x c'))).
Proof.
  split; intros Hx.
  - split; [cbn; now rewrite Hx|].
    intros s Hs. pose proof (substitute_outcome subst s) as H.
    now rewrite (occurs_in_quantifies _ Hx Hs) in H.
  - cbn. now rewrite Hx.
Qed.

Lemma Quantifier_substitute_guard_witness :
  substitute (Not (ForAll var_x P_x)) [(var_x, fn_a)] = Raise ValueError
  /\ substitute (ForAll var_y P_x) [(var_x, fn_a)]
     = Ok (ForAll var_y (Predicate "P" [fn_a])).
Proof.
  split.
  - apply (proj1 (Quantifier_substitute_guard QForAll var_x P_x
                    [(var_x, fn_a)])).
    + reflexivity.
    + apply occurs_Not, occurs_here.
  - rewrite (proj2 (Quantifier_substitute_guard QForAll var_y P_x
                      [(var_x, fn_a)])); reflexivity.
Defined.

(** ** Distribution *)

(** C5: [distributed] does not return on a sentence with an [Or] over an
    [And]: the call made by the recursive [Sentence.distributed] and by [cnf]
    passes no [otherType] to the method of [And] and [Or], which raises
    [TypeError]; this is so on every [And] and every [Or]. *)
Theorem distributed_raises_TypeError :
  distributed Or_over_And = Raise TypeError
  /\ forall op l, distributed (ACBO op l) = Raise TypeError.
Proof. split; reflexivity. Qed.

(** ** Unification *)

(** C1: [unify] can return a substitution that does not make the two sides
    equal.  [P(x, y).unify(P(y, x))] returns the bindings of [x] to [y] and
    of [y] to [x], under which the sides become [P(y, x)] and [P(x, y)];
    [Function.unify] does the same on [f(x, y)] and [f(y, x)]; and
    [P(x, x).unify(P(a, b))] returns the binding of [x] to [b], under which
    the sides become [P(b, b)] and [P(a, b)]. *)
Theorem unify_returns_non_unifier :
  Predicate_unify P_x_y P_y_x = Some [(var_x, Var var_y); (var_y, Var var_x)]
  /\ substitute P_x_y [(var_x, Var var_y); (var_y, Var var_x)] = Ok P_y_x
  /\ substitute P_y_x [(var_x, Var var_y); (var_y, Var var_x)] = Ok P_x_y
  /\ sentence_eqb P_y_x P_x_y = false
  /\ Function_unify f_x_y f_y_x = Some [(var_x, Var var_y); (var_y, Var var_x)]
  /\ fst (substituted f_x_y [(var_x, Var var_y); (var_y, Var var_x)]) = f_y_x
  /\ fst (substituted f_y_x [(var_x, Var var_y); (var_y, Var var_x)]) = f_x_y
  /\ term_eqb f_y_x f_x_y = false
  /\ Predicate_unify P_x_x P_a_b = Some [(var_x, fn_b)]
  /\ substitute P_x_x [(var_x, fn_b)] = Ok (Predicate "P" [fn_b; fn_b])
  /\ substitute P_a_b [(var_x, fn_b)] = Ok P_a_b
  /\ sentence_eqb (Predicate "P" [fn_b; fn_b]) P_a_b = false.
Proof. repeat split. Qed.

(** ** The operands of an [IFF] *)

Lemma mkIFF_pair a b : mkIFF a b = IFF (sentence_eqb a b) a b.
Proof.
  unfold mkIFF. cbn. now destruct (sentence_eqb a b).
Qed.

(** C9, as the code has it: [IFF(A, B)] always holds two operands, and
    [IFF(A, B) == IFF(B, A)]; they are held in a frozenset when they differ,
    and in the tuple [(A, B)], not in a one-element collection, when they
    are equal. *)
Theorem IFF_content a b :
  len (content (mkIFF a b)) = 2
  /\ sentence_eqb (mkIFF a b) (mkIFF b a) = true
  /\ (sentence_eqb a b = true -> content (mkIFF a b) = Tuple [a; b])
  /\ (sentence_eqb a b = false -> content (mkIFF a b) = FrozenSet [a; b]).
Proof.
  rewrite !mkIFF_pair. rewrite (sentence_eqb_sym b a).
  destruct (sentence_eqb a b) eqn:E; cbn.
  - rewrite E, (sentence_eqb_sym b a), E. repeat split; congruence.
  - rewrite !sentence_eqb_refl, ?orb_true_r. repeat split; congruence.
Qed.

Lemma IFF_content_witness :
  content (mkIFF (nullary "P") (nullary "P"))
  = Tuple [nullary "P"; nullary "P"]
  /\ content (mkIFF (nullary "P") (nullary "Q"))
     = FrozenSet [nullary "P"; nullary "Q"].
Proof.
  split.
  - apply (proj1 (proj2 (proj2 (IFF_content (nullary "P") (nullary "P"))))).
    reflexivity.
  - apply (proj2 (proj2 (proj2 (IFF_content (nullary "P") (nullary "Q"))))).
    reflexivity.
Defined.

(** C9 as stated fails: with two identical operands the operand collection
    of the [IFF] holds two elements, not one. *)
Lemma IFF_identical_operands_not_singleton :
  sentence_eqb (nullary "P") (nullary "P") = true
  /\ len (content (mkIFF (nullary "P") (nullary "P"))) <> 1.
Proof. split; [reflexivity|]. cbv. discriminate. Qed.

(** ** Rebuilding methods *)

Lemma rebuilt_mkACBO op l l' :
  (forall r, In r l' -> exists s, In s l /\ rebuilt s r) ->
  rebuilt (ACBO op l) (mkACBO op l').
Proof.
  intros H. constructor. intros r Hr. apply H. now apply frozenset_In.
Qed.

Lemma mapM_In (A B : Type) (f : A -> outcome B) l :
  forall ys, mapM f l = Ok ys ->
  forall y, In y ys -> exists x, In x l /\ f x = Ok y.
Proof.
  induction l as [|x r IH]; cbn; intros ys.
  - intros [= <-] y [].
  - destruct (f x) as [z| |] eqn:E; cbn; try discriminate.
    destruct (mapM f r) as [zs| |]; cbn; try discriminate.
    intros [= <-] y [<-|Hy].
    + exists x. auto.
    + destruct (IH zs eq_refl y Hy) as (x' & Hx' & E'). exists x'. auto.
Qed.

Lemma substitute_rebuilt subst s :
  forall r, substitute s subst = Ok r -> rebuilt s r.
Proof.
  induction s as [n c|s IH|op l IH|f1 f2 IH1 IH2|p f1 f2 IH1 IH2|q x s IH]
    using sentence_induction; cbn; intros r.
  - intros [= <-]. constructor.
  - destruct (substitute s subst) as [c'| |]; cbn; try discriminate.
    intros [= <-]. constructor. now apply IH.
  - destruct (mapM (fun c => substitute c subst) l) as [l'| |] eqn:E; cbn;
      try discriminate.
    intros [= <-]. apply rebuilt_mkACBO. intros r Hr.
    destruct (mapM_In _ _ E _ Hr) as (c & Hc & Hs). exists c.
    split; [assumption|]. rewrite Forall_forall in IH. now apply IH.
  - destruct (substitute f1 subst) as [g1| |]; cbn; try discriminate.
    destruct (substitute f2 subst) as [g2| |]; cbn; try discriminate.
    intros [= <-]. constructor; auto.
  - destruct (substitute f1 subst) as [g1| |]; cbn; try discriminate.
    destruct (substitute f2 subst) as [g2| |]; cbn; try discriminate.
    intros [= <-]. rewrite mkIFF_pair. constructor; auto.
  - destruct (sub_mem x subst); try discriminate.
    destruct (substitute s subst) as [c'| |]; cbn; try discriminate.
    intros [= <-]. constructor. now apply IH.
Qed.

Lemma fold_max_le (f g : sentence -> nat) l l' :
  (forall r, In r l' -> exists s, In s l /\ g r <= f s) ->
  fold_right (fun c m => Nat.max (g c) m) 0 l'
  <= fold_right (fun c m => Nat.max (f c) m) 0 l.
Proof.
  intros H.
  assert (Hub : forall s, In s l ->
                  f s <= fold_right (fun c m => Nat.max (f c) m) 0 l).
  { clear. induction l as [|x r IH]; cbn; intros s []; subst.
    - lia.
    - specialize (IH s H). lia. }
  induction l' as [|y r' IH]; cbn; [lia|].
  destruct (H y (or_introl eq_refl)) as (s & Hs & Hle).
  specialize (Hub s Hs).
  assert (fold_right (fun c m => Nat.max (g c) m) 0 r'
          <= fold_right (fun c m => Nat.max (f c) m) 0 l).
  { apply IH. intros r Hr. apply H. now right. }
  lia.
Qed.

Lemma rebuilt_depth s : forall r, rebuilt s r -> depth r <= depth s.
Proof.
  induction s as [n c|s IH|op l IH|f1 f2 IH1 IH2|p f1 f2 IH1 IH2|q x s IH]
    using sentence_induction; intros r H; inversion H; subst; cbn.
  - lia.
  - specialize (IH _ H1). lia.
  - apply le_n_S. apply (fold_max_le depth depth). intros r Hr.
    destruct (H3 r Hr) as (s & Hs & Hsr). exists s. split; [assumption|].
    rewrite Forall_forall in IH. now apply IH.
  - specialize (IH1 _ H2). specialize (IH2 _ H4). lia.
  - specialize (IH1 _ H4). specialize (IH2 _ H5). lia.
  - specialize (IH _ H4). lia.
Qed.

Lemma var_in_app x l l' : var_in x (l ++ l') = var_in x l || var_in x l'.
Proof. apply existsb_app. Qed.

Lemma var_in_flat_map (A : Type) (f : A -> list variable) x l :
  var_in x (flat_map f l) = true <->
  exists a, In a l /\ var_in x (f a) = true.
Proof.
  unfold var_in. rewrite existsb_exists. split.
  - intros (y & Hy & E). apply in_flat_map in Hy.
    destruct Hy as (a & Ha & Hya). exists a. split; [assumption|].
    apply existsb_exists. eauto.
  - intros (a & Ha & E). apply existsb_exists in E.
    destruct E as (y & Hy & E). exists y. split; [|assumption].
    apply in_flat_map. eauto.
Qed.

Lemma rebuilt_bound_variables x s :
  forall r, rebuilt s r ->
  var_in x (bound_variables r) = true -> var_in x (bound_variables s) = true.
Proof.
  induction s as [n c|s IH|op l IH|f1 f2 IH1 IH2|p f1 f2 IH1 IH2|q y s IH]
    using sentence_induction; intros r H; inversion H; subst; cbn.
  - trivial.
  - now apply IH.
  - change (var_in x (flat_map bound_variables l') = true ->
            var_in x (flat_map bound_variables l) = true).
    rewrite !var_in_flat_map. intros (r & Hr & E).
    destruct (H3 r Hr) as (s & Hs & Hsr). exists s. split; [assumption|].
    rewrite Forall_forall in IH. eapply IH; eassumption.
  - change (var_in x (bound_variables g1 ++ bound_variables g2) = true ->
            var_in x (bound_variables f1 ++ bound_variables f2) = true).
    rewrite !var_in_app, !orb_true_iff. intros [E|E]; eauto.
  - change (var_in x (bound_variables g1 ++ bound_variables g2) = true ->
            var_in x (bound_variables f1 ++ bound_variables f2) = true).
    rewrite !var_in_app, !orb_true_iff. intros [E|E]; eauto.
  - rewrite !orb_true_iff. intros [E|E]; eauto.
Qed.

Lemma rebuilt_no_rebinding s :
  forall r, rebuilt s r -> no_rebinding s = true -> no_rebinding r = true.
Proof.
  induction s as [n c|s IH|op l IH|f1 f2 IH1 IH2|p f1 f2 IH1 IH2|q y s IH]
    using sentence_induction; intros r H; inversion H; subst; cbn.
  - trivial.
  - now apply IH.
  - rewrite !forallb_forall. intros Hl r Hr.
    destruct (H3 r Hr) as (s & Hs & Hsr).
    rewrite Forall_forall in IH. eapply IH; eauto.
  - rewrite !andb_true_iff. intros [E1 E2]; eauto.
  - rewrite !andb_true_iff. intros [E1 E2]; eauto.
  - destruct q; [now apply IH|].
    rewrite !andb_true_iff, !negb_true_iff. intros [E1 E2]. split; eauto.
    destruct (var_in y (bound_variables r0)) eqn:E; [|reflexivity].
    rewrite (rebuilt_bound_variables _ H4 E) in E1. discriminate.
Qed.

Lemma depth_In op l c : In c l -> depth c < depth (ACBO op l).
Proof.
  cbn. induction l as [|x r IH]; cbn; intros []; subst.
  - lia.
  - specialize (IH H). lia.
Qed.

(** ** Skolemisation *)

Lemma quantifies_singleton x t s :
  quantifies s [(x, t)] = var_in x (bound_variables s).
Proof.
  induction s as [n c|s IH|op l IH|f1 f2 IH1 IH2|p f1 f2 IH1 IH2|q y s IH]
    using sentence_induction; cbn.
  - reflexivity.
  - assumption.
  - apply eq_iff_eq_true.
    change (existsb (fun c => quantifies c [(x, t)]) l = true <->
            var_in x (flat_map bound_variables l) = true).
    rewrite existsb_exists, var_in_flat_map. rewrite Forall_forall in IH.
    split; intros (c & Hc & E); exists c; split; try assumption.
    + now rewrite <- IH.
    + now rewrite IH.
  - change (quantifies f1 [(x, t)] || quantifies f2 [(x, t)]
            = var_in x (bound_variables f1 ++ bound_variables f2)).
    now rewrite var_in_app, IH1, IH2.
  - change (quantifies f1 [(x, t)] || quantifies f2 [(x, t)]
            = var_in x (bound_variables f1 ++ bound_variables f2)).
    now rewrite var_in_app, IH1, IH2.
  - now rewrite IH, orb_false_r, var_is_sym.
Qed.

Section Skolemisation_facts.

Variable object_id : nat -> string.

Lemma skolem_list_outcome (Q R : sentence -> Prop)
  (f : sentence -> nat -> outcome (sentence * nat)) l :
  (forall c, In c l -> forall k,
     (exists r k', f c k = Ok (r, k') /\ Q r)
     \/ (f c k = Raise ValueError /\ R c)) ->
  forall k,
    (exists rs k', skolem_list f l k = Ok (rs, k') /\ Forall Q rs
                   /\ List.length rs = List.length l)
    \/ (skolem_list f l k = Raise ValueError /\ exists c, In c l /\ R c).
Proof.
  induction l as [|x r IH]; intros Hf k; cbn.
  - left. exists [], k. repeat split. constructor.
  - destruct (Hf x (or_introl eq_refl) k) as [(y & k1 & -> & Qy)|[-> Rx]];
      cbn.
    + destruct (IH (fun c Hc => Hf c (or_intror Hc)) k1)
        as [(ys & k2 & -> & Qys & Hlen)|[-> (c & Hc & Rc)]]; cbn.
      * left. exists (y :: ys), k2. repeat split.
        -- now constructor.
        -- cbn. now rewrite Hlen.
      * right. split; [reflexivity|]. exists c. auto.
    + right. split; [reflexivity|]. exists x. auto.
Qed.

(** With a budget above the depth of the sentence, [skolemised] returns a
    sentence without quantifiers, or raises the [ValueError] of
    [Quantifier.substitute], which takes a rebound variable. *)
Lemma skolemised_fuel_outcome fuel :
  forall s variables k, depth s < fuel ->
    (exists r k', skolemised_fuel object_id fuel s variables k = Ok (r, k')
                  /\ quantifier_free r = true)
    \/ (skolemised_fuel object_id fuel s variables k = Raise ValueError
        /\ no_rebinding s = false).
Proof.
  induction fuel as [|fuel IH]; intros s variables k Hd; [lia|].
  destruct s as [n c|s|op l|f1 f2|p f1 f2|q x s]; cbn in Hd |- *.
  - left. eexists _, _. split; reflexivity.
  - destruct (IH s variables k ltac:(lia)) as [(r & k' & -> & Hr)|[-> Hn]];
      cbn; [left|right; auto].
    eexists _, _. split; [reflexivity|]. exact Hr.
  - destruct (@skolem_list_outcome
                (fun r => quantifier_free r = true)
                (fun c => no_rebinding c = false)
                (fun c => skolemised_fuel object_id fuel c variables) l)
      with (k := k) as [(rs & k' & -> & Hrs & _)|[-> (c & Hc & Hn)]]; cbn.
    + intros c Hc k0. apply IH.
      pose proof (depth_In op l c Hc) as Hlt. cbn in Hlt. lia.
    + left. eexists _, _. split; [reflexivity|]. cbn.
      apply frozenset_forallb, forallb_forall. now apply Forall_forall.
    + right. split; [reflexivity|].
      destruct (forallb no_rebinding l) eqn:E; [|reflexivity].
      rewrite forallb_forall in E. rewrite (E c Hc) in Hn. discriminate.
  - destruct (IH f1 variables k ltac:(lia))
      as [(r1 & k1 & -> & Hr1)|[-> Hn]]; cbn.
    + destruct (IH f2 variables k1 ltac:(lia))
        as [(r2 & k2 & -> & Hr2)|[-> Hn]]; cbn.
      * left. eexists _, _. split; [reflexivity|]. cbn.
        now rewrite Hr1, Hr2.
      * right. split; [reflexivity|]. rewrite Hn. apply andb_false_r.
    + right. split; [reflexivity|]. now rewrite Hn.
  - destruct (IH f1 variables k ltac:(lia))
      as [(r1 & k1 & -> & Hr1)|[-> Hn]]; cbn.
    + destruct (IH f2 variables k1 ltac:(lia))
        as [(r2 & k2 & -> & Hr2)|[-> Hn]]; cbn.
      * left. eexists _, _. split; [reflexivity|]. rewrite mkIFF_pair.
        cbn. now rewrite Hr1, Hr2.
      * right. split; [reflexivity|]. rewrite Hn. apply andb_false_r.
    + right. split; [reflexivity|]. now rewrite Hn.
  - destruct q.
    + apply IH. lia.
    + pose proof (substitute_outcome
                    [(x, Function (object_id k) (map Var variables))] s)
        as Hs.
      rewrite quantifies_singleton in Hs.
      destruct (var_in x (bound_variables s)) eqn:E.
      * rewrite Hs. cbn. right. auto.
      * destruct Hs as (c' & Hc'). rewrite Hc'. cbn.
        pose proof (substitute_rebuilt _ _ Hc') as Hb.
        pose proof (rebuilt_depth Hb) as Hle.
        destruct (IH c' variables (S k) ltac:(lia))
          as [(r & k' & -> & Hr)|[-> Hn]].
        -- left. eexists _, _. split; [reflexivity|]. exact Hr.
        -- right. split; [reflexivity|].
           destruct (no_rebinding s) eqn:En; [|reflexivity].
           rewrite (rebuilt_no_rebinding Hb En) in Hn. discriminate.
Qed.

End Skolemisation_facts.

(** C4, as the code has it: on a sentence (in negation normal form or not)
    in which no quantifier in the body of an [Exists] has the variable of that
    [Exists], [skolemised] returns a sentence in which neither an [Exists]
    nor a [ForAll] occurs; on any other sentence it returns such a sentence or
    raises the [ValueError] by which [Quantifier.substitute] refuses a
    quantified variable. *)
Theorem skolemised_quantifier_free object_id s variables k :
  (no_rebinding s = true ->
   exists r k', skolemised object_id s variables k = Ok (r, k')
                /\ quantifier_free r = true)
  /\ ((exists r k', skolemised object_id s variables k = Ok (r, k')
                    /\ quantifier_free r = true)
      \/ skolemised object_id s variables k = Raise ValueError).
Proof.
  unfold skolemised.
  destruct (@skolemised_fuel_outcome object_id (S (depth s)) s variables k)
    as [H|[H Hn]]; [lia| |].
  - split; [intros _; exact H|now left].
  - split; [congruence|now right].
Qed.

Lemma skolemised_quantifier_free_witness :
  exists r k', skolemised sample_object_id ForAll_x_Exists_y [] 0 = Ok (r, k')
               /\ quantifier_free r = true.
Proof.
  apply (proj1 (skolemised_quantifier_free sample_object_id
                  ForAll_x_Exists_y [] 0)).
  reflexivity.
Defined.

(** C4 as stated fails: [Exists(x, Exists(x, P(x)))] is in negation normal
    form and [skolemised] raises on it instead of returning. *)
Lemma skolemised_rebound_variable_raises :
  negation_normal Exists_x_Exists_x = true
  /\ skolemised sample_object_id Exists_x_Exists_x [] 0 = Raise ValueError.
Proof. split; reflexivity. Qed.

(** ** Well-formed sentences stay well formed *)

Lemma mapM_length (A B : Type) (f : A -> outcome B) l :
  forall ys, mapM f l = Ok ys -> List.length ys = List.length l.
Proof.
  induction l as [|x r IH]; cbn; intros ys.
  - now intros [= <-].
  - destruct (f x) as [z| |]; cbn; try discriminate.
    destruct (mapM f r) as [zs| |]; cbn; try discriminate.
    intros [= <-]. cbn. f_equal. now apply IH.
Qed.

Lemma set_in_filter_false x l :
  set_in x (filter (fun y => negb (sentence_eqb x y)) l) = false.
Proof.
  unfold set_in. induction l as [|y r IH]; cbn; [reflexivity|].
  destruct (sentence_eqb x y) eqn:E; cbn; [assumption|].
  now rewrite E, IH.
Qed.

Lemma set_in_filter (f : sentence -> bool) x l :
  set_in x l = false -> set_in x (filter f l) = false.
Proof.
  unfold set_in. induction l as [|y r IH]; cbn; [reflexivity|].
  rewrite orb_false_iff. intros [E1 E2].
  destruct (f y); cbn; [rewrite E1|]; auto.
Qed.

Lemma no_duplicate_filter (f : sentence -> bool) l :
  no_duplicate l = true -> no_duplicate (filter f l) = true.
Proof.
  induction l as [|y r IH]; cbn; [reflexivity|].
  rewrite andb_true_iff, negb_true_iff. intros [E1 E2].
  destruct (f y); cbn; auto.
  now rewrite set_in_filter, IH.
Qed.

Lemma frozenset_no_duplicate l : no_duplicate (frozenset l) = true.
Proof.
  induction l as [|x r IH]; cbn; [reflexivity|].
  now rewrite set_in_filter_false, no_duplicate_filter.
Qed.

Lemma frozenset_not_nil l : l <> [] -> frozenset l <> [].
Proof. destruct l; cbn; congruence. Qed.

Lemma mkACBO_well_formed op l :
  l <> [] -> Forall (fun c => well_formed c = true) l ->
  well_formed (mkACBO op l) = true.
Proof.
  intros Hl Hwf. unfold mkACBO. cbn.
  rewrite frozenset_no_duplicate, frozenset_forallb.
  - destruct (frozenset l) eqn:E; [|reflexivity].
    now apply frozenset_not_nil in E.
  - apply forallb_forall. now apply Forall_forall.
Qed.

Lemma mkIFF_well_formed a b :
  well_formed a = true -> well_formed b = true ->
  well_formed (mkIFF a b) = true.
Proof.
  intros Ha Hb. rewrite mkIFF_pair. cbn. now rewrite eqb_reflx, Ha, Hb.
Qed.

Lemma length_not_nil (A : Type) (l : list A) :
  negb (Nat.eqb (List.length l) 0) = true <-> l <> [].
Proof. destruct l; cbn; split; congruence. Qed.

Lemma well_formed_ACBO op l :
  well_formed (ACBO op l) = true <->
  l <> [] /\ no_duplicate l = true /\ Forall (fun c => well_formed c = true) l.
Proof.
  cbn. rewrite !andb_true_iff, length_not_nil, forallb_forall, Forall_forall.
  tauto.
Qed.

Lemma map_not_nil (A B : Type) (f : A -> B) l : l <> [] -> map f l <> [].
Proof. destruct l; cbn; congruence. Qed.

Lemma length_eq_not_nil (A B : Type) (l : list A) (l' : list B) :
  List.length l' = List.length l -> l <> [] -> l' <> [].
Proof. destruct l, l'; cbn; congruence. Qed.

Lemma simplified_well_formed s :
  well_formed s = true -> well_formed (simplified s) = true.
Proof.
  induction s as [n c|s IH|op l IH|f1 f2 IH1 IH2|p f1 f2 IH1 IH2|q x s IH]
    using sentence_induction; intros Hs; cbn.
  - reflexivity.
  - now apply IH.
  - apply well_formed_ACBO in Hs. destruct Hs as (Hl & _ & Hwf).
    apply mkACBO_well_formed; [now apply map_not_nil|].
    rewrite Forall_forall in *. intros c Hc. apply in_map_iff in Hc.
    destruct Hc as (c0 & <- & Hc0). auto.
  - cbn in Hs. apply andb_true_iff in Hs. destruct Hs as [H1 H2].
    apply mkACBO_well_formed; [discriminate|].
    repeat constructor; cbn; auto.
  - cbn in Hs. rewrite !andb_true_iff in Hs. destruct Hs as [[_ H1] H2].
    apply mkACBO_well_formed; [discriminate|].
    repeat constructor; apply mkACBO_well_formed; try discriminate;
      repeat constructor; cbn; auto.
  - now apply IH.
Qed.

Lemma substitute_well_formed subst s :
  well_formed s = true ->
  forall r, substitute s subst = Ok r -> well_formed r = true.
Proof.
  induction s as [n c|s IH|op l IH|f1 f2 IH1 IH2|p f1 f2 IH1 IH2|q x s IH]
    using sentence_induction; intros Hs r; cbn.
  - now intros [= <-].
  - destruct (substitute s subst) as [c'| |]; cbn; try discriminate.
    intros [= <-]. cbn. now apply IH.
  - apply well_formed_ACBO in Hs. destruct Hs as (Hl & _ & Hwf).
    destruct (mapM (fun c => substitute c subst) l) as [l'| |] eqn:E; cbn;
      try discriminate.
    intros [= <-]. apply mkACBO_well_formed.
    + eapply length_eq_not_nil; [|exact Hl]. eapply mapM_length, E.
    + eapply mapM_Forall; [|exact E].
      rewrite Forall_forall in *. intros c Hc. apply IH; auto.
  - cbn in Hs. apply andb_true_iff in Hs. destruct Hs as [H1 H2].
    destruct (substitute f1 subst) as [g1| |] eqn:E1; cbn; try discriminate.
    destruct (substitute f2 subst) as [g2| |] eqn:E2; cbn; try discriminate.
    intros [= <-]. cbn. now rewrite (IH1 H1 _ eq_refl), (IH2 H2 _ eq_refl).
  - cbn in Hs. rewrite !andb_true_iff in Hs. destruct Hs as [[_ H1] H2].
    destruct (substitute f1 subst) as [g1| |] eqn:E1; cbn; try discriminate.
    destruct (substitute f2 subst) as [g2| |] eqn:E2; cbn; try discriminate.
    intros [= <-]. apply mkIFF_well_formed; auto.
  - destruct (sub_mem x subst); try discriminate.
    destruct (substitute s subst) as [c'| |]; cbn; try discriminate.
    intros [= <-]. cbn. now apply IH.
Qed.

Lemma negated_inwards_well_formed s :
  well_formed s = true ->
  forall negate r, negated_inwards s negate = Ok r -> well_formed r = true.
Proof.
  induction s as [n c|s IH|op l IH|f1 f2 IH1 IH2|p f1 f2 IH1 IH2|q x s IH]
    using sentence_induction; intros Hs negate r; cbn; try discriminate.
  - destruct negate; now intros [= <-].
  - now apply IH.
  - apply well_formed_ACBO in Hs. destruct Hs as (Hl & _ & Hwf).
    destruct (mapM (fun c => negated_inwards c negate) l) as [l'| |] eqn:E;
      cbn; try discriminate.
    intros [= <-]. apply mkACBO_well_formed.
    + eapply length_eq_not_nil; [|exact Hl]. eapply mapM_length, E.
    + eapply mapM_Forall; [|exact E].
      rewrite Forall_forall in *. intros c Hc. apply IH; auto.
  - destruct (negated_inwards s negate) as [c'| |] eqn:E; cbn;
      try discriminate.
    intros [= <-]. cbn. eapply IH; eauto.
Qed.

Lemma skolem_list_Forall (Q : sentence -> Prop)
  (f : sentence -> nat -> outcome (sentence * nat)) l :
  (forall c, In c l -> forall k r k', f c k = Ok (r, k') -> Q r) ->
  forall k rs k', skolem_list f l k = Ok (rs, k') ->
                  Forall Q rs /\ List.length rs = List.length l.
Proof.
  induction l as [|x r IH]; intros Hf k rs k'; cbn.
  - intros [= <- _]. split; [constructor|reflexivity].
  - destruct (f x k) as [[y k1]| |] eqn:E; cbn; try discriminate.
    destruct (skolem_list f r k1) as [[ys k2]| |] eqn:E'; cbn;
      try discriminate.
    intros [= <- _].
    destruct (IH (fun c Hc => Hf c (or_intror Hc)) _ _ _ E') as [H1 H2].
    split; [|cbn; now rewrite H2].
    constructor; [|assumption]. eapply Hf; [now left|exact E].
Qed.

Lemma skolemised_fuel_well_formed object_id fuel :
  forall s variables k r k',
    well_formed s = true ->
    skolemised_fuel object_id fuel s variables k = Ok (r, k') ->
    well_formed r = true.
Proof.
  induction fuel as [|fuel IH]; intros s variables k r k' Hs; cbn;
    [discriminate|].
  destruct s as [n c|s|op l|f1 f2|p f1 f2|q x s].
  - now intros [= <- _].
  - destruct (skolemised_fuel object_id fuel s variables k)
      as [[c' k1]| |] eqn:E; cbn; try discriminate.
    intros [= <- _]. exact (IH s _ _ _ _ Hs E).
  - apply well_formed_ACBO in Hs. destruct Hs as (Hl & _ & Hwf).
    destruct (skolem_list
                (fun c => skolemised_fuel object_id fuel c variables) l k)
      as [[l' k1]| |] eqn:E; cbn; try discriminate.
    intros [= <- _].
    assert (H12 : Forall (fun r => well_formed r = true) l'
                  /\ List.length l' = List.length l).
    { eapply skolem_list_Forall; [|exact E].
      rewrite Forall_forall in Hwf. intros c Hc k0 r0 k0' E0.
      exact (IH c _ _ _ _ (Hwf c Hc) E0). }
    destruct H12 as [H1 H2].
    apply mkACBO_well_formed; [|assumption].
    eapply length_eq_not_nil; eauto.
  - cbn in Hs. apply andb_true_iff in Hs. destruct Hs as [H1 H2].
    destruct (skolemised_fuel object_id fuel f1 variables k)
      as [[g1 k1]| |] eqn:E1; cbn; try discriminate.
    destruct (skolemised_fuel object_id fuel f2 variables k1)
      as [[g2 k2]| |] eqn:E2; cbn; try discriminate.
    intros [= <- _]. cbn.
    now rewrite (IH _ _ _ _ _ H1 E1), (IH _ _ _ _ _ H2 E2).
  - cbn in Hs. rewrite !andb_true_iff in Hs. destruct Hs as [[_ H1] H2].
    destruct (skolemised_fuel object_id fuel f1 variables k)
      as [[g1 k1]| |] eqn:E1; cbn; try discriminate.
    destruct (skolemised_fuel object_id fuel f2 variables k1)
      as [[g2 k2]| |] eqn:E2; cbn; try discriminate.
    intros [= <- _]. apply mkIFF_well_formed.
    + exact (IH _ _ _ _ _ H1 E1).
    + exact (IH _ _ _ _ _ H2 E2).
  - cbn in Hs. destruct q.
    + apply IH. exact Hs.
    + destruct (substitute s
                  [(x, Function (object_id k) (map Var variables))])
        as [c'| |] eqn:E; cbn; try discriminate.
      apply IH. eapply substitute_well_formed; eauto.
Qed.

(** ** Equality and frozensets *)

Lemma sentence_eqb_congr a a' b b' :
  sentence_eqb a a' = true -> sentence_eqb b b' = true ->
  sentence_eqb a b = sentence_eqb a' b'.
Proof.
  intros Ha Hb. apply eq_iff_eq_true. split; intros H.
  - apply sentence_eqb_trans with a; [now rewrite sentence_eqb_sym|].
    now apply sentence_eqb_trans with b.
  - apply sentence_eqb_trans with a'; [assumption|].
    apply sentence_eqb_trans with b'; [assumption|].
    now rewrite sentence_eqb_sym.
Qed.

Lemma sentence_eqb_is_ACBO op a b :
  sentence_eqb a b = true -> is_ACBO op a = is_ACBO op b.
Proof.
  destruct a, b; cbn; try congruence.
  rewrite !andb_true_iff, op_eqb_true. now intros [[-> _] _].
Qed.

(** Every element handed to [frozenset] is equal to one that it keeps. *)
Lemma frozenset_repr x l :
  In x l -> exists y, In y (frozenset l) /\ sentence_eqb y x = true.
Proof.
  induction l as [|h r IH]; cbn; [tauto|]. intros [<-|Hx].
  - exists h. split; [now left|apply sentence_eqb_refl].
  - destruct (IH Hx) as (y & Hy & E).
    destruct (sentence_eqb h y) eqn:Ehy.
    + exists h. split; [now left|].
      now apply sentence_eqb_trans with y.
    + exists y. split; [|assumption]. right. apply filter_In.
      now rewrite Ehy.
Qed.

(** Two unequal elements make a frozenset of two elements at least. *)
Lemma frozenset_two a b l :
  In a l -> In b l -> sentence_eqb a b = false ->
  2 <= List.length (frozenset l).
Proof.
  intros Ha Hb Hab.
  destruct (frozenset_repr a l Ha) as (a' & Ha' & Ea).
  destruct (frozenset_repr b l Hb) as (b' & Hb' & Eb).
  destruct (frozenset l) as [|y [|z t]]; cbn in *; try lia; try tauto.
  destruct Ha' as [<-|[]], Hb' as [<-|[]].
  rewrite <- (sentence_eqb_congr _ _ _ _ Ea Eb), sentence_eqb_refl in Hab.
  discriminate.
Qed.

Lemma flatten_fixed op l :
  forallb (fun c => negb (is_ACBO op c)) l = true -> flatten op l = l.
Proof.
  unfold flatten. induction l as [|x r IH]; cbn; [reflexivity|].
  rewrite andb_true_iff, negb_true_iff. intros [Hx Hr].
  rewrite (IH Hr).
  destruct x; cbn in *; try reflexivity. now rewrite Hx.
Qed.

(** An element of the flattened content is an element that was kept, or an
    operand of an element of the same class. *)
Lemma flatten_In op e l :
  In e (flatten op l) <->
  exists c, In c l
            /\ ((is_ACBO op c = false /\ e = c)
                \/ exists lc, c = ACBO op lc /\ In e lc).
Proof.
  unfold flatten. rewrite in_flat_map. split.
  - intros (c & Hc & He). exists c. split; [assumption|].
    destruct c as [n a|s|op' lc|f1 f2|p f1 f2|q x s]; cbn in *;
      try (left; split; [reflexivity|]; destruct He as [<-|[]]; reflexivity).
    destruct (op_eqb op' op) eqn:E.
    + apply op_eqb_true in E. subst. right. eauto.
    + left. split; [reflexivity|]. now destruct He as [<-|[]].
  - intros (c & Hc & [[Hn He]|(lc & Hlc & He)]); exists c;
      (split; [assumption|]); subst.
    + destruct c; cbn in *; try tauto. rewrite Hn. now left.
    + destruct op; cbn; assumption.
Qed.

Lemma mapM_In_Ok (A B : Type) (f : A -> outcome B) l :
  forall ys, mapM f l = Ok ys ->
  forall x, In x l -> exists y, In y ys /\ f x = Ok y.
Proof.
  induction l as [|h r IH]; cbn; intros ys.
  - intros _ x [].
  - destruct (f h) as [z| |] eqn:E; cbn; try discriminate.
    destruct (mapM f r) as [zs| |]; cbn; try discriminate.
    intros [= <-] x [<-|Hx].
    + exists z. split; [now left|assumption].
    + destruct (IH zs eq_refl x Hx) as (y & Hy & E'). exists y.
      split; [now right|assumption].
Qed.

Lemma fold_max_bound (g : sentence -> nat) m l :
  (forall e, In e l -> g e <= m) ->
  fold_right (fun c k => Nat.max (g c) k) 0 l <= m.
Proof.
  induction l as [|x r IH]; cbn; intros H; [lia|].
  specialize (IH (fun e He => H e (or_intror He))).
  specialize (H x (or_introl eq_refl)). lia.
Qed.

(** ** Cleaning *)

(** With a budget above the depth of the sentence, [cleaned] returns, and
    what it returns is no deeper. *)
Lemma cleaned_fuel_total fuel :
  forall s, depth s < fuel ->
  exists r, cleaned_fuel fuel s = Ok r /\ depth r <= depth s.
Proof.
  induction fuel as [|fuel IH]; intros s Hd; [lia|].
  destruct s as [n c|s|op l|f1 f2|p f1 f2|q x s]; cbn in Hd |- *.
  - eexists. split; [reflexivity|]. cbn. lia.
  - destruct (IH s ltac:(lia)) as (r & -> & Hr). cbn.
    eexists. split; [reflexivity|]. cbn. lia.
  - set (m := fold_right (fun c k => Nat.max (depth c) k) 0 l) in *.
    destruct (@mapM_Ok _ _ (cleaned_fuel fuel) (fun y => depth y <= m) l)
      as (l' & -> & Hl' & _).
    { apply Forall_forall. intros c Hc.
      pose proof (depth_In op l c Hc) as Hlt. cbn in Hlt. fold m in Hlt.
      destruct (IH c ltac:(lia)) as (r & Hr & Hle). exists r.
      split; [assumption|lia]. }
    cbn. rewrite Forall_forall in Hl'.
    assert (Hnew : forall e, In e (frozenset l') -> depth e <= m).
    { intros e He. apply Hl'. now apply frozenset_In. }
    destruct (frozenset l') as [|a [|b t]] eqn:En.
    + eexists. split; [reflexivity|]. unfold mkACBO, flatten. cbn. lia.
    + destruct (IH a) as (r & -> & Hr).
      * specialize (Hnew a (or_introl eq_refl)). lia.
      * exists r. split; [reflexivity|].
        specialize (Hnew a (or_introl eq_refl)). lia.
    + eexists. split; [reflexivity|]. unfold mkACBO.
      cbn [depth]. apply le_n_S, fold_max_bound. intros e He.
      apply frozenset_In, flatten_In in He.
      destruct He as (c & Hc & [[_ ->]|(lc & -> & He)]).
      * now apply Hnew.
      * specialize (Hnew _ Hc). pose proof (depth_In op lc e He). lia.
  - destruct (IH f1 ltac:(lia)) as (r1 & -> & Hr1). cbn.
    destruct (IH f2 ltac:(lia)) as (r2 & -> & Hr2). cbn.
    eexists. split; [reflexivity|]. cbn. lia.
  - destruct (IH f1 ltac:(lia)) as (r1 & -> & Hr1). cbn.
    destruct (IH f2 ltac:(lia)) as (r2 & -> & Hr2). cbn.
    eexists. split; [reflexivity|]. rewrite mkIFF_pair. cbn. lia.
  - destruct (var_in x (free_variables s)).
    + destruct (IH s ltac:(lia)) as (r & -> & Hr). cbn.
      eexists. split; [reflexivity|]. cbn. lia.
    + destruct (IH s ltac:(lia)) as (r & -> & Hr).
      exists r. split; [reflexivity|]. lia.
Qed.

(** *** Free variables *)

Unset Implicit Arguments.

Lemma var_is_congr x v w : var_is v w = true -> var_is x v = var_is x w.
Proof.
  unfold var_is. rewrite Nat.eqb_eq. now intros ->.
Qed.

Lemma var_in_discard x y l :
  var_in x (var_discard y l) = negb (var_is y x) && var_in x l.
Proof.
  unfold var_in, var_discard. induction l as [|z r IH]; cbn.
  - now rewrite andb_false_r.
  - destruct (var_is y z) eqn:E; cbn.
    + rewrite IH. destruct (var_is x z) eqn:E'; cbn; [|reflexivity].
      now rewrite (var_is_congr y x z E'), E.
    + rewrite IH. destruct (var_is x z) eqn:E'; cbn; [|reflexivity].
      now rewrite (var_is_congr y x z E'), E.
Qed.

Lemma term_eqb_free_variables x t :
  forall u, term_eqb t u = true ->
  var_in x (term_free_variables t) = var_in x (term_free_variables u).
Proof.
  induction t as [v|n c IH] using term_induction; intros [w|m d]; cbn;
    try discriminate.
  - intros E. now rewrite (var_is_congr x v w E).
  - rewrite andb_true_iff. intros [E _]. revert d E.
    induction IH as [|t r Ht _ IHr]; intros [|u d]; cbn; try discriminate;
      [reflexivity|].
    rewrite andb_true_iff. intros [E1 E2].
    change (var_in x (term_free_variables t
                      ++ flat_map term_free_variables r)
            = var_in x (term_free_variables u
                        ++ flat_map term_free_variables d)).
    rewrite !var_in_app, (Ht u E1). f_equal. now apply IHr.
Qed.

Arguments var_in : simpl never.

Lemma tuple_eqb_free_variables x c :
  forall d, tuple_eqb term_eqb c d = true ->
  var_in x (flat_map term_free_variables c)
  = var_in x (flat_map term_free_variables d).
Proof.
  intros d E.
  apply (term_eqb_free_variables x (Function "" c) (Function "" d)).
  cbn. now rewrite E.
Qed.

Lemma sentence_eqb_free_variables_incl x a :
  forall b, sentence_eqb a b = true ->
  var_in x (free_variables a) = true -> var_in x (free_variables b) = true.
Proof.
  induction a as [n c|s IH|op l IH|f1 f2 IH1 IH2|p f1 f2 IH1 IH2|q y s IH]
    using sentence_induction;
    intros [n' c'|s'|op' l'|g1 g2|p' g1 g2|q' y' s']; try discriminate.
  - cbn. rewrite andb_true_iff. intros [E _].
    now rewrite (tuple_eqb_free_variables x c c' E).
  - cbn. apply IH.
  - rewrite ACBO_eqb_true. intros (_ & H1 & _).
    change (var_in x (flat_map free_variables l) = true ->
            var_in x (flat_map free_variables l') = true).
    rewrite !var_in_flat_map. intros (c & Hc & E).
    destruct (H1 c Hc) as (c' & Hc' & E'). exists c'.
    split; [assumption|]. rewrite Forall_forall in IH. eapply IH; eauto.
  - cbn. rewrite andb_true_iff. intros [E1 E2].
    change (var_in x (free_variables f1 ++ free_variables f2) = true ->
            var_in x (free_variables g1 ++ free_variables g2) = true).
    rewrite !var_in_app, !orb_true_iff. intros [H|H]; eauto.
  - cbn.
    change (Bool.eqb p p'
            && (if p
                then sentence_eqb f1 g1 && sentence_eqb f2 g2
                else (sentence_eqb f1 g1 || sentence_eqb f1 g2)
                     && (sentence_eqb f2 g1 || sentence_eqb f2 g2)
                     && (sentence_eqb f1 g1 || sentence_eqb f2 g1)
                     && (sentence_eqb f1 g2 || sentence_eqb f2 g2)) = true ->
            var_in x (free_variables f1 ++ free_variables f2) = true ->
            var_in x (free_variables g1 ++ free_variables g2) = true).
    rewrite !var_in_app, !orb_true_iff, andb_true_iff. intros [_ E].
    destruct p.
    + apply andb_true_iff in E. destruct E as [E1 E2]. intros [H|H]; eauto.
    + rewrite !andb_true_iff, !orb_true_iff in E.
      destruct E as [[[E1 E2] _] _].
      intros [H|H]; [destruct E1|destruct E2]; eauto.
  - cbn. rewrite !andb_true_iff. intros [[_ E] Ey].
    change (var_in x (var_discard y (free_variables s)) = true ->
            var_in x (var_discard y' (free_variables s')) = true).
    rewrite !var_in_discard, !andb_true_iff.
    intros [H1 H2]. split; [|eauto].
    rewrite (var_is_sym y' x), <- (var_is_congr x y y' Ey), (var_is_sym x y).
    exact H1.
Qed.

Lemma is_ACBO_true op s :
  is_ACBO op s = true -> exists l, s = ACBO op l.
Proof.
  destruct s; cbn; try discriminate.
  rewrite op_eqb_true. intros ->. eauto.
Qed.

Lemma free_variables_mkACBO x op l e :
  In e l -> var_in x (free_variables e) = true ->
  var_in x (free_variables (mkACBO op l)) = true.
Proof.
  intros He Hx. unfold mkACBO.
  change (var_in x (flat_map free_variables (frozenset l)) = true).
  apply var_in_flat_map.
  destruct (frozenset_repr e l He) as (e' & He' & E). exists e'.
  split; [assumption|].
  rewrite sentence_eqb_sym in E.
  eapply sentence_eqb_free_variables_incl; eauto.
Qed.

(** A free variable of the sentence is a free variable of what [cleaned]
    returns. *)
Lemma cleaned_fuel_free_variables x fuel :
  forall s r, cleaned_fuel fuel s = Ok r ->
  var_in x (free_variables s) = true -> var_in x (free_variables r) = true.
Proof.
  induction fuel as [|fuel IH]; intros s r; cbn; [discriminate|].
  destruct s as [n c|s|op l|f1 f2|p f1 f2|q y s].
  - now intros [= <-].
  - destruct (cleaned_fuel fuel s) as [c'| |] eqn:E; cbn; try discriminate.
    intros [= <-]. cbn. eapply IH; eauto.
  - destruct (mapM (cleaned_fuel fuel) l) as [l'| |] eqn:E; cbn;
      try discriminate.
    intros Hr.
    change (var_in x (flat_map free_variables l) = true ->
            var_in x (free_variables r) = true).
    rewrite var_in_flat_map. intros (c & Hc & Hx).
    destruct (mapM_In_Ok _ _ E c Hc) as (c' & Hc' & Ec).
    pose proof (IH _ _ Ec Hx) as Hx'.
    destruct (frozenset_repr c' l' Hc') as (y & Hy & Ey).
    rewrite sentence_eqb_sym in Ey.
    pose proof (sentence_eqb_free_variables_incl x _ _ Ey Hx') as Hxy.
    destruct (frozenset l') as [|a [|b t]]; [destruct Hy| |].
    + destruct Hy as [<-|[]]. eapply IH; eauto.
    + injection Hr as <-.
      destruct (is_ACBO op y) eqn:Ea.
      * apply is_ACBO_true in Ea. destruct Ea as (ly & ->).
        change (var_in x (flat_map free_variables ly) = true) in Hxy.
        apply var_in_flat_map in Hxy. destruct Hxy as (e & He & Hxe).
        apply free_variables_mkACBO with e; [|assumption].
        apply flatten_In. exists (ACBO op ly). split; [assumption|].
        right. eauto.
      * apply free_variables_mkACBO with y; [|assumption].
        apply flatten_In. exists y. split; [assumption|]. left. auto.
  - destruct (cleaned_fuel fuel f1) as [g1| |] eqn:E1; cbn; try discriminate.
    destruct (cleaned_fuel fuel f2) as [g2| |] eqn:E2; cbn; try discriminate.
    intros [= <-].
    change (var_in x (free_variables f1 ++ free_variables f2) = true ->
            var_in x (free_variables g1 ++ free_variables g2) = true).
    rewrite !var_in_app, !orb_true_iff. intros [H|H]; eauto.
  - destruct (cleaned_fuel fuel f1) as [g1| |] eqn:E1; cbn; try discriminate.
    destruct (cleaned_fuel fuel f2) as [g2| |] eqn:E2; cbn; try discriminate.
    intros [= <-]. rewrite mkIFF_pair.
    change (var_in x (free_variables f1 ++ free_variables f2) = true ->
            var_in x (free_variables g1 ++ free_variables g2) = true).
    rewrite !var_in_app, !orb_true_iff. intros [H|H]; eauto.
  - change (free_variables (Quant q y s))
      with (var_discard y (free_variables s)).
    rewrite var_in_discard, andb_true_iff.
    destruct (var_in y (free_variables s)).
    + destruct (cleaned_fuel fuel s) as [c'| |] eqn:E; cbn; try discriminate.
      intros [= <-] [H1 H2].
      change (var_in x (var_discard y (free_variables c')) = true).
      rewrite var_in_discard, H1. cbn. eapply IH; eauto.
    + intros E [_ H2]. eapply IH; eauto.
Qed.

(** *** What [cleaned] returns *)

Lemma no_duplicate_two u v t :
  no_duplicate (u :: v :: t) = true -> sentence_eqb u v = false.
Proof.
  cbn. rewrite andb_true_iff, negb_true_iff, orb_false_iff. tauto.
Qed.

Lemma forallb_false (A : Type) (f : A -> bool) l :
  forallb f l = false -> exists x, In x l /\ f x = false.
Proof.
  induction l as [|x r IH]; cbn; [discriminate|].
  destruct (f x) eqn:E; cbn.
  - intros H. destruct (IH H) as (y & Hy & Ey). eauto.
  - eauto.
Qed.

Lemma is_clean_ACBO op l :
  is_clean (ACBO op l) = true <->
  2 <= List.length l
  /\ (forall c, In c l -> is_ACBO op c = false)
  /\ (forall c, In c l -> is_clean c = true).
Proof.
  cbn [is_clean]. rewrite !andb_true_iff, !forallb_forall, Nat.leb_le.
  setoid_rewrite negb_true_iff. tauto.
Qed.

(** The flattened content of a frozenset of two or more cleaned operands
    holds two unequal elements. *)
Lemma flatten_two op new :
  2 <= List.length new -> no_duplicate new = true ->
  (forall c, In c new -> well_formed c = true /\ is_clean c = true) ->
  exists u v, In u (flatten op new) /\ In v (flatten op new)
              /\ sentence_eqb u v = false.
Proof.
  intros Hlen Hnd Hnew.
  destruct (forallb (fun c => negb (is_ACBO op c)) new) eqn:E.
  - rewrite (flatten_fixed op new E).
    destruct new as [|u [|v t]]; cbn in Hlen; try lia.
    exists u, v. split; [now left|]. split; [right; now left|].
    now apply no_duplicate_two with t.
  - apply forallb_false in E. destruct E as (c & Hc & Ec).
    apply negb_false_iff, is_ACBO_true in Ec. destruct Ec as (lc & ->).
    destruct (Hnew _ Hc) as [Hwf Hcl].
    apply well_formed_ACBO in Hwf. destruct Hwf as (_ & Hnd' & _).
    apply is_clean_ACBO in Hcl. destruct Hcl as (Hlen' & _ & _).
    destruct lc as [|u [|v t]]; cbn in Hlen'; try lia.
    exists u, v. repeat split.
    + apply flatten_In. exists (ACBO op (u :: v :: t)).
      split; [assumption|]. right. eexists. split; [reflexivity|now left].
    + apply flatten_In. exists (ACBO op (u :: v :: t)).
      split; [assumption|]. right. eexists.
      split; [reflexivity|right; now left].
    + now apply no_duplicate_two with t.
Qed.

(** [cleaned] returns a well-formed sentence that is clean. *)
Lemma cleaned_fuel_clean fuel :
  forall s r, well_formed s = true -> cleaned_fuel fuel s = Ok r ->
              well_formed r = true /\ is_clean r = true.
Proof.
  induction fuel as [|fuel IH]; intros s r Hs; cbn; [discriminate|].
  destruct s as [n c|s|op l|f1 f2|p f1 f2|q y s].
  - intros [= <-]. auto.
  - destruct (cleaned_fuel fuel s) as [c'| |] eqn:E; cbn; try discriminate.
    intros [= <-]. exact (IH s c' Hs E).
  - apply well_formed_ACBO in Hs. destruct Hs as (Hl & _ & Hwf).
    rewrite Forall_forall in Hwf.
    destruct (mapM (cleaned_fuel fuel) l) as [l'| |] eqn:E; cbn;
      try discriminate.
    assert (Hl' : forall y, In y l' ->
                            well_formed y = true /\ is_clean y = true).
    { intros y Hy. destruct (mapM_In _ _ E y Hy) as (c & Hc & Ec).
      exact (IH c y (Hwf c Hc) Ec). }
    assert (Hnew : forall y, In y (frozenset l') ->
                             well_formed y = true /\ is_clean y = true).
    { intros y Hy. apply Hl'. now apply frozenset_In. }
    pose proof (frozenset_no_duplicate l') as Hnd.
    assert (Hne : frozenset l' <> []).
    { apply frozenset_not_nil. eapply length_eq_not_nil; [|exact Hl].
      exact (mapM_length _ _ E). }
    destruct (frozenset l') as [|a [|b t]]; [congruence| |].
    + intros Hr. destruct (Hnew a (or_introl eq_refl)) as [Ha _].
      exact (IH a r Ha Hr).
    + intros [= <-].
      assert (Hfl : forall e, In e (flatten op (a :: b :: t)) ->
                    well_formed e = true /\ is_clean e = true
                    /\ is_ACBO op e = false).
      { intros e He. apply flatten_In in He.
        destruct He as (c & Hc & [[Hn ->]|(lc & -> & He)]).
        - destruct (Hnew c Hc). auto.
        - destruct (Hnew _ Hc) as [Hw Hc'].
          apply well_formed_ACBO in Hw. destruct Hw as (_ & _ & Hw).
          rewrite Forall_forall in Hw.
          apply is_clean_ACBO in Hc'. destruct Hc' as (_ & H1 & H2).
          auto. }
      destruct (flatten_two op (a :: b :: t)) as (u & v & Hu & Hv & Huv);
        [cbn; lia|assumption|assumption|].
      split.
      * apply mkACBO_well_formed.
        -- intros En. rewrite En in Hu. destruct Hu.
        -- apply Forall_forall. intros e He. now apply Hfl.
      * unfold mkACBO. apply is_clean_ACBO. repeat split.
        -- exact (frozenset_two u v _ Hu Hv Huv).
        -- intros c Hc. apply frozenset_In in Hc. now apply Hfl.
        -- intros c Hc. apply frozenset_In in Hc. now apply Hfl.
  - cbn in Hs. apply andb_true_iff in Hs. destruct Hs as [H1 H2].
    destruct (cleaned_fuel fuel f1) as [g1| |] eqn:E1; cbn; try discriminate.
    destruct (cleaned_fuel fuel f2) as [g2| |] eqn:E2; cbn; try discriminate.
    intros [= <-]. destruct (IH _ _ H1 E1) as [W1 C1].
    destruct (IH _ _ H2 E2) as [W2 C2]. cbn.
    now rewrite W1, W2, C1, C2.
  - cbn in Hs. rewrite !andb_true_iff in Hs. destruct Hs as [[_ H1] H2].
    destruct (cleaned_fuel fuel f1) as [g1| |] eqn:E1; cbn; try discriminate.
    destruct (cleaned_fuel fuel f2) as [g2| |] eqn:E2; cbn; try discriminate.
    intros [= <-]. destruct (IH _ _ H1 E1) as [W1 C1].
    destruct (IH _ _ H2 E2) as [W2 C2].
    split; [now apply mkIFF_well_formed|].
    rewrite mkIFF_pair. cbn. now rewrite C1, C2.
  - cbn in Hs. destruct (var_in y (free_variables s)) eqn:Ey.
    + destruct (cleaned_fuel fuel s) as [c'| |] eqn:E; cbn; try discriminate.
      intros [= <-]. destruct (IH _ _ Hs E) as [W C]. cbn.
      now rewrite (cleaned_fuel_free_variables y fuel s c' E Ey), W, C.
    + intros E. exact (IH _ _ Hs E).
Qed.

(** [cleaned] returns a clean sentence as it is, up to equality. *)
Lemma cleaned_fuel_fixed fuel :
  forall r, depth r < fuel -> well_formed r = true -> is_clean r = true ->
  exists r', cleaned_fuel fuel r = Ok r' /\ sentence_eqb r' r = true.
Proof.
  induction fuel as [|fuel IH]; intros r Hd Hw Hc; [lia|].
  destruct r as [n c|s|op l|f1 f2|p f1 f2|q y s]; cbn in Hd.
  - eexists. split; [reflexivity|apply sentence_eqb_refl].
  - destruct (IH s ltac:(lia) Hw Hc) as (s' & E & Es). cbn. rewrite E. cbn.
    eexists. split; [reflexivity|exact Es].
  - apply well_formed_ACBO in Hw. destruct Hw as (_ & Hnd & Hw).
    rewrite Forall_forall in Hw.
    apply is_clean_ACBO in Hc. destruct Hc as (Hlen & Hna & Hc).
    assert (Hch : forall c, In c l ->
              exists c', cleaned_fuel fuel c = Ok c'
                         /\ sentence_eqb c' c = true).
    { intros c Hin. pose proof (depth_In op l c Hin) as Hlt. cbn in Hlt.
      apply IH; auto. lia. }
    destruct (@mapM_Ok _ _ (cleaned_fuel fuel) (fun _ => True) l)
      as (l' & E & _ & _).
    { apply Forall_forall. intros c Hin.
      destruct (Hch c Hin) as (c' & Ec & _). eauto. }
    assert (P1 : forall y, In y l' ->
              exists c, In c l /\ sentence_eqb y c = true).
    { intros y Hy. destruct (mapM_In _ _ E y Hy) as (c & Hin & Ec).
      destruct (Hch c Hin) as (c' & Ec' & Eq). exists c.
      split; [assumption|]. congruence. }
    assert (P2 : forall c, In c l ->
              exists y, In y l' /\ sentence_eqb y c = true).
    { intros c Hin. destruct (mapM_In_Ok _ _ E c Hin) as (y & Hy & Ec).
      destruct (Hch c Hin) as (c' & Ec' & Eq). exists y.
      split; [assumption|]. congruence. }
    assert (Hlen' : 2 <= List.length (frozenset l')).
    { destruct l as [|u [|v t]]; cbn in Hlen; try lia.
      destruct (P2 u (or_introl eq_refl)) as (u' & Hu' & Eu).
      destruct (P2 v (or_intror (or_introl eq_refl))) as (v' & Hv' & Ev).
      apply frozenset_two with u' v'; try assumption.
      rewrite (sentence_eqb_congr _ _ _ _ Eu Ev).
      now apply no_duplicate_two with t. }
    cbn. rewrite E. cbn.
    destruct (frozenset l') as [|a [|b t]] eqn:En; cbn in Hlen'; try lia.
    eexists. split; [reflexivity|].
    rewrite flatten_fixed.
    + unfold mkACBO. apply ACBO_eqb_true. split; [reflexivity|]. split.
      * intros x Hx. apply frozenset_In in Hx. rewrite <- En in Hx.
        apply frozenset_In in Hx. now apply P1.
      * intros c Hin. destruct (P2 c Hin) as (y & Hy & Ey).
        destruct (frozenset_repr y l' Hy) as (y1 & Hy1 & Ey1).
        rewrite En in Hy1.
        destruct (frozenset_repr y1 _ Hy1) as (y2 & Hy2 & Ey2).
        exists y2. split; [assumption|].
        apply sentence_eqb_trans with y1; [assumption|].
        now apply sentence_eqb_trans with y.
    + apply forallb_forall. intros x Hx. rewrite <- En in Hx.
      apply frozenset_In in Hx. destruct (P1 x Hx) as (c & Hin & Ex).
      now rewrite (sentence_eqb_is_ACBO op x c Ex), (Hna c Hin).
  - cbn in Hw, Hc. apply andb_true_iff in Hw, Hc.
    destruct Hw as [W1 W2], Hc as [C1 C2].
    destruct (IH f1 ltac:(lia) W1 C1) as (g1 & E1 & Eg1).
    destruct (IH f2 ltac:(lia) W2 C2) as (g2 & E2 & Eg2).
    cbn. rewrite E1. cbn. rewrite E2. cbn.
    eexists. split; [reflexivity|]. cbn. now rewrite Eg1, Eg2.
  - cbn in Hw, Hc. rewrite !andb_true_iff in Hw. apply andb_true_iff in Hc.
    destruct Hw as [[Hp W1] W2], Hc as [C1 C2].
    apply eqb_prop in Hp.
    destruct (IH f1 ltac:(lia) W1 C1) as (g1 & E1 & Eg1).
    destruct (IH f2 ltac:(lia) W2 C2) as (g2 & E2 & Eg2).
    cbn. rewrite E1. cbn. rewrite E2. cbn.
    eexists. split; [reflexivity|]. rewrite mkIFF_pair.
    rewrite (sentence_eqb_congr _ _ _ _ Eg1 Eg2), <- Hp. cbn.
    rewrite eqb_reflx, Eg1, Eg2. cbn. destruct p; [reflexivity|].
    now rewrite !orb_true_r.
  - cbn in Hw, Hc. apply andb_true_iff in Hc. destruct Hc as [Hy Hc].
    destruct (IH s ltac:(lia) Hw Hc) as (s' & E & Es).
    cbn. rewrite Hy, E. cbn.
    eexists. split; [reflexivity|]. cbn.
    rewrite Es, var_is_refl. now destruct q.
Qed.

(** C6: whatever the sentence, [cleaned] returns on it, returns on its own
    result, and the second result equals the first:
    [S.cleaned().cleaned() == S.cleaned()]. *)
Theorem cleaned_idempotent s :
  well_formed s = true ->
  exists r, cleaned s = Ok r
            /\ exists r', cleaned r = Ok r' /\ sentence_eqb r' r = true.
Proof.
  intros Hs. unfold cleaned.
  destruct (@cleaned_fuel_total (S (depth s)) s) as (r & E & _); [lia|].
  exists r. split; [assumption|].
  destruct (cleaned_fuel_clean _ _ _ Hs E) as [Hw Hc].
  apply cleaned_fuel_fixed; auto.
Qed.

Lemma cleaned_idempotent_witness :
  exists r, cleaned cleaned_sample = Ok r
            /\ exists r', cleaned r = Ok r' /\ sentence_eqb r' r = true.
Proof.
  apply (cleaned_idempotent cleaned_sample). reflexivity.
Defined.

(** ** Totality *)

(** [Implies] and [IFF] have no [negated_inwards], and every other class
    asks each of its operands for it: on a sentence that holds an [Implies]
    or an [IFF] the call raises [AttributeError], whatever the flag. *)
Lemma negated_inwards_AttributeError s :
  only_basic s = false ->
  forall negate, negated_inwards s negate = Raise AttributeError.
Proof.
  induction s as [n c|s IH|op l IH|f1 f2 IH1 IH2|p f1 f2 IH1 IH2|q x s IH]
    using sentence_induction; cbn [only_basic negated_inwards];
    intros Hs negate; try discriminate; try reflexivity.
  - now apply IH.
  - assert (E : mapM (fun cont => negated_inwards cont negate) l
                = Raise AttributeError).
    { induction IH as [|c r Hc _ IHr]; cbn in Hs; [discriminate|].
      cbn [mapM]. destruct (only_basic c) eqn:Ec.
      - destruct (negated_inwards_outcome c Ec negate) as (y & -> & _).
        cbn in Hs. cbn [bind]. now rewrite (IHr Hs).
      - now rewrite (Hc eq_refl negate). }
    now rewrite E.
  - now rewrite (IH Hs negate).
Qed.

(** C8, as the code has it: on well-formed operands the constructors build
    well-formed sentences, and on every well-formed sentence [simplified]
    and [cleaned] return a well-formed sentence, [substitute] and
    [skolemised] return a well-formed sentence or raise the [ValueError] of
    [Quantifier.substitute], and [negated_inwards] returns a well-formed
    sentence when the sentence holds no [Implies] and no [IFF], as the result
    of [simplified] does.  On an [Implies] and on an [IFF], and on every
    sentence that holds one, [negated_inwards] raises [AttributeError],
    whatever its flag. *)
Theorem operations_total :
  (forall op l, l <> [] -> Forall (fun c => well_formed c = true) l ->
                well_formed (mkACBO op l) = true)
  /\ (forall a b, well_formed a = true -> well_formed b = true ->
                  well_formed (mkIFF a b) = true)
  /\ (forall s, well_formed s = true ->
       well_formed (simplified s) = true
       /\ (exists r, cleaned s = Ok r /\ well_formed r = true)
       /\ (forall subst,
             (exists r, substitute s subst = Ok r /\ well_formed r = true)
             \/ substitute s subst = Raise ValueError)
       /\ (forall object_id variables k,
             (exists r k', skolemised object_id s variables k = Ok (r, k')
                           /\ well_formed r = true)
             \/ skolemised object_id s variables k = Raise ValueError)
       /\ (only_basic s = true -> forall negate,
             exists r, negated_inwards s negate = Ok r
                       /\ well_formed r = true)
       /\ (exists r, negated_inwards (simplified s) false = Ok r
                     /\ well_formed r = true))
  /\ (forall f1 f2 negate,
        negated_inwards (Implies f1 f2) negate = Raise AttributeError)
  /\ (forall p f1 f2 negate,
        negated_inwards (IFF p f1 f2) negate = Raise AttributeError)
  /\ (forall s, only_basic s = false -> forall negate,
        negated_inwards s negate = Raise AttributeError).
Proof.
  split; [exact mkACBO_well_formed|]. split; [exact mkIFF_well_formed|].
  split; [|split; [reflexivity|split;
                   [reflexivity|exact negated_inwards_AttributeError]]].
  intros s Hs. split; [now apply simplified_well_formed|].
  assert (Hneg : forall t, well_formed t = true -> only_basic t = true ->
                 forall negate, exists r, negated_inwards t negate = Ok r
                                          /\ well_formed r = true).
  { intros t Ht Hb negate.
    destruct (negated_inwards_outcome t Hb negate) as (r & E & _).
    exists r. split; [assumption|].
    eapply negated_inwards_well_formed; eassumption. }
  repeat split.
  - unfold cleaned.
    destruct (@cleaned_fuel_total (S (depth s)) s) as (r & E & _); [lia|].
    exists r. split; [assumption|].
    now destruct (cleaned_fuel_clean _ _ _ Hs E).
  - intros subst. pose proof (substitute_outcome subst s) as H.
    destruct (quantifies s subst); [now right|].
    destruct H as (r & E). left. exists r. split; [assumption|].
    eapply substitute_well_formed; eassumption.
  - intros object_id variables k. unfold skolemised.
    destruct (@skolemised_fuel_outcome object_id (S (depth s)) s variables k)
      as [(r & k' & E & _)|[E _]]; [lia| |now right].
    left. exists r, k'. split; [assumption|].
    eapply skolemised_fuel_well_formed; eassumption.
  - now apply Hneg.
  - apply Hneg.
    + now apply simplified_well_formed.
    + apply simplified_no_Implies_IFF.
Qed.

Lemma operations_total_witness :
  well_formed (mkACBO OpAnd [P_x; nullary "Q"]) = true
  /\ well_formed (mkIFF P_x P_x) = true
  /\ (exists r, cleaned cleaned_sample = Ok r /\ well_formed r = true)
  /\ (exists r, negated_inwards negated_inwards_sample false = Ok r
                /\ well_formed r = true)
  /\ negated_inwards (Not (mkACBO OpAnd [P_x; mkIFF P_x (nullary "Q")])) true
     = Raise AttributeError.
Proof.
  destruct operations_total as (H1 & H2 & H3 & _ & _ & H6).
  split; [|split; [|split; [|split]]].
  - apply H1; [discriminate|]. repeat constructor.
  - apply H2; reflexivity.
  - apply (H3 cleaned_sample). reflexivity.
  - apply (H3 negated_inwards_sample); reflexivity.
  - apply H6. reflexivity.
Defined.

(** C8 as stated fails: [negated_inwards] raises [AttributeError] on the
    well-formed [Implies(P, Q)] and [IFF(P, Q)], with either flag,
    [distributed] raises [TypeError] on the well-formed [And(P, Q)], and
    [cnf] raises [AttributeError] on the well-formed [P(x)]. *)
Lemma operations_raise :
  well_formed P_implies_Q = true
  /\ negated_inwards P_implies_Q false = Raise AttributeError
  /\ negated_inwards P_implies_Q true = Raise AttributeError
  /\ well_formed (mkIFF (nullary "P") (nullary "Q")) = true
  /\ negated_inwards (mkIFF (nullary "P") (nullary "Q")) false
     = Raise AttributeError
  /\ negated_inwards (mkIFF (nullary "P") (nullary "Q")) true
     = Raise AttributeError
  /\ well_formed P_and_Q = true
  /\ distributed P_and_Q = Raise TypeError
  /\ well_formed P_x = true
  /\ cnf sample_object_id P_x = Raise AttributeError.
Proof. repeat split. Qed.

(** ** Identity of quantified variables *)

(** The quantifiers of a result hold variable objects of the sentence the
    method was called on: no method makes or renames a variable. *)
Lemma frozenset_bound_variables x l :
  In x (flat_map bound_variables (frozenset l)) ->
  In x (flat_map bound_variables l).
Proof.
  rewrite !in_flat_map. intros (c & Hc & Hx). exists c.
  split; [now apply frozenset_In|assumption].
Qed.

Lemma Implies_simplified_bound_variables x s1 s2 :
  In x (bound_variables (Implies_simplified s1 s2)) ->
  In x (bound_variables s1) \/ In x (bound_variables s2).
Proof.
  intros H. apply frozenset_bound_variables in H. cbn in H.
  rewrite app_nil_r in H. now apply in_app_or in H.
Qed.

Lemma simplified_bound_variables x s :
  In x (bound_variables (simplified s)) -> In x (bound_variables s).
Proof.
  induction s as [n c|s IH|op l IH|f1 f2 IH1 IH2|p f1 f2 IH1 IH2|q y s IH]
    using sentence_induction; cbn [simplified].
  - trivial.
  - exact IH.
  - intros H. apply frozenset_bound_variables in H. cbn.
    rewrite in_flat_map in *. destruct H as (c' & Hc' & Hx).
    apply in_map_iff in Hc'. destruct Hc' as (c & <- & Hc). exists c.
    split; [assumption|]. rewrite Forall_forall in IH. now apply IH.
  - intros H. apply Implies_simplified_bound_variables in H. cbn.
    apply in_or_app. tauto.
  - intros H. apply frozenset_bound_variables in H. cbn in H.
    rewrite app_nil_r in H. cbn. apply in_or_app.
    apply in_app_or in H.
    destruct H as [H|H]; apply Implies_simplified_bound_variables in H;
      tauto.
  - cbn. intros [H|H]; auto.
Qed.

Lemma negated_inwards_bound_variables x s :
  forall negate r, negated_inwards s negate = Ok r ->
  In x (bound_variables r) -> In x (bound_variables s).
Proof.
  induction s as [n c|s IH|op l IH|f1 f2 IH1 IH2|p f1 f2 IH1 IH2|q y s IH]
    using sentence_induction; intros negate r; cbn [negated_inwards];
    try discriminate.
  - destruct negate; intros [= <-]; trivial.
  - apply IH.
  - destruct (mapM (fun cont => negated_inwards cont negate) l)
      as [l'| |] eqn:E; cbn; try discriminate.
    intros [= <-] H. apply frozenset_bound_variables in H.
    rewrite in_flat_map in *. destruct H as (c' & Hc' & Hx).
    destruct (mapM_In _ _ E c' Hc') as (c & Hc & Ec). exists c.
    split; [assumption|]. rewrite Forall_forall in IH. eapply IH; eauto.
  - destruct (negated_inwards s negate) as [c'| |] eqn:E; cbn;
      try discriminate.
    intros [= <-]. cbn. intros [H|H]; [now left|right]. eapply IH; eauto.
Qed.

Lemma rebuilt_bound_variables_In x s :
  forall r, rebuilt s r ->
  In x (bound_variables r) -> In x (bound_variables s).
Proof.
  induction s as [n c|s IH|op l IH|f1 f2 IH1 IH2|p f1 f2 IH1 IH2|q y s IH]
    using sentence_induction; intros r H; inversion H; subst; cbn.
  - trivial.
  - now apply IH.
  - rewrite !in_flat_map. intros (c' & Hc' & Hx).
    destruct (H3 c' Hc') as (c & Hc & Hcc). exists c.
    split; [assumption|]. rewrite Forall_forall in IH. eapply IH; eauto.
  - rewrite !in_app_iff. intros [Hx|Hx]; eauto.
  - rewrite !in_app_iff. intros [Hx|Hx]; eauto.
  - intros [Hx|Hx]; eauto.
Qed.

Lemma cleaned_fuel_bound_variables x fuel :
  forall s r, cleaned_fuel fuel s = Ok r ->
  In x (bound_variables r) -> In x (bound_variables s).
Proof.
  induction fuel as [|fuel IH]; intros s r; cbn; [discriminate|].
  destruct s as [n c|s|op l|f1 f2|p f1 f2|q y s].
  - now intros [= <-].
  - destruct (cleaned_fuel fuel s) as [c'| |] eqn:E; cbn; try discriminate.
    intros [= <-]. cbn. eapply IH; eauto.
  - destruct (mapM (cleaned_fuel fuel) l) as [l'| |] eqn:E; cbn;
      try discriminate.
    assert (Hl' : forall y, In y (frozenset l') ->
                  In x (bound_variables y) ->
                  In x (flat_map bound_variables l)).
    { intros y Hy Hx. apply frozenset_In in Hy.
      destruct (mapM_In _ _ E y Hy) as (c & Hc & Ec).
      apply in_flat_map. exists c. split; [assumption|]. eapply IH; eauto. }
    destruct (frozenset l') as [|a [|b t]].
    + intros [= <-] H. apply frozenset_bound_variables in H.
      unfold flatten in H. cbn in H. destruct H.
    + intros Hr Hx. apply (Hl' a); [now left|]. eapply IH; eauto.
    + intros [= <-] H. apply frozenset_bound_variables in H.
      apply in_flat_map in H. destruct H as (e & He & Hx).
      apply flatten_In in He.
      destruct He as (c & Hc & [[_ ->]|(lc & -> & He)]).
      * now apply (Hl' c).
      * apply (Hl' _ Hc). cbn. apply in_flat_map. eauto.
  - destruct (cleaned_fuel fuel f1) as [g1| |] eqn:E1; cbn; try discriminate.
    destruct (cleaned_fuel fuel f2) as [g2| |] eqn:E2; cbn; try discriminate.
    intros [= <-]. cbn. rewrite !in_app_iff. intros [H|H]; eauto.
  - destruct (cleaned_fuel fuel f1) as [g1| |] eqn:E1; cbn; try discriminate.
    destruct (cleaned_fuel fuel f2) as [g2| |] eqn:E2; cbn; try discriminate.
    intros [= <-]. rewrite mkIFF_pair. cbn. rewrite !in_app_iff.
    intros [H|H]; eauto.
  - destruct (var_in y (free_variables s)).
    + destruct (cleaned_fuel fuel s) as [c'| |] eqn:E; cbn; try discriminate.
      intros [= <-]. cbn. intros [H|H]; [now left|right]. eapply IH; eauto.
    + intros E H. cbn. right. eapply IH; eauto.
Qed.

Lemma quantifier_free_bound_variables s :
  quantifier_free s = true -> bound_variables s = [].
Proof.
  induction s as [n c|s IH|op l IH|f1 f2 IH1 IH2|p f1 f2 IH1 IH2|q y s IH]
    using sentence_induction; cbn; try discriminate; auto.
  - rewrite forallb_forall. intros H.
    induction IH as [|c r Hc _ IHr]; cbn; [reflexivity|].
    rewrite Hc, IHr; auto.
    + intros e He. apply H. now right.
    + apply H. now left.
  - rewrite andb_true_iff. intros [H1 H2]. now rewrite IH1, IH2.
  - rewrite andb_true_iff. intros [H1 H2]. now rewrite IH1, IH2.
Qed.

Lemma Quant_eqb q x y b b' :
  sentence_eqb b b' = true ->
  (sentence_eqb (Quant q x b) (Quant q y b') = true <-> var_id x = var_id y).
Proof.
  intros E. cbn. rewrite E, <- var_is_true. destruct q; cbn; tauto.
Qed.

(** * Further properties *)

(** ** Equality *)

(** X1: [==] is an equivalence on sentences and on arguments: it is
    reflexive, symmetric and transitive. *)
Theorem eq_is_an_equivalence :
  (forall a, sentence_eqb a a = true)
  /\ (forall a b, sentence_eqb a b = sentence_eqb b a)
  /\ (forall a b c, sentence_eqb a b = true -> sentence_eqb b c = true ->
                    sentence_eqb a c = true)
  /\ (forall t, term_eqb t t = true)
  /\ (forall t u, term_eqb t u = term_eqb u t)
  /\ (forall t u w, term_eqb t u = true -> term_eqb u w = true ->
                    term_eqb t w = true).
Proof.
  repeat split.
  - apply sentence_eqb_refl.
  - intros a b. apply sentence_eqb_sym.
  - intros a b c. apply sentence_eqb_trans.
  - apply term_eqb_refl.
  - intros t u. apply term_eqb_sym.
  - intros t u w. apply term_eqb_trans.
Qed.

Lemma eq_is_an_equivalence_witness :
  sentence_eqb (mkACBO OpAnd [P_x; nullary "Q"; P_x])
               (mkACBO OpAnd [nullary "Q"; P_x]) = true.
Proof.
  apply (proj1 (proj2 (proj2 eq_is_an_equivalence))
           _ (mkACBO OpAnd [P_x; nullary "Q"])); reflexivity.
Defined.

(** Two lists with the same elements up to [==] make equal frozensets. *)
Lemma mkACBO_eqb op l l' :
  (forall x, In x l -> exists y, In y l' /\ sentence_eqb x y = true) ->
  (forall y, In y l' -> exists x, In x l /\ sentence_eqb x y = true) ->
  sentence_eqb (mkACBO op l) (mkACBO op l') = true.
Proof.
  intros H1 H2. unfold mkACBO. apply ACBO_eqb_true.
  split; [reflexivity|]. split.
  - intros x Hx. apply frozenset_In in Hx.
    destruct (H1 x Hx) as (y & Hy & E).
    destruct (frozenset_repr y l' Hy) as (y' & Hy' & E').
    exists y'. split; [assumption|].
    apply sentence_eqb_trans with y; [assumption|].
    now rewrite sentence_eqb_sym.
  - intros y Hy. apply frozenset_In in Hy.
    destruct (H2 y Hy) as (x & Hx & E).
    destruct (frozenset_repr x l Hx) as (x' & Hx' & E').
    exists x'. split; [assumption|].
    now apply sentence_eqb_trans with x.
Qed.

(** The same against a content as it is. *)
Lemma mkACBO_eqb_ACBO op l l' :
  (forall x, In x l -> exists y, In y l' /\ sentence_eqb x y = true) ->
  (forall y, In y l' -> exists x, In x l /\ sentence_eqb x y = true) ->
  sentence_eqb (mkACBO op l) (ACBO op l') = true.
Proof.
  intros H1 H2. unfold mkACBO. apply ACBO_eqb_true.
  split; [reflexivity|]. split.
  - intros x Hx. apply frozenset_In in Hx. now apply H1.
  - intros y Hy. destruct (H2 y Hy) as (x & Hx & E).
    destruct (frozenset_repr x l Hx) as (x' & Hx' & E').
    exists x'. split; [assumption|].
    now apply sentence_eqb_trans with x.
Qed.

(** X2: [And] and [Or] do not see the order of their operands nor their
    repetition: two calls whose operands are the same up to [==] build equal
    sentences, while an [And] never equals an [Or]. *)
Theorem And_Or_hold_sets op l l' :
  (forall x, In x l -> exists y, In y l' /\ sentence_eqb x y = true) ->
  (forall y, In y l' -> exists x, In x l /\ sentence_eqb x y = true) ->
  sentence_eqb (mkACBO op l) (mkACBO op l') = true
  /\ sentence_eqb (mkACBO OpAnd l) (mkACBO OpOr l') = false.
Proof.
  intros H1 H2. split; [now apply mkACBO_eqb|reflexivity].
Qed.

Lemma And_Or_hold_sets_witness :
  sentence_eqb (mkACBO OpOr [P_x; nullary "Q"; P_x])
               (mkACBO OpOr [nullary "Q"; P_x]) = true
  /\ sentence_eqb (mkACBO OpAnd [P_x; nullary "Q"; P_x])
                  (mkACBO OpOr [nullary "Q"; P_x]) = false.
Proof.
  apply (And_Or_hold_sets OpOr).
  - intros x [<-|[<-|[<-|[]]]]; eexists; (split; [|apply sentence_eqb_refl]);
      cbn; tauto.
  - intros y [<-|[<-|[]]]; eexists; (split; [|apply sentence_eqb_refl]);
      cbn; tauto.
Defined.

Lemma frozenset_no_duplicate_fixed l :
  no_duplicate l = true -> frozenset l = l.
Proof.
  induction l as [|x r IH]; cbn; [reflexivity|].
  rewrite andb_true_iff, negb_true_iff. intros [Hx Hr].
  rewrite (IH Hr). f_equal. clear IH Hr. unfold set_in in Hx.
  induction r as [|y t IH]; cbn in *; [reflexivity|].
  apply orb_false_iff in Hx. destruct Hx as [E1 E2].
  rewrite E1. cbn. f_equal. now apply IH.
Qed.

Lemma well_formed_IFF_pair p f1 f2 :
  well_formed (IFF p f1 f2) = true -> p = sentence_eqb f1 f2.
Proof.
  cbn. rewrite !andb_true_iff. intros [[H _] _]. now apply eqb_prop.
Qed.

(** X3: [copy()] of a well-formed sentence returns that very sentence:
    calling the class again on the content finds nothing to collapse. *)
Theorem copy_is_identical s : well_formed s = true -> copy s = s.
Proof.
  destruct s as [n c|s|op l|f1 f2|p f1 f2|q x s]; intros Hs; cbn;
    try reflexivity.
  - apply well_formed_ACBO in Hs. destruct Hs as (_ & Hnd & _).
    unfold mkACBO. now rewrite frozenset_no_duplicate_fixed.
  - rewrite mkIFF_pair. now rewrite <- (well_formed_IFF_pair _ _ _ Hs).
Qed.

Lemma copy_is_identical_witness : copy cleaned_sample = cleaned_sample.
Proof. apply copy_is_identical. reflexivity. Defined.

(** ** Substitution in arguments *)

Lemma existsb_flat_map (A B : Type) (f : B -> bool) (g : A -> list B) l :
  existsb f (flat_map g l) = existsb (fun a => existsb f (g a)) l.
Proof.
  induction l as [|a r IH]; cbn; [reflexivity|].
  now rewrite existsb_app, IH.
Qed.

Lemma substituted_flag dic t :
  snd (substituted t dic)
  = existsb (fun x => sub_mem x dic) (term_free_variables t).
Proof.
  induction t as [v|n c IH] using term_induction; cbn.
  - destruct (sub_mem v dic); reflexivity.
  - rewrite existsb_flat_map.
    induction IH as [|t r Ht _ IHr]; cbn; [reflexivity|].
    now rewrite Ht, IHr.
Qed.

Lemma substituted_unchanged dic t :
  snd (substituted t dic) = false -> fst (substituted t dic) = t.
Proof.
  induction t as [v|n c IH] using term_induction; cbn.
  - destruct (sub_mem v dic); cbn; [discriminate|reflexivity].
  - intros H. f_equal.
    induction IH as [|t r Ht _ IHr]; cbn in *; [reflexivity|].
    apply orb_false_iff in H. destruct H as [H1 H2].
    now rewrite (Ht H1), (IHr H2).
Qed.

(** X4: the flag that [Function.substituted] returns is [True] exactly when
    a variable of the term is a key of the substitution, and when it is
    [False] the term returned is the term itself. *)
Theorem substituted_reports_change dic t :
  snd (substituted t dic)
  = existsb (fun x => sub_mem x dic) (term_free_variables t)
  /\ (snd (substituted t dic) = false -> fst (substituted t dic) = t).
Proof.
  split; [apply substituted_flag|apply substituted_unchanged].
Qed.

Lemma substituted_reports_change_witness :
  fst (substituted f_x_y [(var_x', fn_a)]) = f_x_y.
Proof.
  apply (proj2 (substituted_reports_change [(var_x', fn_a)] f_x_y)).
  reflexivity.
Defined.

(** ** Free variables *)

Lemma var_in_cons x y l : var_in x (y :: l) = var_is x y || var_in x l.
Proof. reflexivity. Qed.

Lemma var_in_nil x : var_in x [] = false.
Proof. reflexivity. Qed.

Lemma var_in_congr x y l : var_is x y = true -> var_in x l = var_in y l.
Proof.
  intros E. unfold var_in. induction l as [|z r IH]; cbn; [reflexivity|].
  rewrite IH. f_equal.
  now rewrite (var_is_sym x z), (var_is_sym y z), (var_is_congr z x y E).
Qed.

Lemma free_variables_mkACBO_iff x op l :
  var_in x (free_variables (mkACBO op l)) = true <->
  exists e, In e l /\ var_in x (free_variables e) = true.
Proof.
  split.
  - unfold mkACBO. cbn [free_variables]. rewrite var_in_flat_map.
    intros (e & He & Hx). exists e. split; [now apply frozenset_In|exact Hx].
  - intros (e & He & Hx). now apply free_variables_mkACBO with e.
Qed.

Lemma free_variables_Implies_simplified x s1 s2 :
  var_in x (free_variables (Implies_simplified s1 s2))
  = var_in x (free_variables s1) || var_in x (free_variables s2).
Proof.
  apply eq_iff_eq_true. unfold Implies_simplified.
  rewrite free_variables_mkACBO_iff, orb_true_iff. split.
  - intros (e & [<-|[<-|[]]] & Hx); auto.
  - intros [H|H]; [exists (Not s1)|exists s2]; cbn; auto.
Qed.

Lemma simplified_free_variables x s :
  var_in x (free_variables (simplified s)) = var_in x (free_variables s).
Proof.
  induction s as [n c|s IH|op l IH|f1 f2 IH1 IH2|p f1 f2 IH1 IH2|q y s IH]
    using sentence_induction; cbn [simplified free_variables].
  - reflexivity.
  - exact IH.
  - apply eq_iff_eq_true.
    rewrite free_variables_mkACBO_iff, var_in_flat_map.
    rewrite Forall_forall in IH. split.
    + intros (e & He & Hx). apply in_map_iff in He.
      destruct He as (c & <- & Hc). exists c. split; [assumption|].
      now rewrite <- IH.
    + intros (c & Hc & Hx). exists (simplified c).
      split; [now apply in_map|]. now rewrite IH.
  - now rewrite free_variables_Implies_simplified, var_in_app, IH1, IH2.
  - apply eq_iff_eq_true.
    rewrite free_variables_mkACBO_iff, var_in_app, orb_true_iff,
      <- IH1, <- IH2.
    split.
    + intros (e & [<-|[<-|[]]] & Hx);
        rewrite free_variables_Implies_simplified in Hx;
        apply orb_true_iff in Hx; tauto.
    + intros H.
      exists (Implies_simplified (simplified f1) (simplified f2)).
      split; [now left|].
      rewrite free_variables_Implies_simplified. now apply orb_true_iff.
  - now rewrite !var_in_discard, IH.
Qed.

Lemma negated_inwards_free_variables x s :
  forall negate r, negated_inwards s negate = Ok r ->
  var_in x (free_variables r) = var_in x (free_variables s).
Proof.
  induction s as [n c|s IH|op l IH|f1 f2 IH1 IH2|p f1 f2 IH1 IH2|q y s IH]
    using sentence_induction; intros negate r; cbn [negated_inwards];
    try discriminate.
  - destruct negate; now intros [= <-].
  - apply IH.
  - destruct (mapM (fun cont => negated_inwards cont negate) l)
      as [l'| |] eqn:E; cbn; try discriminate.
    intros [= <-]. apply eq_iff_eq_true. cbn [free_variables].
    rewrite free_variables_mkACBO_iff, var_in_flat_map.
    rewrite Forall_forall in IH. split.
    + intros (e & He & Hx). destruct (mapM_In _ _ E e He) as (c & Hc & Ec).
      exists c. split; [assumption|]. now rewrite <- (IH c Hc negate e Ec).
    + intros (c & Hc & Hx).
      destruct (mapM_In_Ok _ _ E c Hc) as (e & He & Ec). exists e.
      split; [assumption|]. now rewrite (IH c Hc negate e Ec).
  - destruct (negated_inwards s negate) as [c'| |] eqn:E; cbn;
      try discriminate.
    intros [= <-]. cbn [free_variables].
    now rewrite !var_in_discard, (IH negate c' E).
Qed.

(** A free variable of what [cleaned] returns is a free variable of the
    sentence. *)
Lemma cleaned_fuel_free_variables_back x fuel :
  forall s r, cleaned_fuel fuel s = Ok r ->
  var_in x (free_variables r) = true -> var_in x (free_variables s) = true.
Proof.
  induction fuel as [|fuel IH]; intros s r; cbn; [discriminate|].
  destruct s as [n c|s|op l|f1 f2|p f1 f2|q y s].
  - now intros [= <-].
  - destruct (cleaned_fuel fuel s) as [c'| |] eqn:E; cbn; try discriminate.
    intros [= <-]. cbn. eapply IH; eauto.
  - destruct (mapM (cleaned_fuel fuel) l) as [l'| |] eqn:E; cbn;
      try discriminate.
    assert (Hl' : forall y, In y (frozenset l') ->
                  var_in x (free_variables y) = true ->
                  var_in x (flat_map free_variables l) = true).
    { intros y Hy Hx. apply frozenset_In in Hy.
      destruct (mapM_In _ _ E y Hy) as (c & Hc & Ec).
      apply var_in_flat_map. exists c. split; [assumption|].
      eapply IH; eauto. }
    destruct (frozenset l') as [|a [|b t]].
    + intros [= <-] H. apply free_variables_mkACBO_iff in H.
      destruct H as (e & He & _). apply flatten_In in He.
      destruct He as (c & [] & _).
    + intros Hr Hx. apply (Hl' a); [now left|]. eapply IH; eauto.
    + intros [= <-] H. apply free_variables_mkACBO_iff in H.
      destruct H as (e & He & Hx). apply flatten_In in He.
      destruct He as (c & Hc & [[_ ->]|(lc & -> & He)]).
      * now apply (Hl' c).
      * apply (Hl' _ Hc). cbn [free_variables]. apply var_in_flat_map.
        eauto.
  - destruct (cleaned_fuel fuel f1) as [g1| |] eqn:E1; cbn; try discriminate.
    destruct (cleaned_fuel fuel f2) as [g2| |] eqn:E2; cbn; try discriminate.
    intros [= <-]. cbn [free_variables].
    rewrite !var_in_app, !orb_true_iff. intros [H|H]; eauto.
  - destruct (cleaned_fuel fuel f1) as [g1| |] eqn:E1; cbn; try discriminate.
    destruct (cleaned_fuel fuel f2) as [g2| |] eqn:E2; cbn; try discriminate.
    intros [= <-]. rewrite mkIFF_pair. cbn [free_variables].
    rewrite !var_in_app, !orb_true_iff. intros [H|H]; eauto.
  - cbn [free_variables]. rewrite var_in_discard.
    destruct (var_in y (free_variables s)) eqn:Ey.
    + destruct (cleaned_fuel fuel s) as [c'| |] eqn:E; cbn; try discriminate.
      intros [= <-]. cbn [free_variables].
      rewrite var_in_discard, !andb_true_iff. intros [H1 H2].
      split; [assumption|]. eapply IH; eauto.
    + intros E Hx. pose proof (IH _ _ E Hx) as Hs. rewrite Hs, andb_true_r.
      destruct (var_is y x) eqn:Eyx; [|reflexivity].
      rewrite (var_in_congr y x _ Eyx) in Ey. congruence.
Qed.

(** X5: two equal sentences have the same free variables. *)
Theorem equal_sentences_free_variables a b :
  sentence_eqb a b = true ->
  forall x, var_in x (free_variables a) = var_in x (free_variables b).
Proof.
  intros E x. apply eq_iff_eq_true. split.
  - now apply sentence_eqb_free_variables_incl.
  - apply sentence_eqb_free_variables_incl. now rewrite sentence_eqb_sym.
Qed.

Lemma equal_sentences_free_variables_witness :
  var_in var_x (free_variables (mkACBO OpAnd [P_x; nullary "Q"]))
  = var_in var_x (free_variables (mkACBO OpAnd [nullary "Q"; P_x; P_x])).
Proof.
  apply (equal_sentences_free_variables
           (mkACBO OpAnd [P_x; nullary "Q"])
           (mkACBO OpAnd [nullary "Q"; P_x; P_x])).
  reflexivity.
Defined.

(** X6: the variable of a quantifier is never free in the quantifier, and
    any other variable is free in it exactly when it is free in the body. *)
Theorem Quantifier_free_variables q x c :
  var_in x (free_variables (Quant q x c)) = false
  /\ forall y, var_is x y = false ->
       var_in y (free_variables (Quant q x c)) = var_in y (free_variables c).
Proof.
  cbn [free_variables]. split.
  - now rewrite var_in_discard, var_is_refl.
  - intros y E. now rewrite var_in_discard, E.
Qed.

Lemma Quantifier_free_variables_witness :
  var_in var_y (free_variables ForAll_x_P_x_y)
  = var_in var_y (free_variables P_x_y).
Proof.
  apply (proj2 (Quantifier_free_variables QForAll var_x P_x_y)).
  reflexivity.
Defined.

(** X7: [simplified] keeps the free variables: a variable is free in the
    result exactly when it is free in the sentence. *)
Theorem simplified_keeps_free_variables s x :
  var_in x (free_variables (simplified s)) = var_in x (free_variables s).
Proof. apply simplified_free_variables. Qed.

(** X8: [negated_inwards] keeps the free variables: when it returns, a
    variable is free in the result exactly when it is free in the
    sentence. *)
Theorem negated_inwards_keeps_free_variables s negate r x :
  negated_inwards s negate = Ok r ->
  var_in x (free_variables r) = var_in x (free_variables s).
Proof. apply negated_inwards_free_variables. Qed.

Lemma negated_inwards_keeps_free_variables_witness :
  var_in var_x (free_variables (mkACBO OpOr [Not P_x; nullary "Q"]))
  = var_in var_x (free_variables negated_inwards_sample).
Proof.
  apply (negated_inwards_keeps_free_variables negated_inwards_sample false).
  reflexivity.
Defined.

(** X9: [cleaned] keeps the free variables: a variable is free in what it
    returns exactly when it is free in the sentence, although quantifiers and
    operands are dropped. *)
Theorem cleaned_keeps_free_variables s r x :
  cleaned s = Ok r ->
  var_in x (free_variables r) = var_in x (free_variables s).
Proof.
  unfold cleaned. intros E. apply eq_iff_eq_true. split.
  - now apply cleaned_fuel_free_variables_back with (1 := E).
  - now apply cleaned_fuel_free_variables with (1 := E).
Qed.

Lemma cleaned_keeps_free_variables_witness :
  var_in var_y
    (free_variables
       (mkACBO OpAnd [nullary "P"; nullary "Q"; nullary "R";
                      ForAll var_y (Predicate "P" [Var var_y])]))
  = var_in var_y (free_variables cleaned_sample).
Proof.
  apply (cleaned_keeps_free_variables cleaned_sample). reflexivity.
Defined.

(** ** Substitution in sentences *)

Lemma sub_mem_congr x y subst :
  var_is x y = true -> sub_mem x subst = sub_mem y subst.
Proof.
  intros E. induction subst as [|[z t] r IH]; cbn; [reflexivity|].
  rewrite IH. f_equal.
  now rewrite (var_is_sym x z), (var_is_sym y z), (var_is_congr z x y E).
Qed.

Lemma sub_get_miss x subst : sub_mem x subst = false -> sub_get subst x = Var x.
Proof.
  induction subst as [|[z t] r IH]; cbn; [reflexivity|].
  rewrite orb_false_iff. intros [E1 E2]. now rewrite E1, IH.
Qed.

Lemma substitute_arg_substituted subst t :
  substitute_arg subst t = fst (substituted t subst).
Proof.
  destruct t as [v|n c]; cbn; [|reflexivity].
  destruct (sub_mem v subst) eqn:E; cbn; [reflexivity|].
  now apply sub_get_miss.
Qed.

Lemma existsb_false_In (A : Type) (f : A -> bool) l x :
  existsb f l = false -> In x l -> f x = false.
Proof.
  intros H Hx. destruct (f x) eqn:E; [|reflexivity].
  rewrite <- H. symmetry. apply existsb_exists. eauto.
Qed.

Lemma mapM_fixed (A : Type) (f : A -> outcome A) l :
  (forall x, In x l -> f x = Ok x) -> mapM f l = Ok l.
Proof.
  induction l as [|x r IH]; cbn; intros H; [reflexivity|].
  rewrite (H x (or_introl eq_refl)), IH; [reflexivity|].
  intros y Hy. apply H. now right.
Qed.

Lemma map_fixed (A : Type) (f : A -> A) l :
  (forall x, In x l -> f x = x) -> map f l = l.
Proof.
  induction l as [|x r IH]; cbn; intros H; [reflexivity|].
  rewrite (H x (or_introl eq_refl)), IH; [reflexivity|].
  intros y Hy. apply H. now right.
Qed.

Lemma substitute_fixed subst s :
  well_formed s = true ->
  existsb (fun x => sub_mem x subst) (all_variables s) = false ->
  quantifies s subst = false ->
  substitute s subst = Ok s.
Proof.
  induction s as [n c|s IH|op l IH|f1 f2 IH1 IH2|p f1 f2 IH1 IH2|q y s IH]
    using sentence_induction; cbn [all_variables quantifies substitute];
    intros Hw Hk Hq.
  - rewrite map_fixed; [reflexivity|]. intros t Ht.
    rewrite substitute_arg_substituted. apply substituted_unchanged.
    rewrite substituted_flag. rewrite existsb_flat_map in Hk.
    exact (existsb_false_In _ _ _ _ Hk Ht).
  - now rewrite IH.
  - apply well_formed_ACBO in Hw. destruct Hw as (_ & Hnd & Hw).
    rewrite Forall_forall in IH, Hw. rewrite existsb_flat_map in Hk.
    rewrite mapM_fixed.
    + cbn. unfold mkACBO. now rewrite frozenset_no_duplicate_fixed.
    + intros c Hc. apply IH; auto.
      * exact (existsb_false_In _ _ _ _ Hk Hc).
      * exact (existsb_false_In _ _ _ _ Hq Hc).
  - cbn in Hw. apply andb_true_iff in Hw. destruct Hw as [W1 W2].
    rewrite existsb_app in Hk. apply orb_false_iff in Hk, Hq.
    destruct Hk as [K1 K2], Hq as [Q1 Q2].
    now rewrite IH1, IH2.
  - pose proof (well_formed_IFF_pair _ _ _ Hw) as Hp.
    cbn in Hw. rewrite !andb_true_iff in Hw. destruct Hw as [[_ W1] W2].
    rewrite existsb_app in Hk. apply orb_false_iff in Hk, Hq.
    destruct Hk as [K1 K2], Hq as [Q1 Q2].
    rewrite IH1, IH2; auto. cbn. now rewrite mkIFF_pair, <- Hp.
  - apply orb_false_iff in Hq. destruct Hq as [Q1 Q2].
    rewrite Q1, IH; auto.
Qed.

(** X10: a substitution none of whose keys is an argument variable or a
    quantified variable of a well-formed sentence returns that very
    sentence; so does the empty substitution on every well-formed
    sentence. *)
Theorem substitute_unmentioned_keys subst s :
  well_formed s = true ->
  no_key subst (all_variables s) = true ->
  quantifies s subst = false ->
  substitute s subst = Ok s.
Proof.
  unfold no_key. rewrite negb_true_iff. apply substitute_fixed.
Qed.

Lemma substitute_unmentioned_keys_witness :
  substitute ForAll_x_P_x_y [(var_x', fn_a)] = Ok ForAll_x_P_x_y.
Proof.
  apply substitute_unmentioned_keys; reflexivity.
Defined.

Lemma substituted_free_variables x subst t :
  var_in x (term_free_variables (fst (substituted t subst))) = true ->
  (var_in x (term_free_variables t) = true /\ sub_mem x subst = false)
  \/ exists y, var_in y (term_free_variables t) = true
               /\ sub_mem y subst = true
               /\ var_in x (term_free_variables (sub_get subst y)) = true.
Proof.
  induction t as [v|n c IH] using term_induction;
    cbn [substituted term_free_variables].
  - destruct (sub_mem v subst) eqn:E; cbn [fst].
    + intros H. right. exists v. rewrite var_in_cons, var_is_refl. auto.
    + cbn [term_free_variables]. intros H. left. split; [exact H|].
      rewrite var_in_cons, var_in_nil, orb_false_r in H.
      now rewrite (sub_mem_congr x v subst H).
  - cbn [fst term_free_variables]. rewrite map_map, !var_in_flat_map.
    intros (t' & Ht' & Hx). apply in_map_iff in Ht'.
    destruct Ht' as (t & <- & Ht). rewrite Forall_forall in IH.
    destruct (IH t Ht Hx) as [[H1 H2]|(y & H1 & H2 & H3)].
    + left. split; [|assumption]. now exists t.
    + right. exists y. split; [|auto]. apply var_in_flat_map. now exists t.
Qed.

Lemma substitute_free_variables x subst s :
  forall r, substitute s subst = Ok r ->
  var_in x (free_variables r) = true ->
  (var_in x (free_variables s) = true /\ sub_mem x subst = false)
  \/ exists y, var_in y (free_variables s) = true
               /\ sub_mem y subst = true
               /\ var_in x (term_free_variables (sub_get subst y)) = true.
Proof.
  induction s as [n c|s IH|op l IH|f1 f2 IH1 IH2|p f1 f2 IH1 IH2|q z s IH]
    using sentence_induction; intros r; cbn [substitute].
  - intros [= <-]. cbn [free_variables]. rewrite !var_in_flat_map.
    intros (t' & Ht' & Hx). apply in_map_iff in Ht'.
    destruct Ht' as (t & <- & Ht). rewrite substitute_arg_substituted in Hx.
    destruct (substituted_free_variables x subst t Hx)
      as [[H1 H2]|(y & H1 & H2 & H3)].
    + left. split; [|assumption]. now exists t.
    + right. exists y. split; [|auto]. apply var_in_flat_map. now exists t.
  - destruct (substitute s subst) as [c'| |] eqn:E; cbn; try discriminate.
    intros [= <-]. cbn [free_variables]. now apply IH.
  - destruct (mapM (fun c => substitute c subst) l) as [l'| |] eqn:E; cbn;
      try discriminate.
    intros [= <-]. rewrite free_variables_mkACBO_iff.
    intros (e & He & Hx). destruct (mapM_In _ _ E e He) as (c & Hc & Ec).
    rewrite Forall_forall in IH. cbn [free_variables].
    destruct (IH c Hc e Ec Hx) as [[H1 H2]|(y & H1 & H2 & H3)].
    + left. split; [|assumption]. apply var_in_flat_map. now exists c.
    + right. exists y. split; [|auto]. apply var_in_flat_map. now exists c.
  - destruct (substitute f1 subst) as [g1| |] eqn:E1; cbn; try discriminate.
    destruct (substitute f2 subst) as [g2| |] eqn:E2; cbn; try discriminate.
    intros [= <-]. cbn [free_variables]. rewrite !var_in_app, orb_true_iff.
    intros [Hx|Hx];
      [destruct (IH1 _ eq_refl Hx) as [[H1 H2]|(y & H1 & H2 & H3)]
      |destruct (IH2 _ eq_refl Hx) as [[H1 H2]|(y & H1 & H2 & H3)]];
      try (left; split; [now rewrite H1, ?orb_true_r|assumption]);
      right; exists y; rewrite var_in_app, H1, ?orb_true_r; auto.
  - destruct (substitute f1 subst) as [g1| |] eqn:E1; cbn; try discriminate.
    destruct (substitute f2 subst) as [g2| |] eqn:E2; cbn; try discriminate.
    intros [= <-]. rewrite mkIFF_pair. cbn [free_variables].
    rewrite !var_in_app, orb_true_iff.
    intros [Hx|Hx];
      [destruct (IH1 _ eq_refl Hx) as [[H1 H2]|(y & H1 & H2 & H3)]
      |destruct (IH2 _ eq_refl Hx) as [[H1 H2]|(y & H1 & H2 & H3)]];
      try (left; split; [now rewrite H1, ?orb_true_r|assumption]);
      right; exists y; rewrite var_in_app, H1, ?orb_true_r; auto.
  - destruct (sub_mem z subst) eqn:Ez; try discriminate.
    destruct (substitute s subst) as [c'| |] eqn:E; cbn; try discriminate.
    intros [= <-]. cbn [free_variables].
    rewrite !var_in_discard, andb_true_iff. intros [Hz Hx].
    destruct (IH _ eq_refl Hx) as [[H1 H2]|(y & H1 & H2 & H3)].
    + left. now rewrite Hz, H1.
    + right. exists y. rewrite var_in_discard, H1, andb_true_r.
      split; [|auto]. destruct (var_is z y) eqn:Ezy; [|reflexivity].
      rewrite (sub_mem_congr z y subst Ezy) in Ez. congruence.
Qed.

(** X11: what is free in the result of [substitute] comes from the
    sentence or from the terms put in: a free variable of the result is a
    free variable of the sentence that is not a key, or it occurs in the term
    bound to a key that is free in the sentence. *)
Theorem substitute_brings_no_other_variable subst s r x :
  substitute s subst = Ok r ->
  var_in x (free_variables r) = true ->
  (var_in x (free_variables s) = true /\ sub_mem x subst = false)
  \/ exists y, var_in y (free_variables s) = true
               /\ sub_mem y subst = true
               /\ var_in x (term_free_variables (sub_get subst y)) = true.
Proof. apply substitute_free_variables. Qed.

Lemma substitute_brings_no_other_variable_witness :
  (var_in var_x (free_variables ForAll_x_P_x_y) = true
   /\ sub_mem var_x [(var_y, Var var_x')] = false)
  \/ exists y, var_in y (free_variables ForAll_x_P_x_y) = true
               /\ sub_mem y [(var_y, Var var_x')] = true
               /\ var_in var_x'
                    (term_free_variables (sub_get [(var_y, Var var_x')] y))
                  = true.
Proof.
  apply (substitute_brings_no_other_variable [(var_y, Var var_x')]
           ForAll_x_P_x_y
           (ForAll var_x (Predicate "P" [Var var_x; Var var_x'])) var_x');
    reflexivity.
Defined.

(** ** Containment *)

Lemma var_in_flat_map_existsb (A : Type) (f : A -> list variable) x l :
  var_in x (flat_map f l) = existsb (fun a => var_in x (f a)) l.
Proof. unfold var_in. apply existsb_flat_map. Qed.

Lemma existsb_ext_In (A : Type) (f g : A -> bool) l :
  (forall a, In a l -> f a = g a) -> existsb f l = existsb g l.
Proof.
  induction l as [|a r IH]; cbn; intros H; [reflexivity|].
  rewrite (H a (or_introl eq_refl)), IH; [reflexivity|].
  intros b Hb. apply H. now right.
Qed.

Lemma Function_contains_variable x t :
  Function_contains t (Argument (Var x)) = var_in x (term_free_variables t).
Proof.
  induction t as [v|n c IH] using term_induction;
    cbn [Function_contains term_free_variables term_is term_eqb].
  - now rewrite var_in_cons, var_in_nil, orb_false_r, var_is_sym.
  - rewrite var_in_flat_map_existsb. cbn [orb].
    apply existsb_ext_In. now apply Forall_forall.
Qed.

Lemma contains_variable x s :
  contains s (Argument (Var x)) = var_in x (all_variables s).
Proof.
  induction s as [n c|s IH|op l IH|f1 f2 IH1 IH2|p f1 f2 IH1 IH2|q y s IH]
    using sentence_induction;
    cbn [contains all_variables sentence_is orb]; auto.
  - rewrite var_in_flat_map_existsb. apply existsb_ext_In.
    intros t _. apply Function_contains_variable.
  - rewrite var_in_flat_map_existsb. apply existsb_ext_In.
    now apply Forall_forall.
  - now rewrite var_in_app, IH1, IH2.
  - now rewrite var_in_app, IH1, IH2.
Qed.

Lemma free_variables_all_variables x s :
  var_in x (free_variables s) = true -> var_in x (all_variables s) = true.
Proof.
  induction s as [n c|s IH|op l IH|f1 f2 IH1 IH2|p f1 f2 IH1 IH2|q y s IH]
    using sentence_induction; cbn [free_variables all_variables]; auto.
  - rewrite !var_in_flat_map. intros (c & Hc & Hx). exists c.
    split; [assumption|]. rewrite Forall_forall in IH. now apply IH.
  - rewrite !var_in_app, !orb_true_iff. intros [H|H]; auto.
  - rewrite !var_in_app, !orb_true_iff. intros [H|H]; auto.
  - rewrite var_in_discard, andb_true_iff. intros [_ H]. auto.
Qed.

Lemma quantifier_free_all_variables s :
  quantifier_free s = true -> free_variables s = all_variables s.
Proof.
  induction s as [n c|s IH|op l IH|f1 f2 IH1 IH2|p f1 f2 IH1 IH2|q y s IH]
    using sentence_induction;
    cbn [quantifier_free free_variables all_variables]; auto;
    try discriminate.
  - rewrite forallb_forall. intros H.
    induction IH as [|c r Hc _ IHr]; cbn; [reflexivity|].
    rewrite Hc, IHr; auto.
    + intros e He. apply H. now right.
    + apply H. now left.
  - rewrite andb_true_iff. intros [H1 H2]. now rewrite IH1, IH2.
  - rewrite andb_true_iff. intros [H1 H2]. now rewrite IH1, IH2.
Qed.

(** X12: a variable is [in] a sentence exactly when it is an argument, at
    any depth, of one of its predicates.  So every free variable of a
    sentence is [in] it, on a sentence without quantifiers the variables [in]
    it are its free variables, and the variable of a quantifier is not [in]
    the quantifier unless the body uses it. *)
Theorem contains_Variable s x :
  contains s (Argument (Var x)) = var_in x (all_variables s)
  /\ (var_in x (free_variables s) = true ->
      contains s (Argument (Var x)) = true)
  /\ (quantifier_free s = true ->
      contains s (Argument (Var x)) = var_in x (free_variables s))
  /\ (forall q, contains (Quant q x s) (Argument (Var x))
                = contains s (Argument (Var x))).
Proof.
  split; [apply contains_variable|]. split; [|split].
  - intros H. rewrite contains_variable.
    now apply free_variables_all_variables.
  - intros H. now rewrite contains_variable, quantifier_free_all_variables.
  - reflexivity.
Qed.

Lemma contains_Variable_witness :
  contains ForAll_x_P_x_y (Argument (Var var_y)) = true
  /\ contains And_Not_P_x_y_Q (Argument (Var var_x))
     = var_in var_x (free_variables And_Not_P_x_y_Q).
Proof.
  split.
  - apply (proj1 (proj2 (contains_Variable ForAll_x_P_x_y var_y))).
    reflexivity.
  - apply (proj1 (proj2 (proj2 (contains_Variable And_Not_P_x_y_Q var_x)))).
    reflexivity.
Defined.

Lemma Function_contains_Sentence t s :
  Function_contains t (Sentence s) = false.
Proof.
  induction t as [v|n c IH] using term_induction; cbn; [reflexivity|].
  induction IH as [|t r Ht _ IHr]; cbn; [reflexivity|].
  now rewrite Ht, IHr.
Qed.

Lemma contains_occurs_in s t :
  contains s (Sentence t) = true ->
  exists t', occurs_in t' s /\ sentence_eqb t' t = true.
Proof.
  induction s as [n c|s IH|op l IH|f1 f2 IH1 IH2|p f1 f2 IH1 IH2|q y s IH]
    using sentence_induction; cbn [contains sentence_is];
    rewrite orb_true_iff;
    (intros [H|H]; [eexists; split; [apply occurs_here|exact H]|]).
  - exfalso. apply existsb_exists in H. destruct H as (u & _ & Hu).
    now rewrite Function_contains_Sentence in Hu.
  - destruct (IH H) as (t' & Ht' & E). exists t'.
    split; [now apply occurs_Not|assumption].
  - apply existsb_exists in H. destruct H as (c & Hc & Hs).
    rewrite Forall_forall in IH. destruct (IH c Hc Hs) as (t' & Ht' & E).
    exists t'. split; [now apply occurs_ACBO with c|assumption].
  - apply orb_true_iff in H. destruct H as [H|H].
    + destruct (IH1 H) as (t' & Ht' & E). exists t'.
      split; [now apply occurs_Implies1|assumption].
    + destruct (IH2 H) as (t' & Ht' & E). exists t'.
      split; [now apply occurs_Implies2|assumption].
  - apply orb_true_iff in H. destruct H as [H|H].
    + destruct (IH1 H) as (t' & Ht' & E). exists t'.
      split; [now apply occurs_IFF1|assumption].
    + destruct (IH2 H) as (t' & Ht' & E). exists t'.
      split; [now apply occurs_IFF2|assumption].
  - destruct (IH H) as (t' & Ht' & E). exists t'.
    split; [now apply occurs_Quant|assumption].
Qed.

Lemma occurs_in_contains t' s :
  occurs_in t' s -> forall t, sentence_eqb t' t = true ->
  contains s (Sentence t) = true.
Proof.
  induction 1 as [|c _ IH|op l c Hc _ IH|f1 f2 _ IH|f1 f2 _ IH
                  |p f1 f2 _ IH|p f1 f2 _ IH|q x c _ IH];
    intros t E.
  - destruct t'; cbn [contains sentence_is]; now rewrite E.
  - cbn [contains]. rewrite (IH t E). apply orb_true_r.
  - cbn [contains]. apply orb_true_iff. right. apply existsb_exists.
    exists c. auto.
  - cbn [contains]. rewrite (IH t E). apply orb_true_r.
  - cbn [contains]. rewrite (IH t E). now rewrite !orb_true_r.
  - cbn [contains]. rewrite (IH t E). apply orb_true_r.
  - cbn [contains]. rewrite (IH t E). now rewrite !orb_true_r.
  - cbn [contains]. rewrite (IH t E). apply orb_true_r.
Qed.

(** X13: a sentence is [in] another exactly when it equals the sentence
    or a sentence met by going down its contents; no sentence is [in] an
    argument of a predicate. *)
Theorem contains_Sentence s t :
  (contains s (Sentence t) = true <->
   exists t', occurs_in t' s /\ sentence_eqb t' t = true)
  /\ forall u, Function_contains u (Sentence t) = false.
Proof.
  split; [split|].
  - apply contains_occurs_in.
  - intros (t' & Ht' & E). now apply occurs_in_contains with t'.
  - intros u. apply Function_contains_Sentence.
Qed.

Lemma contains_Sentence_witness :
  contains And_Not_P_x_y_Q (Sentence P_x_y) = true.
Proof.
  apply (proj1 (contains_Sentence And_Not_P_x_y_Q P_x_y)).
  exists P_x_y. split; [|reflexivity].
  apply occurs_ACBO with (Not P_x_y); [now left|].
  apply occurs_Not, occurs_here.
Defined.

(** ** Unification *)

Lemma tuple_eqb_same_length (A : Type) (eqb : A -> A -> bool) l :
  forall l', tuple_eqb eqb l l' = true -> List.length l = List.length l'.
Proof.
  induction l as [|x r IH]; intros [|y r']; cbn; try congruence.
  rewrite andb_true_iff. intros [_ H]. f_equal. now apply IH.
Qed.

Lemma unify_loop_equal step :
  (forall s a b, term_eqb a b = true -> step s a b = Some s) ->
  forall c c' s, tuple_eqb term_eqb c c' = true ->
                 unify_loop step s (combine c c') = Some s.
Proof.
  intros Hstep. induction c as [|a r IH]; intros [|b r'] s; cbn;
    try congruence.
  rewrite andb_true_iff. intros [E1 E2]. rewrite (Hstep s a b E1).
  now apply IH.
Qed.

Lemma Function_unify_pair_equal s a b :
  term_eqb a b = true -> Function_unify_pair s a b = Some s.
Proof. intros E. unfold Function_unify_pair. now rewrite E. Qed.

Lemma Predicate_unify_pair_equal s a b :
  term_eqb a b = true -> Predicate_unify_pair s a b = Some s.
Proof. intros E. unfold Predicate_unify_pair. now rewrite E. Qed.

(** X14: unifying two equal functions, or two equal predicates, returns
    the empty substitution: nothing is bound. *)
Theorem unify_equal_binds_nothing :
  (forall n c u, term_eqb (Function n c) u = true ->
                 Function_unify (Function n c) u = Some Substitution)
  /\ (forall n c q, sentence_eqb (Predicate n c) q = true ->
                    Predicate_unify (Predicate n c) q = Some Substitution).
Proof.
  split.
  - intros n c [v|n' c']; cbn; try discriminate.
    rewrite andb_true_iff. intros [E1 E2].
    rewrite E2, (tuple_eqb_same_length _ _ _ _ E1), Nat.eqb_refl. cbn.
    apply unify_loop_equal; [apply Function_unify_pair_equal|assumption].
  - intros n c [n' c'|s|op l|f1 f2|p f1 f2|q x s]; cbn; try discriminate.
    rewrite andb_true_iff. intros [E1 E2].
    rewrite E2, (tuple_eqb_same_length _ _ _ _ E1), Nat.eqb_refl. cbn.
    apply unify_loop_equal; [apply Predicate_unify_pair_equal|assumption].
Qed.

Lemma unify_equal_binds_nothing_witness :
  Function_unify f_x_y f_x_y = Some Substitution
  /\ Predicate_unify P_x_y P_x_y = Some Substitution.
Proof.
  split.
  - apply (proj1 unify_equal_binds_nothing). reflexivity.
  - apply (proj2 unify_equal_binds_nothing). reflexivity.
Defined.

Lemma Function_unify_pair_clash s a b :
  Function_unify_pair s a b = None <-> clash (a, b) = true.
Proof.
  unfold Function_unify_pair, clash. cbn [fst snd].
  destruct (term_eqb a b); cbn; [split; discriminate|].
  destruct a, b; cbn; split; congruence.
Qed.

Lemma Function_unify_loop_clash pairs :
  forall s, unify_loop Function_unify_pair s pairs = None <->
            existsb clash pairs = true.
Proof.
  induction pairs as [|[a b] r IH]; intros s; cbn [unify_loop existsb].
  - split; discriminate.
  - rewrite orb_true_iff, <- (Function_unify_pair_clash s a b).
    destruct (Function_unify_pair s a b) as [s'|].
    + rewrite (IH s'). split; [auto|]. intros [H|H]; [discriminate|exact H].
    + split; auto.
Qed.

(** X15: [Function.unify] returns [None] exactly when the other object is
    not a function, or the names differ, or the numbers of arguments differ,
    or two unequal functions face each other in the contents. *)
Theorem Function_unify_None n c other :
  Function_unify (Function n c) other = None <->
  match other with
  | Var _ => True
  | Function n' c' =>
      n <> n' \/ List.length c <> List.length c'
      \/ existsb clash (combine c c') = true
  end.
Proof.
  destruct other as [v|n' c']; cbn [Function_unify]; [tauto|].
  destruct (String.eqb_spec n n') as [->|Hn]; cbn [andb].
  - destruct (Nat.eqb_spec (List.length c) (List.length c')) as [Hl|Hl].
    + rewrite Function_unify_loop_clash. tauto.
    + tauto.
  - tauto.
Qed.

Lemma sub_mem_sub_set x s y t :
  sub_mem x (sub_set s y t) = var_is x y || sub_mem x s.
Proof.
  induction s as [|[z u] r IH]; cbn; [now rewrite orb_false_r|].
  destruct (var_is y z) eqn:E; cbn.
  - rewrite (var_is_congr x y z E).
    now destruct (var_is x z), (sub_mem x r).
  - rewrite IH. now destruct (var_is x z), (var_is x y), (sub_mem x r).
Qed.

Lemma sub_mem_sub_merge s' :
  forall s m x, sub_merge s s' = Some m ->
  sub_mem x m = sub_mem x s || sub_mem x s'.
Proof.
  induction s' as [|[y t] r IH]; intros s m x; cbn.
  - intros [= <-]. now rewrite orb_false_r.
  - destruct (sub_mem y s) eqn:E.
    + destruct (term_eqb (sub_get s y) t); [|discriminate].
      intros H. rewrite (IH _ _ x H).
      destruct (var_is x y) eqn:Exy; cbn; [|reflexivity].
      now rewrite (sub_mem_congr x y s Exy), E.
    + intros H. rewrite (IH _ _ x H), sub_mem_sub_set.
      now destruct (var_is x y), (sub_mem x s), (sub_mem x r).
Qed.

Lemma unify_loop_keys step x :
  (forall s a b s', step s a b = Some s' -> sub_mem x s' = true ->
     sub_mem x s = true \/ var_in x (term_free_variables a) = true
     \/ var_in x (term_free_variables b) = true) ->
  forall pairs s m, unify_loop step s pairs = Some m -> sub_mem x m = true ->
    sub_mem x s = true
    \/ exists p, In p pairs
                 /\ (var_in x (term_free_variables (fst p)) = true
                     \/ var_in x (term_free_variables (snd p)) = true).
Proof.
  intros Hstep. induction pairs as [|[a b] r IH]; intros s m; cbn.
  - intros [= <-]. auto.
  - destruct (step s a b) as [s'|] eqn:E; [|discriminate].
    intros H Hx. destruct (IH _ _ H Hx) as [Hs'|(p & Hp & Hv)].
    + destruct (Hstep _ _ _ _ E Hs') as [Hs|Hv]; [now left|].
      right. exists (a, b). split; [now left|exact Hv].
    + right. exists p. split; [now right|exact Hv].
Qed.

Lemma Function_unify_pair_keys x s a b s' :
  Function_unify_pair s a b = Some s' -> sub_mem x s' = true ->
  sub_mem x s = true \/ var_in x (term_free_variables a) = true
  \/ var_in x (term_free_variables b) = true.
Proof.
  unfold Function_unify_pair. destruct (negb (term_eqb a b)).
  - destruct a as [v|n c]; [|destruct b as [w|n' c']]; try discriminate;
      intros [= <-]; rewrite sub_mem_sub_set, orb_true_iff;
      (intros [H|H]; [|now left]); right;
      cbn [term_free_variables]; rewrite var_in_cons, H; auto.
  - intros [= <-]. auto.
Qed.

Lemma Function_unify_keys x a b m :
  Function_unify a b = Some m -> sub_mem x m = true ->
  var_in x (term_free_variables a) = true
  \/ var_in x (term_free_variables b) = true.
Proof.
  destruct a as [v|n c], b as [w|n' c']; cbn [Function_unify];
    try discriminate.
  destruct (String.eqb n n' && Nat.eqb (List.length c) (List.length c'));
    [|discriminate].
  intros H Hx.
  destruct (unify_loop_keys _ x (Function_unify_pair_keys x) _ _ _ H Hx)
    as [Hs|([t u] & Hp & [Hv|Hv])]; [discriminate| |]; cbn [fst snd] in Hv.
  - left. cbn [term_free_variables]. apply var_in_flat_map. exists t.
    split; [exact (in_combine_l _ _ _ _ Hp)|exact Hv].
  - right. cbn [term_free_variables]. apply var_in_flat_map. exists u.
    split; [exact (in_combine_r _ _ _ _ Hp)|exact Hv].
Qed.

Lemma Predicate_unify_pair_keys x s a b s' :
  Predicate_unify_pair s a b = Some s' -> sub_mem x s' = true ->
  sub_mem x s = true \/ var_in x (term_free_variables a) = true
  \/ var_in x (term_free_variables b) = true.
Proof.
  unfold Predicate_unify_pair. destruct (negb (term_eqb a b)).
  - destruct a as [v|n c]; [|destruct b as [w|n' c']].
    + intros [= <-]. rewrite sub_mem_sub_set, orb_true_iff.
      intros [H|H]; [|now left]. right. left.
      cbn [term_free_variables]. now rewrite var_in_cons, H.
    + intros [= <-]. rewrite sub_mem_sub_set, orb_true_iff.
      intros [H|H]; [|now left]. right. right.
      cbn [term_free_variables]. now rewrite var_in_cons, H.
    + destruct (Function_unify (Function n c) (Function n' c')) as [m|] eqn:E;
        [|discriminate].
      intros H Hx. rewrite (sub_mem_sub_merge _ _ _ x H) in Hx.
      apply orb_true_iff in Hx. destruct Hx as [Hx|Hx]; [now left|].
      right. exact (Function_unify_keys x _ _ _ E Hx).
  - intros [= <-]. auto.
Qed.

(** X16: the variables bound by a substitution that [unify] returns are
    variables of the two objects unified: arguments, at any depth, of one of
    the two predicates or functions. *)
Theorem unify_binds_their_variables :
  (forall a b m x, Function_unify a b = Some m -> sub_mem x m = true ->
     var_in x (term_free_variables a) = true
     \/ var_in x (term_free_variables b) = true)
  /\ (forall p q m x, Predicate_unify p q = Some m -> sub_mem x m = true ->
        var_in x (free_variables p) = true
        \/ var_in x (free_variables q) = true).
Proof.
  split.
  - intros a b m x. apply Function_unify_keys.
  - intros [n c|s|op l|f1 f2|p f1 f2|q x s] [n' c'|s'|op' l'|g1 g2|p' g1 g2|q' x' s']
      m y; cbn [Predicate_unify]; try discriminate.
    destruct (String.eqb n n' && Nat.eqb (List.length c) (List.length c'));
      [|discriminate].
    intros H Hy.
    destruct (unify_loop_keys _ y (Predicate_unify_pair_keys y) _ _ _ H Hy)
      as [Hs|([t u] & Hp & [Hv|Hv])]; [discriminate| |]; cbn [fst snd] in Hv.
    + left. cbn [free_variables]. apply var_in_flat_map. exists t.
      split; [exact (in_combine_l _ _ _ _ Hp)|exact Hv].
    + right. cbn [free_variables]. apply var_in_flat_map. exists u.
      split; [exact (in_combine_r _ _ _ _ Hp)|exact Hv].
Qed.

Lemma unify_binds_their_variables_witness :
  var_in var_x (free_variables P_x_a) = true
  \/ var_in var_x (free_variables P_b_a) = true.
Proof.
  apply (proj2 unify_binds_their_variables P_x_a P_b_a [(var_x, fn_b)]);
    reflexivity.
Defined.

(** *** Matching a pattern against a term without variables *)

Lemma sub_get_sub_set_same s x t : sub_get (sub_set s x t) x = t.
Proof.
  induction s as [|[z u] r IH]; cbn.
  - now rewrite var_is_refl.
  - destruct (var_is x z) eqn:E; cbn; now rewrite E.
Qed.

Lemma sub_get_sub_set_other s x t y :
  var_is y x = false -> sub_get (sub_set s x t) y = sub_get s y.
Proof.
  intros E. induction s as [|[z u] r IH]; cbn.
  - now rewrite E.
  - destruct (var_is x z) eqn:Exz; cbn.
    + destruct (var_is y z) eqn:Eyz; [|reflexivity].
      rewrite <- (var_is_congr y x z Exz) in Eyz. congruence.
    + now rewrite IH.
Qed.

Lemma ground_is_Function t : ground t = true -> is_Function t = true.
Proof. destruct t; [discriminate|reflexivity]. Qed.

Lemma ground_Function n c : ground (Function n c) = forallb ground c.
Proof.
  unfold ground at 1. cbn [term_free_variables].
  induction c as [|t r IH]; cbn [flat_map forallb]; [reflexivity|].
  rewrite <- IH. unfold ground.
  now destruct (term_free_variables t).
Qed.

Lemma ground_term_eqb a :
  forall b, ground a = true -> term_eqb a b = true -> a = b.
Proof.
  induction a as [v|n c IH] using term_induction; intros [w|n' c'];
    try discriminate.
  rewrite ground_Function. cbn [term_eqb].
  rewrite andb_true_iff, String.eqb_eq. intros Hg [E ->]. f_equal.
  revert c' Hg E. induction IH as [|t r Ht _ IHr]; intros [|u r']; cbn;
    try discriminate; [reflexivity|].
  rewrite !andb_true_iff. intros [G1 G2] [E1 E2].
  now rewrite (Ht u G1 E1), (IHr r' G2 E2).
Qed.

Lemma ground_unchanged subst t :
  ground t = true -> substitute_arg subst t = t.
Proof.
  intros Hg. rewrite substitute_arg_substituted.
  apply substituted_unchanged. rewrite substituted_flag.
  unfold ground in Hg. now destruct (term_free_variables t).
Qed.

Lemma ground_clash c :
  forall c', List.length c = List.length c' ->
  forallb ground c = true -> forallb ground c' = true ->
  tuple_eqb term_eqb c c' = false ->
  existsb clash (combine c c') = true.
Proof.
  induction c as [|a r IH]; intros [|b r']; cbn; try discriminate.
  rewrite !andb_true_iff. intros [= Hl] [G1 G2] [G3 G4] E.
  unfold clash at 1. cbn [fst snd].
  rewrite (ground_is_Function _ G1), (ground_is_Function _ G3).
  destruct (term_eqb a b); cbn in *; [|reflexivity].
  now apply IH.
Qed.

Lemma ground_Function_unify a b :
  ground a = true -> ground b = true -> term_eqb a b = false ->
  Function_unify a b = None.
Proof.
  destruct a as [v|n c], b as [w|n' c']; try discriminate.
  rewrite !ground_Function. cbn [term_eqb Function_unify]. intros G1 G2 E.
  destruct (String.eqb n n'); cbn [andb]; [|reflexivity].
  destruct (Nat.eqb_spec (List.length c) (List.length c')) as [Hl|Hl];
    [|reflexivity].
  apply Function_unify_loop_clash. apply ground_clash; auto.
  now rewrite andb_true_r in E.
Qed.

Section Matching.

Variable step : substitution -> term -> term -> option substitution.

Hypothesis step_variable :
  forall s x b, is_Function b = true -> step s (Var x) b = Some (sub_set s x b).

Hypothesis step_ground :
  forall s a b s', ground a = true -> ground b = true ->
                   step s a b = Some s' -> a = b /\ s' = s.

Lemma unify_loop_matches c :
  forall c' s m,
    linear_pattern c = true -> forallb ground c' = true ->
    unify_loop step s (combine c c') = Some m ->
    List.length c = List.length c' ->
    (forall y, var_in y (direct_variables c) = false ->
               sub_get m y = sub_get s y)
    /\ map (substitute_arg m) c = c'.
Proof.
  unfold linear_pattern.
  induction c as [|a r IH]; intros [|b r'] s m; cbn [combine unify_loop];
    try discriminate.
  - intros _ _ [= <-] _. auto.
  - cbn [forallb]. rewrite !andb_true_iff.
    intros [[Ha Hr] Hd] [Gb Gr'] H [= Hl].
    destruct a as [x|n ca].
    + rewrite (step_variable s x b (ground_is_Function _ Gb)) in H.
      cbn [direct_variables flat_map app distinct_variables] in Hd.
      apply andb_true_iff in Hd. destruct Hd as [Hx Hd].
      apply negb_true_iff in Hx.
      destruct (IH r' (sub_set s x b) m) as [K1 K2]; auto.
      { apply andb_true_iff. split; [exact Hr|exact Hd]. }
      split.
      * intros y. cbn [direct_variables flat_map app].
        rewrite var_in_cons, orb_false_iff. intros [E1 E2].
        rewrite (K1 y E2). now apply sub_get_sub_set_other.
      * cbn [map substitute_arg]. rewrite K2, (K1 x Hx).
        now rewrite sub_get_sub_set_same.
    + cbn in Ha.
      destruct (step s (Function n ca) b) as [s'|] eqn:E; [|discriminate].
      destruct (step_ground _ _ _ _ Ha Gb E) as [<- ->].
      destruct (IH r' s m) as [K1 K2]; auto.
      { apply andb_true_iff. split; [exact Hr|exact Hd]. }
      split; [exact K1|].
      cbn [map]. now rewrite K2, (ground_unchanged m _ Ha).
Qed.

End Matching.

Lemma Function_unify_pair_variable s x b :
  is_Function b = true ->
  Function_unify_pair s (Var x) b = Some (sub_set s x b).
Proof. destruct b; [discriminate|reflexivity]. Qed.

Lemma Predicate_unify_pair_variable s x b :
  is_Function b = true ->
  Predicate_unify_pair s (Var x) b = Some (sub_set s x b).
Proof. destruct b; [discriminate|reflexivity]. Qed.

Lemma Function_unify_pair_ground s a b s' :
  ground a = true -> ground b = true ->
  Function_unify_pair s a b = Some s' -> a = b /\ s' = s.
Proof.
  intros Ga Gb. unfold Function_unify_pair.
  destruct (term_eqb a b) eqn:E; cbn [negb].
  - intros [= <-]. split; [now apply ground_term_eqb|reflexivity].
  - destruct a, b; discriminate.
Qed.

Lemma Predicate_unify_pair_ground s a b s' :
  ground a = true -> ground b = true ->
  Predicate_unify_pair s a b = Some s' -> a = b /\ s' = s.
Proof.
  intros Ga Gb. unfold Predicate_unify_pair.
  destruct (term_eqb a b) eqn:E; cbn [negb].
  - intros [= <-]. split; [now apply ground_term_eqb|reflexivity].
  - rewrite (ground_Function_unify a b Ga Gb E).
    destruct a, b; discriminate.
Qed.



(** *** [Not.unify] *)

Lemma unify_Nots j :
  forall k n c n' c',
    unify (Nots j (Predicate n c)) (Nots k (Predicate n' c'))
    = Ok (if Nat.eqb j k
          then Predicate_unify (Predicate n c) (Predicate n' c')
          else None).
Proof.
  induction j as [|j IH]; intros [|k] n c n' c'; cbn [Nots unify Nat.eqb];
    try reflexivity.
  apply IH.
Qed.



(** ** Sentences that a pass leaves as they are *)

(** A generator expression each of whose elements evaluates to an equal
    sentence yields a list with the same elements up to [==]. *)
Lemma mapM_eqb (f : sentence -> outcome sentence) l :
  (forall c, In c l -> exists c', f c = Ok c' /\ sentence_eqb c' c = true) ->
  exists l', mapM f l = Ok l'
             /\ (forall y, In y l' ->
                   exists c, In c l /\ sentence_eqb y c = true)
             /\ (forall c, In c l ->
                   exists y, In y l' /\ sentence_eqb y c = true).
Proof.
  induction l as [|a r IH]; intros H; cbn [mapM].
  - exists []. split; [reflexivity|]. split; intros x [].
  - destruct (H a (or_introl eq_refl)) as (a' & -> & Ea).
    destruct (IH (fun c Hc => H c (or_intror Hc))) as (r' & -> & H1 & H2).
    cbn. exists (a' :: r'). split; [reflexivity|]. split.
    + intros y [<-|Hy].
      * exists a. split; [now left|assumption].
      * destruct (H1 y Hy) as (c & Hc & E). exists c.
        split; [now right|assumption].
    + intros c [<-|Hc].
      * exists a'. split; [now left|assumption].
      * destruct (H2 c Hc) as (y & Hy & E). exists y.
        split; [now right|assumption].
Qed.

Lemma map_eqb (f : sentence -> sentence) l :
  (forall c, In c l -> sentence_eqb (f c) c = true) ->
  sentence_eqb (mkACBO OpAnd (map f l)) (ACBO OpAnd l) = true
  /\ sentence_eqb (mkACBO OpOr (map f l)) (ACBO OpOr l) = true.
Proof.
  intros H. split; apply mkACBO_eqb_ACBO.
  - intros x Hx. apply in_map_iff in Hx. destruct Hx as (c & <- & Hc).
    exists c. auto.
  - intros c Hc. exists (f c). split; [now apply in_map|auto].
  - intros x Hx. apply in_map_iff in Hx. destruct Hx as (c & <- & Hc).
    exists c. auto.
  - intros c Hc. exists (f c). split; [now apply in_map|auto].
Qed.

Lemma simplified_fixed s :
  only_basic s = true -> sentence_eqb (simplified s) s = true.
Proof.
  induction s as [n c|s IH|op l IH|f1 f2 IH1 IH2|p f1 f2 IH1 IH2|q x s IH]
    using sentence_induction; cbn [only_basic simplified]; try discriminate.
  - intros _. apply sentence_eqb_refl.
  - exact IH.
  - rewrite forallb_forall. intros H. rewrite Forall_forall in IH.
    destruct (map_eqb simplified l (fun c Hc => IH c Hc (H c Hc))).
    now destruct op.
  - intros H. cbn [sentence_eqb]. rewrite (IH H), var_is_refl.
    now destruct q.
Qed.

(** X19: [simplified] leaves a sentence without [Implies] and [IFF] as it
    is, up to [==]; hence simplifying twice is simplifying once. *)
Theorem simplified_idempotent s :
  (only_basic s = true -> sentence_eqb (simplified s) s = true)
  /\ sentence_eqb (simplified (simplified s)) (simplified s) = true.
Proof.
  split; [apply simplified_fixed|].
  apply simplified_fixed, simplified_no_Implies_IFF.
Qed.

Lemma simplified_idempotent_witness :
  sentence_eqb (simplified negated_inwards_sample) negated_inwards_sample
  = true.
Proof.
  apply (proj1 (simplified_idempotent negated_inwards_sample)).
  reflexivity.
Defined.

Lemma negated_inwards_only_basic s :
  forall negate r, negated_inwards s negate = Ok r -> only_basic r = true.
Proof.
  induction s as [n c|s IH|op l IH|f1 f2 IH1 IH2|p f1 f2 IH1 IH2|q x s IH]
    using sentence_induction; intros negate r; cbn [negated_inwards];
    try discriminate.
  - destruct negate; now intros [= <-].
  - apply IH.
  - destruct (mapM (fun cont => negated_inwards cont negate) l)
      as [l'| |] eqn:E; cbn; try discriminate.
    intros [= <-]. apply mkACBO_only_basic, forallb_forall.
    apply Forall_forall. eapply mapM_Forall; [|exact E].
    rewrite Forall_forall in *. intros c Hc y Hy. exact (IH c Hc _ _ Hy).
  - destruct (negated_inwards s negate) as [c'| |] eqn:E; cbn;
      try discriminate.
    intros [= <-]. cbn. exact (IH _ _ E).
Qed.

Lemma negated_inwards_fixed s :
  only_basic s = true -> Not_wraps_Predicate s = true ->
  exists r, negated_inwards s false = Ok r /\ sentence_eqb r s = true.
Proof.
  induction s as [n c|s IH|op l IH|f1 f2 IH1 IH2|p f1 f2 IH1 IH2|q x s IH]
    using sentence_induction;
    cbn [only_basic Not_wraps_Predicate negated_inwards];
    try discriminate.
  - intros _ _. eexists. split; [reflexivity|apply sentence_eqb_refl].
  - destruct s; try discriminate. intros _ _. cbn.
    eexists. split; [reflexivity|apply sentence_eqb_refl].
  - rewrite !forallb_forall. intros H1 H2. rewrite Forall_forall in IH.
    destruct (mapM_eqb (fun cont => negated_inwards cont false) l)
      as (l' & -> & K1 & K2).
    { intros c Hc. apply IH; auto. }
    cbn. eexists. split; [reflexivity|]. now apply mkACBO_eqb_ACBO.
  - intros H1 H2. destruct (IH H1 H2) as (r & -> & E). cbn.
    eexists. split; [reflexivity|]. cbn [sentence_eqb].
    rewrite E, var_is_refl. now destruct q.
Qed.

(** X20: [negated_inwards()] leaves a sentence in negation normal form as
    it is, up to [==]; so on a simplified sentence, pushing the
    negations inwards twice is pushing them once. *)
Theorem negated_inwards_idempotent s :
  (negation_normal s = true ->
   exists r, negated_inwards s false = Ok r /\ sentence_eqb r s = true)
  /\ (only_basic s = true ->
      exists r, negated_inwards s false = Ok r
                /\ exists r', negated_inwards r false = Ok r'
                              /\ sentence_eqb r' r = true).
Proof.
  split.
  - unfold negation_normal. rewrite andb_true_iff. intros [H1 H2].
    now apply negated_inwards_fixed.
  - intros H. destruct (negated_inwards_outcome s H false) as (r & E & Hr).
    exists r. split; [assumption|].
    apply negated_inwards_fixed; [|assumption].
    exact (negated_inwards_only_basic s false r E).
Qed.

Lemma negated_inwards_idempotent_witness :
  exists r, negated_inwards negated_inwards_sample false = Ok r
            /\ exists r', negated_inwards r false = Ok r'
                          /\ sentence_eqb r' r = true.
Proof.
  apply (proj2 (negated_inwards_idempotent negated_inwards_sample)).
  reflexivity.
Defined.

Section Skolemisation_fixed.

Variable object_id : nat -> string.

Lemma skolem_list_eqb (f : sentence -> nat -> outcome (sentence * nat)) l k :
  (forall c, In c l ->
     exists c', f c k = Ok (c', k) /\ sentence_eqb c' c = true) ->
  exists l', skolem_list f l k = Ok (l', k)
             /\ (forall y, In y l' ->
                   exists c, In c l /\ sentence_eqb y c = true)
             /\ (forall c, In c l ->
                   exists y, In y l' /\ sentence_eqb y c = true).
Proof.
  induction l as [|a r IH]; intros H; cbn [skolem_list].
  - exists []. split; [reflexivity|]. split; intros x [].
  - destruct (H a (or_introl eq_refl)) as (a' & -> & Ea).
    destruct (IH (fun c Hc => H c (or_intror Hc))) as (r' & E & H1 & H2).
    cbn. cbn in E. rewrite E. cbn.
    exists (a' :: r'). split; [reflexivity|]. split.
    + intros y [<-|Hy].
      * exists a. split; [now left|assumption].
      * destruct (H1 y Hy) as (c & Hc & E'). exists c.
        split; [now right|assumption].
    + intros c [<-|Hc].
      * exists a'. split; [now left|assumption].
      * destruct (H2 c Hc) as (y & Hy & E'). exists y.
        split; [now right|assumption].
Qed.

Lemma mkIFF_eqb g1 g2 p f1 f2 :
  well_formed (IFF p f1 f2) = true ->
  sentence_eqb g1 f1 = true -> sentence_eqb g2 f2 = true ->
  sentence_eqb (mkIFF g1 g2) (IFF p f1 f2) = true.
Proof.
  intros Hw E1 E2. rewrite (well_formed_IFF_pair _ _ _ Hw), mkIFF_pair.
  rewrite (sentence_eqb_congr _ _ _ _ E1 E2). cbn [sentence_eqb].
  rewrite eqb_reflx, E1, E2. cbn.
  destruct (sentence_eqb f1 f2); [reflexivity|]. now rewrite !orb_true_r.
Qed.

Lemma skolemised_fuel_fixed fuel :
  forall s variables k,
    depth s < fuel -> well_formed s = true -> quantifier_free s = true ->
    exists r, skolemised_fuel object_id fuel s variables k = Ok (r, k)
              /\ sentence_eqb r s = true.
Proof.
  induction fuel as [|fuel IH]; intros s variables k Hd Hw Hq; [lia|].
  destruct s as [n c|s|op l|f1 f2|p f1 f2|q x s];
    cbn [quantifier_free] in Hq; cbn [depth] in Hd;
    cbn [skolemised_fuel]; try discriminate.
  - eexists. split; [reflexivity|apply sentence_eqb_refl].
  - destruct (IH s variables k ltac:(lia) Hw Hq) as (r & -> & E). cbn.
    eexists. split; [reflexivity|exact E].
  - rewrite forallb_forall in Hq.
    apply well_formed_ACBO in Hw. destruct Hw as (_ & _ & Hw).
    rewrite Forall_forall in Hw.
    destruct (skolem_list_eqb
                (fun c => skolemised_fuel object_id fuel c variables) l k)
      as (l' & -> & K1 & K2).
    { intros c Hc. apply IH; auto.
      pose proof (depth_In op l c Hc) as Hlt. cbn [depth] in Hlt. lia. }
    cbn. eexists. split; [reflexivity|]. now apply mkACBO_eqb_ACBO.
  - apply andb_true_iff in Hq. destruct Hq as [Q1 Q2].
    cbn in Hw. apply andb_true_iff in Hw. destruct Hw as [W1 W2].
    destruct (IH f1 variables k ltac:(lia) W1 Q1) as (r1 & -> & E1). cbn.
    destruct (IH f2 variables k ltac:(lia) W2 Q2) as (r2 & -> & E2). cbn.
    eexists. split; [reflexivity|]. cbn [sentence_eqb]. now rewrite E1, E2.
  - apply andb_true_iff in Hq. destruct Hq as [Q1 Q2].
    pose proof Hw as Hw'.
    cbn in Hw. rewrite !andb_true_iff in Hw. destruct Hw as [[_ W1] W2].
    destruct (IH f1 variables k ltac:(lia) W1 Q1) as (r1 & -> & E1). cbn.
    destruct (IH f2 variables k ltac:(lia) W2 Q2) as (r2 & -> & E2). cbn.
    eexists. split; [reflexivity|]. now apply mkIFF_eqb.
Qed.

End Skolemisation_fixed.

(** X21: [skolemised] leaves a well-formed sentence without quantifiers as
    it is, up to [==], and takes no Skolem name for it. *)
Theorem skolemised_without_quantifier object_id s variables k :
  well_formed s = true -> quantifier_free s = true ->
  exists r, skolemised object_id s variables k = Ok (r, k)
            /\ sentence_eqb r s = true.
Proof.
  intros Hw Hq. unfold skolemised. apply skolemised_fuel_fixed; auto.
Qed.

Lemma skolemised_without_quantifier_witness :
  exists r, skolemised sample_object_id And_Not_P_x_y_Q [] 0 = Ok (r, 0)
            /\ sentence_eqb r And_Not_P_x_y_Q = true.
Proof.
  apply skolemised_without_quantifier; reflexivity.
Defined.

(** X22: what [cleaned] returns on a well-formed sentence is well formed
    and clean: the variable of every quantifier left is free in its body,
    and every [And] and [Or] left holds at least two operands, none of them
    of its own class. *)
Theorem cleaned_is_clean s r :
  well_formed s = true -> cleaned s = Ok r ->
  well_formed r = true /\ is_clean r = true.
Proof. intros Hw E. exact (cleaned_fuel_clean _ _ _ Hw E). Qed.

Lemma cleaned_is_clean_witness :
  well_formed
    (mkACBO OpAnd [nullary "P"; nullary "Q"; nullary "R";
                   ForAll var_y (Predicate "P" [Var var_y])]) = true
  /\ is_clean
       (mkACBO OpAnd [nullary "P"; nullary "Q"; nullary "R";
                      ForAll var_y (Predicate "P" [Var var_y])]) = true.
Proof.
  apply (cleaned_is_clean cleaned_sample); reflexivity.
Defined.

(** ** The passes in a row *)

Lemma rebuilt_only_basic s :
  forall r, rebuilt s r -> only_basic s = true -> only_basic r = true.
Proof.
  induction s as [n c|s IH|op l IH|f1 f2 IH1 IH2|p f1 f2 IH1 IH2|q y s IH]
    using sentence_induction; intros r H; inversion H; subst;
    cbn [only_basic]; try discriminate; auto.
  rewrite !forallb_forall. intros Hl r Hr.
  destruct (H3 r Hr) as (s & Hs & Hsr).
  rewrite Forall_forall in IH. eapply IH; eauto.
Qed.

Lemma rebuilt_Not_wraps_Predicate s :
  forall r, rebuilt s r ->
  Not_wraps_Predicate s = true -> Not_wraps_Predicate r = true.
Proof.
  induction s as [n c|s IH|op l IH|f1 f2 IH1 IH2|p f1 f2 IH1 IH2|q y s IH]
    using sentence_induction; intros r H; inversion H; subst;
    cbn [Not_wraps_Predicate]; auto.
  - destruct s; try discriminate. inversion H1; subst. reflexivity.
  - rewrite !forallb_forall. intros Hl r Hr.
    destruct (H3 r Hr) as (s & Hs & Hsr).
    rewrite Forall_forall in IH. eapply IH; eauto.
  - rewrite !andb_true_iff. intros [E1 E2]. eauto.
  - rewrite !andb_true_iff. intros [E1 E2]. eauto.
Qed.

Lemma skolemised_fuel_shape object_id fuel :
  forall s variables k r k',
    skolemised_fuel object_id fuel s variables k = Ok (r, k') ->
    only_basic s = true -> Not_wraps_Predicate s = true ->
    only_basic r = true /\ Not_wraps_Predicate r = true.
Proof.
  induction fuel as [|fuel IH]; intros s variables k r k';
    cbn [skolemised_fuel]; [discriminate|].
  destruct s as [n c|s|op l|f1 f2|p f1 f2|q x s];
    cbn [only_basic Not_wraps_Predicate]; try discriminate.
  - intros [= <- _]. auto.
  - destruct s; try discriminate. destruct fuel; cbn; [discriminate|].
    intros [= <- _]. auto.
  - destruct (skolem_list
                (fun c => skolemised_fuel object_id fuel c variables) l k)
      as [[l' k1]| |] eqn:E; cbn; try discriminate.
    intros [= <- _]. rewrite !forallb_forall. intros H1 H2.
    assert (H12 : Forall (fun r => only_basic r = true
                                   /\ Not_wraps_Predicate r = true) l'
                  /\ List.length l' = List.length l).
    { eapply skolem_list_Forall; [|exact E].
      intros c Hc k0 r0 k0' E0. exact (IH c _ _ _ _ E0 (H1 c Hc) (H2 c Hc)). }
    destruct H12 as [H _]. rewrite Forall_forall in H.
    unfold mkACBO. cbn [only_basic Not_wraps_Predicate].
    rewrite !forallb_forall.
    split; intros y Hy; apply frozenset_In in Hy; now apply H.
  - destruct q.
    + apply IH.
    + destruct (substitute s
                  [(x, Function (object_id k) (map Var variables))])
        as [c'| |] eqn:E; cbn; try discriminate.
      intros Hr H1 H2. pose proof (substitute_rebuilt _ _ E) as Hb.
      apply (IH _ _ _ _ _ Hr).
      * exact (rebuilt_only_basic s c' Hb H1).
      * exact (rebuilt_Not_wraps_Predicate s c' Hb H2).
Qed.

Lemma cleaned_fuel_shape fuel :
  forall s r, cleaned_fuel fuel s = Ok r ->
    only_basic s = true -> Not_wraps_Predicate s = true ->
    quantifier_free s = true ->
    only_basic r = true /\ Not_wraps_Predicate r = true
    /\ quantifier_free r = true.
Proof.
  induction fuel as [|fuel IH]; intros s r; cbn [cleaned_fuel];
    [discriminate|].
  destruct s as [n c|s|op l|f1 f2|p f1 f2|q x s];
    cbn [only_basic Not_wraps_Predicate quantifier_free];
    try discriminate.
  - intros [= <-]. auto.
  - destruct s; try discriminate. destruct fuel; cbn; [discriminate|].
    intros [= <-]. auto.
  - destruct (mapM (cleaned_fuel fuel) l) as [l'| |] eqn:E; cbn;
      try discriminate.
    rewrite !forallb_forall. intros Hr H1 H2 H3.
    assert (Hl' : forall y, In y (frozenset l') ->
                  only_basic y = true /\ Not_wraps_Predicate y = true
                  /\ quantifier_free y = true).
    { intros y Hy. apply frozenset_In in Hy.
      destruct (mapM_In _ _ E y Hy) as (c & Hc & Ec).
      exact (IH c y Ec (H1 c Hc) (H2 c Hc) (H3 c Hc)). }
    assert (Hfl : forall op' y, In y (flatten op' (frozenset l')) ->
                  only_basic y = true /\ Not_wraps_Predicate y = true
                  /\ quantifier_free y = true).
    { intros op' y Hy. apply flatten_In in Hy.
      destruct Hy as (c & Hc & [[_ ->]|(lc & -> & Hy)]); [now apply Hl'|].
      destruct (Hl' _ Hc) as (K1 & K2 & K3).
      cbn [only_basic Not_wraps_Predicate quantifier_free] in K1, K2, K3.
      rewrite forallb_forall in K1, K2, K3. auto. }
    destruct (frozenset l') as [|a [|b t]].
    + injection Hr as <-. unfold mkACBO, flatten. cbn. auto.
    + destruct (Hl' a (or_introl eq_refl)) as (K1 & K2 & K3).
      exact (IH a r Hr K1 K2 K3).
    + injection Hr as <-. unfold mkACBO.
      cbn [only_basic Not_wraps_Predicate quantifier_free].
      rewrite !forallb_forall.
      repeat split; intros y Hy; apply frozenset_In in Hy;
        now apply (Hfl op).
Qed.

(** X23: the part of [cnf] that runs before [distributed].  On a
    well-formed sentence, [simplified], [negated_inwards], [skolemised] and
    [cleaned] in a row return a well-formed, clean sentence in negation
    normal form and without quantifiers, or raise the [ValueError] of
    [Quantifier.substitute]; nothing else happens. *)
Theorem passes_before_distributed object_id s :
  well_formed s = true ->
  (exists r,
     (n <- negated_inwards (simplified s) false ;;
      k <- skolemised object_id n [] 0 ;; cleaned (fst k)) = Ok r
     /\ well_formed r = true /\ negation_normal r = true
     /\ quantifier_free r = true /\ is_clean r = true)
  \/ (n <- negated_inwards (simplified s) false ;;
      k <- skolemised object_id n [] 0 ;; cleaned (fst k)) = Raise ValueError.
Proof.
  intros Hw. pose proof (simplified_no_Implies_IFF s) as Hb.
  assert (Hw1 : well_formed (simplified s) = true)
    by now apply simplified_well_formed.
  destruct (negated_inwards_outcome (simplified s) Hb false)
    as (n & En & Hn2).
  pose proof (negated_inwards_only_basic _ _ _ En) as Hn1.
  assert (Hwn : well_formed n = true)
    by (eapply negated_inwards_well_formed; eassumption).
  rewrite En. cbn [bind]. unfold skolemised.
  destruct (@skolemised_fuel_outcome object_id (S (depth n)) n [] 0)
    as [(k & k' & Ek & Hq)|[Ek _]]; [lia| |rewrite Ek; now right].
  rewrite Ek. cbn [bind fst]. left.
  destruct (skolemised_fuel_shape _ _ _ _ _ _ _ Ek Hn1 Hn2) as [Hk1 Hk2].
  assert (Hwk : well_formed k = true)
    by (eapply skolemised_fuel_well_formed; eassumption).
  unfold cleaned.
  destruct (@cleaned_fuel_total (S (depth k)) k) as (r & Er & _); [lia|].
  exists r. split; [exact Er|].
  destruct (cleaned_fuel_clean _ _ _ Hwk Er) as [Hwr Hcr].
  destruct (cleaned_fuel_shape _ _ _ Er Hk1 Hk2 Hq) as (Hr1 & Hr2 & Hr3).
  unfold negation_normal. now rewrite Hwr, Hr1, Hr2, Hr3, Hcr.
Qed.

Lemma passes_before_distributed_witness :
  (exists r,
     (n <- negated_inwards (simplified ForAll_x_Exists_y) false ;;
      k <- skolemised sample_object_id n [] 0 ;; cleaned (fst k)) = Ok r
     /\ well_formed r = true /\ negation_normal r = true
     /\ quantifier_free r = true /\ is_clean r = true)
  \/ (n <- negated_inwards (simplified ForAll_x_Exists_y) false ;;
      k <- skolemised sample_object_id n [] 0 ;; cleaned (fst k))
     = Raise ValueError.
Proof.
  apply passes_before_distributed. reflexivity.
Defined.

Lemma distributed_outcome s :
  if plain s
  then exists r, distributed s = Ok r /\ plain r = true
                 /\ (well_formed s = true -> r = s)
  else distributed s = Raise TypeError
       \/ distributed s = Raise AttributeError.
Proof.
  induction s as [n c|s IH|op l IH|f1 f2 IH1 IH2|p f1 f2 IH1 IH2|q x s IH]
    using sentence_induction; cbn [plain distributed].
  - destruct c as [|t c]; cbn; [|now right].
    eexists. split; [reflexivity|]. auto.
  - destruct (plain s).
    + destruct IH as (r & -> & Hp & Hr). cbn.
      eexists. split; [reflexivity|]. split; [exact Hp|].
      cbn. intros Hw. now rewrite (Hr Hw).
    + destruct IH as [-> | ->]; cbn; auto.
  - now left.
  - destruct (plain f1); cbn [andb].
    + destruct IH1 as (r1 & -> & Hp1 & Hr1). cbn. destruct (plain f2).
      * destruct IH2 as (r2 & -> & Hp2 & Hr2). cbn.
        eexists. split; [reflexivity|]. cbn. rewrite Hp1, Hp2.
        split; [reflexivity|]. rewrite andb_true_iff. intros [W1 W2].
        now rewrite (Hr1 W1), (Hr2 W2).
      * destruct IH2 as [-> | ->]; cbn; auto.
    + destruct IH1 as [-> | ->]; cbn; auto.
  - destruct (plain f1); cbn [andb].
    + destruct IH1 as (r1 & -> & Hp1 & Hr1). cbn. destruct (plain f2).
      * destruct IH2 as (r2 & -> & Hp2 & Hr2). cbn.
        eexists. split; [reflexivity|]. rewrite mkIFF_pair. cbn.
        rewrite Hp1, Hp2. split; [reflexivity|]. intros Hw.
        pose proof (well_formed_IFF_pair _ _ _ Hw) as ->.
        rewrite !andb_true_iff in Hw. destruct Hw as [[_ W1] W2].
        now rewrite (Hr1 W1), (Hr2 W2).
      * destruct IH2 as [-> | ->]; cbn; auto.
    + destruct IH1 as [-> | ->]; cbn; auto.
  - destruct (plain s).
    + destruct IH as (r & -> & Hp & Hr). cbn.
      eexists. split; [reflexivity|]. split; [exact Hp|].
      cbn. intros Hw. now rewrite (Hr Hw).
    + destruct IH as [-> | ->]; cbn; auto.
Qed.

(** X24: [distributed] returns exactly on the sentences that hold no
    [And], no [Or] and no predicate with arguments, and what it returns on a
    well-formed one is the sentence itself; on every other sentence it raises
    [TypeError] or [AttributeError]. *)
Theorem distributed_returns_on_plain s :
  (plain s = true ->
   exists r, distributed s = Ok r
             /\ (well_formed s = true -> r = s))
  /\ (plain s = false ->
      distributed s = Raise TypeError
      \/ distributed s = Raise AttributeError).
Proof.
  pose proof (distributed_outcome s) as H. destruct (plain s).
  - split; [|discriminate]. intros _.
    destruct H as (r & E & _ & Hr). eauto.
  - split; [discriminate|]. auto.
Qed.

Lemma distributed_returns_on_plain_witness :
  (exists r, distributed Not_Not_P = Ok r
             /\ (well_formed Not_Not_P = true -> r = Not_Not_P))
  /\ (distributed P_x = Raise TypeError
      \/ distributed P_x = Raise AttributeError).
Proof.
  split.
  - apply (proj1 (distributed_returns_on_plain Not_Not_P)). reflexivity.
  - apply (proj2 (distributed_returns_on_plain P_x)). reflexivity.
Defined.

(** X25: [cnf] either raises or returns a predicate without arguments or
    the negation of one: it never returns a sentence that holds an [And], an
    [Or] or an argument, and it always comes to an end. *)
Theorem cnf_returns_a_plain_literal object_id s r :
  (cnf object_id s = Ok r ->
   exists n, r = Predicate n [] \/ r = Not (Predicate n []))
  /\ cnf object_id s <> Unfinished.
Proof.
  unfold cnf. pose proof (simplified_no_Implies_IFF s) as Hb.
  destruct (negated_inwards_outcome (simplified s) Hb false)
    as (n & En & Hn2).
  pose proof (negated_inwards_only_basic _ _ _ En) as Hn1.
  rewrite En. cbn [bind]. unfold skolemised.
  destruct (@skolemised_fuel_outcome object_id (S (depth n)) n [] 0)
    as [(k & k' & Ek & Hq)|[Ek _]]; [lia| |rewrite Ek; cbn; split; discriminate].
  rewrite Ek. cbn [bind fst].
  destruct (skolemised_fuel_shape _ _ _ _ _ _ _ Ek Hn1 Hn2) as [Hk1 Hk2].
  unfold cleaned.
  destruct (@cleaned_fuel_total (S (depth k)) k) as (c & Ec & _); [lia|].
  rewrite Ec. cbn [bind].
  destruct (cleaned_fuel_shape _ _ _ Ec Hk1 Hk2 Hq) as (Hc1 & Hc2 & Hc3).
  pose proof (distributed_outcome c) as Hd. split.
  - destruct c as [m a|c|op l|f1 f2|p f1 f2|q x c]; try discriminate.
    + destruct a as [|t a]; cbn; [|discriminate].
      intros [= <-]. eauto.
    + destruct c as [m a| | | | |]; try discriminate.
      destruct a as [|t a]; cbn; [|discriminate].
      intros [= <-]. eauto.
  - destruct (plain c).
    + destruct Hd as (r' & -> & _). discriminate.
    + destruct Hd as [-> | ->]; discriminate.
Qed.

Lemma cnf_returns_a_plain_literal_witness :
  exists n, nullary "P" = Predicate n [] \/ nullary "P" = Not (Predicate n []).
Proof.
  apply (proj1 (cnf_returns_a_plain_literal sample_object_id Not_Not_P
                  (nullary "P"))).
  reflexivity.
Defined.

(** X26: [Predicate.substitute] and [Function.substituted] rewrite a
    content in the same way: the arguments of [P(args).substitute(s)] are
    those of the term that [f(args).substituted(s)] returns, whatever the
    names, and there are as many as before. *)
Theorem Predicate_substitute_as_Function_substituted n m c subst :
  exists c',
    substitute (Predicate n c) subst = Ok (Predicate n c')
    /\ fst (substituted (Function m c) subst) = Function m c'
    /\ List.length c' = List.length c.
Proof.
  exists (map (substitute_arg subst) c). cbn [substitute substituted fst].
  split; [reflexivity|]. split; [|apply length_map].
  rewrite map_map. f_equal. apply map_ext. intros t.
  symmetry. apply substitute_arg_substituted.
Qed.

(** ** What the passes keep of the meaning *)

Section Interpretation_facts.

Variable D : Type.
Variable function_value : string -> list D -> D.
Variable predicate_holds : string -> list D -> Prop.

Local Abbreviation value := (term_value function_value).
Local Abbreviation says := (holds function_value predicate_holds).

Lemma holds_And rho l :
  says rho (ACBO OpAnd l) <-> forall c, In c l -> says rho c.
Proof.
  cbn [holds]. induction l as [|a r IH]; cbn [In].
  - split; [intros _ c []|trivial].
  - rewrite IH. split.
    + intros [Ha Hr] c [<-|Hc]; auto.
    + intros H. split; auto.
Qed.

Lemma holds_Or rho l :
  says rho (ACBO OpOr l) <-> exists c, In c l /\ says rho c.
Proof.
  cbn [holds]. induction l as [|a r IH]; cbn [In].
  - split; [intros []|intros (c & [] & _)].
  - rewrite IH. split.
    + intros [Ha|(c & Hc & H)]; [exists a|exists c]; auto.
    + intros (c & [<-|Hc] & H); [now left|right]. now exists c.
Qed.

Lemma term_value_eqb rho t :
  forall u, term_eqb t u = true -> value rho t = value rho u.
Proof.
  induction t as [v|n c IH] using term_induction; intros [w|m d];
    cbn [term_eqb term_value]; try discriminate.
  - intros E. apply var_is_true in E. now rewrite E.
  - rewrite andb_true_iff, String.eqb_eq. intros [E ->]. f_equal.
    revert d E. induction IH as [|t r Ht _ IHr]; intros [|u d]; cbn;
      try discriminate; [reflexivity|].
    rewrite andb_true_iff. intros [E1 E2].
    now rewrite (Ht u E1), (IHr d E2).
Qed.

Lemma tuple_value_eqb rho c :
  forall c', tuple_eqb term_eqb c c' = true ->
  map (value rho) c = map (value rho) c'.
Proof.
  induction c as [|t r IH]; intros [|u d]; cbn; try discriminate;
    [reflexivity|].
  rewrite andb_true_iff. intros [E1 E2].
  now rewrite (term_value_eqb rho t u E1), (IH d E2).
Qed.

Lemma holds_eqb a :
  forall b, sentence_eqb a b = true ->
  forall rho, says rho a <-> says rho b.
Proof.
  induction a as [n c|s IH|op l IH|f1 f2 IH1 IH2|p f1 f2 IH1 IH2|q x s IH]
    using sentence_induction;
    intros [n' c'|s'|op' l'|g1 g2|p' g1 g2|q' x' s']; try discriminate.
  - cbn [sentence_eqb holds]. rewrite andb_true_iff, String.eqb_eq.
    intros [E ->] rho.
    now rewrite (tuple_value_eqb rho c c' E).
  - cbn [sentence_eqb holds]. intros E rho. now rewrite (IH s' E rho).
  - rewrite ACBO_eqb_true. intros (<- & H1 & H2) rho.
    rewrite Forall_forall in IH. destruct op.
    + rewrite !holds_And. split; intros H c Hc.
      * destruct (H2 c Hc) as (x & Hx & E). apply (IH x Hx c E rho). auto.
      * destruct (H1 c Hc) as (y & Hy & E). apply (IH c Hc y E rho). auto.
    + rewrite !holds_Or. split; intros (c & Hc & H).
      * destruct (H1 c Hc) as (y & Hy & E). exists y.
        split; [assumption|]. now apply (IH c Hc y E rho).
      * destruct (H2 c Hc) as (x & Hx & E). exists x.
        split; [assumption|]. now apply (IH x Hx c E rho).
  - cbn [sentence_eqb holds]. rewrite andb_true_iff. intros [E1 E2] rho.
    now rewrite (IH1 g1 E1 rho), (IH2 g2 E2 rho).
  - cbn [sentence_eqb holds]. rewrite andb_true_iff. intros [_ E] rho.
    destruct p.
    + apply andb_true_iff in E. destruct E as [E1 E2].
      now rewrite (IH1 g1 E1 rho), (IH2 g2 E2 rho).
    + rewrite !andb_true_iff, !orb_true_iff in E.
      destruct E as [[[A B] C] E].
      assert (K1 : forall g, sentence_eqb f1 g = true ->
                             (says rho f1 <-> says rho g))
        by (intros g Eg; exact (IH1 g Eg rho)).
      assert (K2 : forall g, sentence_eqb f2 g = true ->
                             (says rho f2 <-> says rho g))
        by (intros g Eg; exact (IH2 g Eg rho)).
      destruct A as [A|A]; apply K1 in A;
        (destruct B as [B|B]; apply K2 in B);
        (destruct C as [C|C]; [apply K1 in C|apply K2 in C]);
        (destruct E as [E|E]; [apply K1 in E|apply K2 in E]); tauto.
  - cbn [sentence_eqb]. rewrite !andb_true_iff.
    intros [[Eq Es] Ex] rho. apply var_is_true in Ex.
    assert (Ha : forall d, assign rho x d = assign rho x' d)
      by (intros d; unfold assign; now rewrite Ex).
    destruct q, q'; try discriminate; cbn [holds].
    + split; intros H d; specialize (H d).
      * rewrite <- Ha. now apply (IH s' Es).
      * rewrite Ha. now apply (IH s' Es).
    + split; intros [d H]; exists d.
      * rewrite <- Ha. now apply (IH s' Es).
      * rewrite Ha. now apply (IH s' Es).
Qed.

(** Operands that correspond one to one in meaning give the operator the
    same meaning. *)
Lemma holds_ACBO_pointwise rho rho' op l l' :
  (forall y, In y l' -> exists x, In x l /\ (says rho' y <-> says rho x)) ->
  (forall x, In x l -> exists y, In y l' /\ (says rho' y <-> says rho x)) ->
  says rho' (ACBO op l') <-> says rho (ACBO op l).
Proof.
  intros H1 H2. destruct op.
  - rewrite !holds_And. split; intros H c Hc.
    + destruct (H2 c Hc) as (y & Hy & E). apply E. auto.
    + destruct (H1 c Hc) as (x & Hx & E). apply E. auto.
  - rewrite !holds_Or. split; intros (c & Hc & H).
    + destruct (H1 c Hc) as (x & Hx & E). exists x.
      split; [assumption|]. now apply E.
    + destruct (H2 c Hc) as (y & Hy & E). exists y.
      split; [assumption|]. now apply E.
Qed.

(** The set that [And(...)] and [Or(...)] build says what the operands
    say. *)
Lemma holds_mkACBO rho op l :
  says rho (mkACBO op l) <-> says rho (ACBO op l).
Proof.
  unfold mkACBO. apply holds_ACBO_pointwise.
  - intros y Hy. exists y. split; [now apply frozenset_In|reflexivity].
  - intros x Hx. destruct (frozenset_repr x l Hx) as (y & Hy & E).
    exists y. split; [assumption|]. exact (holds_eqb y x E rho).
Qed.

Lemma holds_Implies_simplified rho s1 s2 :
  says rho (Implies_simplified s1 s2) <-> (says rho s1 -> says rho s2).
Proof.
  unfold Implies_simplified. rewrite holds_mkACBO. cbn [holds].
  destruct (classic (says rho s1)); tauto.
Qed.

Lemma simplified_holds s :
  forall rho, says rho (simplified s) <-> says rho s.
Proof.
  induction s as [n c|s IH|op l IH|f1 f2 IH1 IH2|p f1 f2 IH1 IH2|q x s IH]
    using sentence_induction; intros rho; cbn [simplified].
  - reflexivity.
  - cbn [holds]. now rewrite IH.
  - rewrite holds_mkACBO. rewrite Forall_forall in IH.
    apply holds_ACBO_pointwise.
    + intros y Hy. apply in_map_iff in Hy. destruct Hy as (x & <- & Hx).
      exists x. split; [assumption|]. now apply IH.
    + intros x Hx. exists (simplified x).
      split; [now apply in_map|]. now apply IH.
  - rewrite holds_Implies_simplified. cbn [holds]. now rewrite IH1, IH2.
  - rewrite holds_mkACBO, holds_And. cbn [holds]. split.
    + intros H.
      pose proof (H _ (or_introl eq_refl)) as H1.
      pose proof (H _ (or_intror (or_introl eq_refl))) as H2.
      rewrite holds_Implies_simplified in H1, H2.
      rewrite IH1, IH2 in H1, H2. tauto.
    + intros H c [<-|[<-|[]]];
        rewrite holds_Implies_simplified, IH1, IH2; tauto.
  - destruct q; cbn [holds].
    + split; intros H d; apply IH; auto.
    + split; intros [d H]; exists d; now apply IH.
Qed.

Lemma not_forall_In (P : sentence -> Prop) l :
  ~ (forall c, In c l -> P c) -> exists c, In c l /\ ~ P c.
Proof.
  induction l as [|a r IH]; intros H.
  - exfalso. apply H. intros c [].
  - destruct (classic (P a)) as [Ha|Ha].
    + destruct IH as (c & Hc & Hn).
      { intros K. apply H. intros c [<-|Hc]; auto. }
      exists c. split; [now right|assumption].
    + exists a. split; [now left|assumption].
Qed.

Lemma negated_inwards_holds s :
  forall negate r, negated_inwards s negate = Ok r ->
  forall rho,
    says rho r <-> (if negate then ~ says rho s else says rho s).
Proof.
  induction s as [n c|s IH|op l IH|f1 f2 IH1 IH2|p f1 f2 IH1 IH2|q x s IH]
    using sentence_induction; intros negate r; cbn [negated_inwards];
    try discriminate.
  - destruct negate; intros [= <-] rho; reflexivity.
  - intros E rho. rewrite (IH _ _ E rho). cbn [holds].
    destruct negate; cbn [negb]; [|reflexivity].
    split; [tauto|apply NNPP].
  - destruct (mapM (fun cont => negated_inwards cont negate) l)
      as [l'| |] eqn:Em; cbn [bind]; try discriminate.
    intros [= <-] rho. rewrite holds_mkACBO. rewrite Forall_forall in IH.
    assert (H1 : forall y, In y l' -> exists x, In x l /\
              (says rho y <->
               (if negate then ~ says rho x else says rho x))).
    { intros y Hy. destruct (mapM_In _ _ Em y Hy) as (x & Hx & E).
      exists x. split; [assumption|]. exact (IH x Hx negate y E rho). }
    assert (H2 : forall x, In x l -> exists y, In y l' /\
              (says rho y <->
               (if negate then ~ says rho x else says rho x))).
    { intros x Hx. destruct (mapM_In_Ok _ _ Em x Hx) as (y & Hy & E).
      exists y. split; [assumption|]. exact (IH x Hx negate y E rho). }
    destruct negate; [|now apply holds_ACBO_pointwise].
    destruct op; cbn [negative_op].
    + rewrite holds_Or, holds_And. split.
      * intros (y & Hy & H) K. destruct (H1 y Hy) as (x & Hx & E).
        apply E in H. auto.
      * intros K. destruct (not_forall_In _ l K) as (x & Hx & Hn).
        destruct (H2 x Hx) as (y & Hy & E). exists y.
        split; [assumption|]. now apply E.
    + rewrite holds_And, holds_Or. split.
      * intros H (x & Hx & Hs). destruct (H2 x Hx) as (y & Hy & E).
        apply (proj1 E (H y Hy)). assumption.
      * intros K y Hy. destruct (H1 y Hy) as (x & Hx & E). apply E.
        intros Hs. apply K. now exists x.
  - destruct (negated_inwards s negate) as [c'| |] eqn:Ec; cbn [bind];
      try discriminate.
    intros [= <-] rho.
    assert (K : forall d, says (assign rho x d) c' <->
              (if negate then ~ says (assign rho x d) s
               else says (assign rho x d) s))
      by (intros d; exact (IH negate c' Ec (assign rho x d))).
    destruct negate, q; cbn [negative_quantifier holds].
    + split.
      * intros [d H] G. apply (proj1 (K d) H). apply G.
      * intros G. apply NNPP. intros N. apply G. intros d. apply NNPP.
        intros Nd. apply N. exists d. now apply K.
    + split.
      * intros H [d G]. exact (proj1 (K d) (H d) G).
      * intros G d. apply K. intros Hs. apply G. now exists d.
    + split; intros H d; apply K; auto.
    + split; intros [d H]; exists d; now apply K.
Qed.

(** The meaning depends on the values of the free variables only. *)
Lemma term_value_agree rho rho' t :
  (forall v, var_in v (term_free_variables t) = true ->
             rho (var_id v) = rho' (var_id v)) ->
  value rho t = value rho' t.
Proof.
  induction t as [v|n c IH] using term_induction;
    cbn [term_value term_free_variables]; intros H.
  - apply H. unfold var_in, var_is. cbn. now rewrite Nat.eqb_refl.
  - f_equal. apply map_ext_in. intros t Ht. rewrite Forall_forall in IH.
    apply IH; [assumption|]. intros v Hv. apply H.
    apply var_in_flat_map. now exists t.
Qed.

Lemma holds_agree s :
  forall rho rho',
  (forall v, var_in v (free_variables s) = true ->
             rho (var_id v) = rho' (var_id v)) ->
  says rho s <-> says rho' s.
Proof.
  induction s as [n c|s IH|op l IH|f1 f2 IH1 IH2|p f1 f2 IH1 IH2|q x s IH]
    using sentence_induction; intros rho rho' H.
  - cbn [holds].
    replace (map (value rho') c) with (map (value rho) c); [reflexivity|].
    apply map_ext_in. intros t Ht. apply term_value_agree.
    intros v Hv. apply H. cbn [free_variables].
    apply var_in_flat_map. now exists t.
  - cbn [holds]. now rewrite (IH rho rho' H).
  - rewrite Forall_forall in IH.
    assert (K : forall c, In c l -> says rho' c <-> says rho c).
    { intros c Hc. symmetry. apply IH; [assumption|]. intros v Hv.
      apply H. cbn [free_variables]. apply var_in_flat_map. now exists c. }
    symmetry. apply holds_ACBO_pointwise; intros c Hc; exists c; auto.
  - cbn [holds].
    rewrite (IH1 rho rho'), (IH2 rho rho'); [reflexivity| |];
      intros v Hv; apply H; cbn [free_variables]; rewrite var_in_app, Hv;
      auto using orb_true_r.
  - cbn [holds].
    rewrite (IH1 rho rho'), (IH2 rho rho'); [reflexivity| |];
      intros v Hv; apply H; cbn [free_variables]; rewrite var_in_app, Hv;
      auto using orb_true_r.
  - assert (K : forall d,
              says (assign rho x d) s <-> says (assign rho' x d) s).
    { intros d. apply IH. intros v Hv. unfold assign.
      destruct (Nat.eqb (var_id v) (var_id x)) eqn:E; [reflexivity|].
      apply H. cbn [free_variables]. rewrite var_in_discard, Hv.
      unfold var_is. now rewrite Nat.eqb_sym, E. }
    destruct q; cbn [holds].
    + split; intros G d; apply K; auto.
    + split; intros [d G]; exists d; now apply K.
Qed.

(** A quantifier over a variable that its body does not mention says what
    the body says, in a domain that is not empty. *)
Lemma holds_vacuous (d0 : D) q x s rho :
  var_in x (free_variables s) = false ->
  says rho (Quant q x s) <-> says rho s.
Proof.
  intros Hx.
  assert (K : forall d, says (assign rho x d) s <-> says rho s).
  { intros d. apply holds_agree. intros v Hv. unfold assign.
    destruct (Nat.eqb (var_id v) (var_id x)) eqn:E; [|reflexivity].
    exfalso. rewrite (var_in_congr v x _ E) in Hv. congruence. }
  destruct q; cbn [holds].
  - split; [intros G; apply (K d0), G|intros G d; now apply K].
  - split; [intros [d G]; now apply (K d)|intros G; exists d0; now apply K].
Qed.

Lemma holds_flatten rho op new :
  says rho (ACBO op (flatten op new)) <-> says rho (ACBO op new).
Proof.
  destruct op.
  - rewrite !holds_And. split.
    + intros H c Hc. destruct (is_ACBO OpAnd c) eqn:Ec.
      * apply is_ACBO_true in Ec. destruct Ec as (lc & ->).
        apply holds_And. intros e He. apply H. apply flatten_In.
        exists (ACBO OpAnd lc). split; [assumption|]. right. eauto.
      * apply H. apply flatten_In. exists c. split; [assumption|].
        left. auto.
    + intros H e He. apply flatten_In in He.
      destruct He as (c & Hc & [[_ ->]|(lc & -> & He)]); [auto|].
      exact (proj1 (holds_And rho lc) (H _ Hc) e He).
  - rewrite !holds_Or. split.
    + intros (e & He & Hs). apply flatten_In in He.
      destruct He as (c & Hc & [[_ ->]|(lc & -> & He)]).
      * now exists c.
      * exists (ACBO OpOr lc). split; [assumption|].
        apply holds_Or. now exists e.
    + intros (c & Hc & Hs). destruct (is_ACBO OpOr c) eqn:Ec.
      * apply is_ACBO_true in Ec. destruct Ec as (lc & ->).
        apply holds_Or in Hs. destruct Hs as (e & He & Hs). exists e.
        split; [|assumption]. apply flatten_In.
        exists (ACBO OpOr lc). split; [assumption|]. right. eauto.
      * exists c. split; [|assumption]. apply flatten_In. exists c.
        split; [assumption|]. left. auto.
Qed.

Lemma cleaned_fuel_holds (d0 : D) fuel :
  forall s r, cleaned_fuel fuel s = Ok r ->
  forall rho, says rho r <-> says rho s.
Proof.
  induction fuel as [|fuel IH]; [discriminate|].
  intros [n c|s|op l|f1 f2|p f1 f2|q x s] r; cbn [cleaned_fuel].
  - intros [= <-] rho. reflexivity.
  - destruct (cleaned_fuel fuel s) as [c'| |] eqn:E; cbn [bind];
      try discriminate.
    intros [= <-] rho. cbn [holds]. now rewrite (IH s c' E rho).
  - destruct (mapM (cleaned_fuel fuel) l) as [l'| |] eqn:Em; cbn [bind];
      try discriminate.
    intros Er rho.
    assert (Hl : says rho (ACBO op (frozenset l')) <-> says rho (ACBO op l)).
    { change (ACBO op (frozenset l')) with (mkACBO op l').
      rewrite holds_mkACBO. apply holds_ACBO_pointwise.
      - intros y Hy. destruct (mapM_In _ _ Em y Hy) as (x & Hx & E).
        exists x. split; [assumption|]. exact (IH x y E rho).
      - intros x Hx. destruct (mapM_In_Ok _ _ Em x Hx) as (y & Hy & E).
        exists y. split; [assumption|]. exact (IH x y E rho). }
    rewrite <- Hl.
    destruct (frozenset l') as [|only [|b t]].
    + injection Er as <-. rewrite holds_mkACBO. apply holds_flatten.
    + rewrite (IH only r Er rho). destruct op; cbn [holds]; tauto.
    + injection Er as <-. rewrite holds_mkACBO. apply holds_flatten.
  - destruct (cleaned_fuel fuel f1) as [g1| |] eqn:E1; cbn [bind];
      try discriminate.
    destruct (cleaned_fuel fuel f2) as [g2| |] eqn:E2; cbn [bind];
      try discriminate.
    intros [= <-] rho. cbn [holds].
    now rewrite (IH f1 g1 E1 rho), (IH f2 g2 E2 rho).
  - destruct (cleaned_fuel fuel f1) as [g1| |] eqn:E1; cbn [bind];
      try discriminate.
    destruct (cleaned_fuel fuel f2) as [g2| |] eqn:E2; cbn [bind];
      try discriminate.
    intros [= <-] rho. unfold mkIFF. cbn [holds].
    now rewrite (IH f1 g1 E1 rho), (IH f2 g2 E2 rho).
  - destruct (var_in x (free_variables s)) eqn:Ex.
    + destruct (cleaned_fuel fuel s) as [c'| |] eqn:E; cbn [bind];
        try discriminate.
      intros [= <-] rho. destruct q; cbn [holds].
      * split; intros H d; apply (IH s c' E); auto.
      * split; intros [d H]; exists d; now apply (IH s c' E).
    + intros E rho. rewrite (IH s r E rho). symmetry.
      now apply holds_vacuous.
Qed.

End Interpretation_facts.

(** X27: [simplified] returns a logically equivalent sentence, as its
    docstring says: in every interpretation and under every assignment, the
    sentence it returns holds exactly when the given one does. *)
Theorem simplified_is_equivalent (D : Type)
    (function_value : string -> list D -> D)
    (predicate_holds : string -> list D -> Prop) (rho : nat -> D) s :
  holds function_value predicate_holds rho (simplified s)
  <-> holds function_value predicate_holds rho s.
Proof. apply simplified_holds. Qed.

(** X28: when [negated_inwards] returns, [negated_inwards(True)] has returned
    a sentence that holds exactly when the given one does not, and
    [negated_inwards(False)] one that holds exactly when the given one
    does. *)
Theorem negated_inwards_negates (D : Type)
    (function_value : string -> list D -> D)
    (predicate_holds : string -> list D -> Prop) (rho : nat -> D)
    s negate r :
  negated_inwards s negate = Ok r ->
  (holds function_value predicate_holds rho r
   <-> (if negate
        then ~ holds function_value predicate_holds rho s
        else holds function_value predicate_holds rho s)).
Proof. intros E. now apply negated_inwards_holds. Qed.

Lemma negated_inwards_negates_witness :
  exists r, negated_inwards negated_inwards_sample true = Ok r
            /\ (holds sample_function_value sample_predicate_holds
                  sample_assignment r
                <-> ~ holds sample_function_value sample_predicate_holds
                        sample_assignment negated_inwards_sample).
Proof.
  eexists. split; [reflexivity|].
  apply (negated_inwards_negates bool sample_function_value
           sample_predicate_holds sample_assignment
           negated_inwards_sample true).
  reflexivity.
Defined.

(** X29: in a domain that is not empty, the sentence that [cleaned] returns
    holds exactly when the given one does: dropping a quantifier whose
    variable is not free in its body, unwrapping an [And] or [Or] of one
    operand and merging nested operators of the same class keep the
    meaning. *)
Theorem cleaned_is_equivalent (D : Type)
    (function_value : string -> list D -> D)
    (predicate_holds : string -> list D -> Prop) (d0 : D) (rho : nat -> D)
    s r :
  cleaned s = Ok r ->
  (holds function_value predicate_holds rho r
   <-> holds function_value predicate_holds rho s).
Proof. intros E. now apply (cleaned_fuel_holds _ _ _ d0 _ s r E). Qed.

Lemma cleaned_is_equivalent_witness :
  exists r, cleaned cleaned_sample = Ok r
            /\ (holds sample_function_value sample_predicate_holds
                  sample_assignment r
                <-> holds sample_function_value sample_predicate_holds
                      sample_assignment cleaned_sample).
Proof.
  eexists. split; [reflexivity|].
  apply (cleaned_is_equivalent bool sample_function_value
           sample_predicate_holds true sample_assignment cleaned_sample).
  reflexivity.
Defined.

(** X30: sentences that [__eq__] takes for equal hold in the same
    interpretations and under the same assignments: the order and the
    repetitions of the operands of [And], [Or] and of an [IFF] held as a set,
    and the names of the [Variable] objects, carry no meaning. *)
Theorem equal_sentences_hold_alike (D : Type)
    (function_value : string -> list D -> D)
    (predicate_holds : string -> list D -> Prop) (rho : nat -> D) a b :
  sentence_eqb a b = true ->
  (holds function_value predicate_holds rho a
   <-> holds function_value predicate_holds rho b).
Proof. intros E. now apply holds_eqb. Qed.

Lemma equal_sentences_hold_alike_witness :
  sentence_eqb P_and_Q (mkACBO OpAnd [nullary "Q"; nullary "P"; nullary "Q"])
  = true
  /\ (holds sample_function_value sample_predicate_holds sample_assignment
        P_and_Q
      <-> holds sample_function_value sample_predicate_holds
            sample_assignment
            (mkACBO OpAnd [nullary "Q"; nullary "P"; nullary "Q"])).
Proof.
  split; [reflexivity|].
  apply (equal_sentences_hold_alike bool sample_function_value
           sample_predicate_holds sample_assignment).
  reflexivity.
Defined.

(** ** Identity of quantified variables through the methods *)

(** No sentence is equal to a quantifier over itself. *)
Lemma Quant_not_its_body c :
  forall q x, sentence_eqb (Quant q x c) c = false.
Proof.
  induction c as [n a|s IH|op l IH|f1 f2 IH1 IH2|p f1 f2 IH1 IH2|q' x' s IH]
    using sentence_induction; intros q x; try reflexivity.
  change (quantifier_eqb q q' && sentence_eqb (Quant q' x' s) s
          && var_is x x' = false).
  now rewrite (IH q' x'), andb_false_r.
Qed.

(** [cleaned] on a quantifier: the quantifier over the cleaned body when
    its variable is free in the body, the cleaned body alone when it is
    not. *)
Lemma cleaned_Quant q x b :
  cleaned (Quant q x b)
  = if var_in x (free_variables b)
    then c' <- cleaned b ;; Ok (Quant q x c')
    else cleaned b.
Proof. reflexivity. Qed.

(** C10: two quantifiers of the same class over the same body are equal
    exactly when their variables are the same object, whatever the names;
    so [ForAll(x, P(x))] and [ForAll(y, P(y))] are unequal for two distinct
    variables, named alike or not.  [simplified], [negated_inwards],
    [substitute] and [distributed] keep this comparison: their results on
    two such quantifiers are equal exactly when the variables are the same
    object.  [cleaned] keeps it only while a variable is free in the body:
    its results are equal exactly when the variables are the same object or
    neither is free in the body, in which case both are the cleaned body.
    [skolemised] does not keep it: its result holds no quantifier, and on
    [ForAll(x, b)] with [b] free of quantifiers it returns [b], whatever
    [x].  No method makes or renames a quantified variable: the variables
    quantified in a result of [simplified], [negated_inwards], [substitute]
    and [cleaned] are variable objects that the sentence quantifies. *)
Theorem quantified_variable_identity :
  (forall q x y b,
     sentence_eqb (Quant q x b) (Quant q y b) = true <-> var_id x = var_id y)
  /\ (forall q x y n, var_id x <> var_id y ->
        sentence_eqb (Quant q x (Predicate n [Var x]))
                     (Quant q y (Predicate n [Var y])) = false)
  /\ var_name var_x = var_name var_x'
  /\ sentence_eqb (ForAll var_x (Predicate "P" [Var var_x]))
                  (ForAll var_x' (Predicate "P" [Var var_x'])) = false
  /\ (forall q x y b,
        sentence_eqb (simplified (Quant q x b)) (simplified (Quant q y b))
        = true <-> var_id x = var_id y)
  /\ (forall q x y b negate r r',
        negated_inwards (Quant q x b) negate = Ok r ->
        negated_inwards (Quant q y b) negate = Ok r' ->
        (sentence_eqb r r' = true <-> var_id x = var_id y))
  /\ (forall q x y b subst r r',
        substitute (Quant q x b) subst = Ok r ->
        substitute (Quant q y b) subst = Ok r' ->
        (sentence_eqb r r' = true <-> var_id x = var_id y))
  /\ (forall q x y b r r',
        distributed (Quant q x b) = Ok r ->
        distributed (Quant q y b) = Ok r' ->
        (sentence_eqb r r' = true <-> var_id x = var_id y))
  /\ (forall q x y b r r',
        cleaned (Quant q x b) = Ok r -> cleaned (Quant q y b) = Ok r' ->
        (sentence_eqb r r' = true
         <-> (var_id x = var_id y
              \/ (var_in x (free_variables b) = false
                  /\ var_in y (free_variables b) = false))))
  /\ (forall q x b,
        var_in x (free_variables b) = false ->
        cleaned (Quant q x b) = cleaned b)
  /\ (forall object_id s variables k r k',
        skolemised object_id s variables k = Ok (r, k') ->
        bound_variables r = [])
  /\ (forall object_id x b variables k,
        well_formed b = true -> quantifier_free b = true ->
        exists r, skolemised object_id (ForAll x b) variables k = Ok (r, k)
                  /\ sentence_eqb r b = true)
  /\ (forall s x,
        (In x (bound_variables (simplified s)) -> In x (bound_variables s))
        /\ (forall negate r, negated_inwards s negate = Ok r ->
              In x (bound_variables r) -> In x (bound_variables s))
        /\ (forall subst r, substitute s subst = Ok r ->
              In x (bound_variables r) -> In x (bound_variables s))
        /\ (forall r, cleaned s = Ok r ->
              In x (bound_variables r) -> In x (bound_variables s))).
Proof.
  split; [|split; [|split; [|split; [|split; [|split; [|split; [|split;
    [|split; [|split; [|split; [|split]]]]]]]]]]].
  - intros q x y b. apply Quant_eqb, sentence_eqb_refl.
  - intros q x y n Hxy.
    destruct (sentence_eqb (Quant q x (Predicate n [Var x]))
                (Quant q y (Predicate n [Var y]))) eqn:E; [|reflexivity].
    cbn in E. rewrite !andb_true_iff in E. destruct E as [_ E].
    now apply var_is_true in E.
  - reflexivity.
  - reflexivity.
  - intros q x y b. cbn [simplified]. apply Quant_eqb, sentence_eqb_refl.
  - intros q x y b negate r r'. cbn [negated_inwards].
    destruct (negated_inwards b negate) as [c| |]; cbn; try discriminate.
    intros [= <-] [= <-]. apply Quant_eqb, sentence_eqb_refl.
  - intros q x y b subst r r'. cbn [substitute].
    destruct (sub_mem x subst); try discriminate.
    destruct (sub_mem y subst); try discriminate.
    destruct (substitute b subst) as [c| |]; cbn; try discriminate.
    intros [= <-] [= <-]. apply Quant_eqb, sentence_eqb_refl.
  - intros q x y b r r'. cbn [distributed].
    destruct (distributed b) as [c| |]; cbn; try discriminate.
    intros [= <-] [= <-]. apply Quant_eqb, sentence_eqb_refl.
  - intros q x y b r r'. rewrite !cleaned_Quant.
    destruct (var_in x (free_variables b)) eqn:Hx,
             (var_in y (free_variables b)) eqn:Hy;
      destruct (cleaned b) as [c| |]; cbn [bind]; try discriminate.
    + intros [= <-] [= <-].
      rewrite (Quant_eqb q x y c c (sentence_eqb_refl c)).
      split; [now left|]. now intros [E|[E _]].
    + intros [= <-] [= <-]. rewrite Quant_not_its_body. split.
      * discriminate.
      * intros [E|[E _]]; [|discriminate].
        apply var_is_true in E.
        rewrite (var_in_congr x y _ E) in Hx. congruence.
    + intros [= <-] [= <-].
      rewrite sentence_eqb_sym, Quant_not_its_body. split.
      * discriminate.
      * intros [E|[_ E]]; [|discriminate].
        apply var_is_true in E.
        rewrite (var_in_congr x y _ E) in Hx. congruence.
    + intros [= <-] [= <-]. rewrite sentence_eqb_refl.
      split; [now right|reflexivity].
  - intros q x b Hx. now rewrite cleaned_Quant, Hx.
  - intros object_id s variables k r k' E. unfold skolemised in E.
    destruct (@skolemised_fuel_outcome object_id (S (depth s)) s
                variables k) as [(r0 & k0 & E0 & Hq)|[E0 _]]; [lia| |].
    + rewrite E in E0. injection E0 as <- <-.
      now apply quantifier_free_bound_variables.
    + rewrite E in E0. discriminate.
  - intros object_id x b variables k Hw Hq.
    exact (skolemised_fuel_fixed object_id (S (depth b)) b
             (var_add x variables) k (Nat.lt_succ_diag_r _) Hw Hq).
  - intros s x. split; [apply simplified_bound_variables|].
    split; [apply negated_inwards_bound_variables|]. split.
    + intros subst r E. apply rebuilt_bound_variables_In.
      exact (substitute_rebuilt subst s E).
    + intros r E. exact (cleaned_fuel_bound_variables x _ s r E).
Qed.

Lemma quantified_variable_identity_witness :
  sentence_eqb (ForAll var_x (Predicate "P" [Var var_x]))
               (ForAll var_y (Predicate "P" [Var var_y])) = false
  /\ (sentence_eqb (ForAll var_x P_x_y) (ForAll var_y P_x_y) = true
      <-> (var_id var_x = var_id var_y
           \/ (var_in var_x (free_variables P_x_y) = false
               /\ var_in var_y (free_variables P_x_y) = false)))
  /\ cleaned (ForAll var_x (nullary "P")) = cleaned (nullary "P")
  /\ (exists r, skolemised sample_object_id (ForAll var_x P_x_y) [] 0
                = Ok (r, 0)
                /\ sentence_eqb r P_x_y = true).
Proof.
  destruct quantified_variable_identity
    as (_ & H2 & _ & _ & _ & _ & _ & _ & H9 & H10 & _ & H12 & _).
  split; [|split; [|split]].
  - apply H2. discriminate.
  - apply (H9 QForAll var_x var_y P_x_y); reflexivity.
  - apply H10. reflexivity.
  - apply H12; reflexivity.
Defined.

(** C10 as stated fails: [ForAll(x, P())] and [ForAll(y, P())] are unequal,
    and so are [ForAll(x, P(x, y))] and [ForAll(y, P(x, y))], for the two
    distinct variables [x] and [y]; yet [cleaned] returns the same [P()] on
    the first two and [skolemised] the same [P(x, y)] on the last two. *)
Lemma cleaned_and_skolemised_forget_the_variable :
  var_id var_x <> var_id var_y
  /\ sentence_eqb (ForAll var_x (nullary "P")) (ForAll var_y (nullary "P"))
     = false
  /\ cleaned (ForAll var_x (nullary "P")) = Ok (nullary "P")
  /\ cleaned (ForAll var_y (nullary "P")) = Ok (nullary "P")
  /\ sentence_eqb (ForAll var_x P_x_y) (ForAll var_y P_x_y) = false
  /\ skolemised sample_object_id (ForAll var_x P_x_y) [] 0 = Ok (P_x_y, 0)
  /\ skolemised sample_object_id (ForAll var_y P_x_y) [] 0 = Ok (P_x_y, 0).
Proof. repeat split. discriminate. Qed.
